(** * Domino Blocks (app.js): tiling generator, target calculator and
      placement/undo state machine, embedded shallowly and verified.

    Conventions of the embedding.
    - JS numbers that are array indices ([r], [c], loop counters) are [nat];
      pip values, sums and domino ids are [Z].
    - A JS array is a [list]; [a[i]] is stdpp's lookup [a !! i], an in-range
      store [a[i] = v] is [<[i:=v]> a].  The 4x4 arrays of the program are
      lists of rows.
    - [null] in a board cell is [None].
    - [Math.random()] is a source of exact rationals in [0,1), threaded
      explicitly through every function that draws from it.
    - Functions that can raise return a result type that records it. *)

From Stdlib Require Import ZArith QArith Qround Lia.
From stdpp Require Import base tactics option list sorting.

Local Open Scope nat_scope.

(** ** Constants *)

Definition SIZE : nat := 4.

Record Block := { bl_r : nat; bl_c : nat }.

Definition BLOCKS : list Block :=
  [ {| bl_r := 0; bl_c := 0 |};
    {| bl_r := 0; bl_c := 2 |};
    {| bl_r := 2; bl_c := 0 |};
    {| bl_r := 2; bl_c := 2 |} ].

(** ** Two-dimensional arrays *)

Module Grid.
Section Ops.
Context {A : Type}.

(** [g[r][c]] *)
Definition get2 (g : list (list A)) (r c : nat) : option A :=
  match g !! r with
  | Some row => row !! c
  | None => None
  end.

(** [g[r][c] = v] for an existing row [r] *)
Definition set2 (g : list (list A)) (r c : nat) (v : A) : list (list A) :=
  match g !! r with
  | Some row => <[r := <[c := v]> row]> g
  | None => g
  end.

(** [SIZE] rows of [SIZE] entries each *)
Definition shape (g : list (list A)) : Prop :=
  length g = SIZE ∧ Forall (λ row, length row = SIZE) g.

(** [Array.from({length:SIZE},()=>Array.from({length:SIZE},()=>v))] *)
Definition make (v : A) : list (list A) := replicate SIZE (replicate SIZE v).
End Ops.
End Grid.
Import Grid.

(** The sixteen coordinates in the order of the nested loops
    [for(r=0;r<SIZE;r++) for(c=0;c<SIZE;c++)]. *)
Definition all_cells : list (nat * nat) :=
  concat (map (λ r, map (λ c, (r, c)) (seq 0 SIZE)) (seq 0 SIZE)).

(** ** Data model *)

(** [{r, c, value}] *)
Record PCell := { cr : nat; cc : nat; cvalue : Z }.

(** [{cells:[{r,c,value},{r,c,value}]}]: every tile literal of the program
    has exactly two cells. *)
Record Tile := { cell0 : PCell; cell1 : PCell }.

Definition cells (t : Tile) : list PCell := [cell0 t; cell1 t].

(** [{id, a, b}] *)
Record Domino := { id : Z; a : Z; b : Z }.

(** [{id, cells:placements}] *)
Record Placement := { pid : Z; pcells : Tile }.

(** [{action:'place', dominoId, cells}] *)
Inductive Action := APlace.
Record HistEntry := { action : Action; hdominoId : Z; hcells : Tile }.

(** [{value, dominoId}] *)
Record BoardEntry := { value : Z; dominoId : Z }.

Abbreviation Board := (list (list (option BoardEntry))).

Record State := {
  solutionTiles : list Tile;
  pool : list Domino;
  placed : list Placement;
  selectedDominoId : option Z;          (* null or a number *)
  selectionClicks : list (nat * nat);
  board : Board;
  history : list HistEntry
}.

(** The texts given to [setMessage]. *)
Inductive Message :=
| MsgInit
| MsgSelected
| MsgSelectFirst
| MsgOccupied
| MsgNotAdjacent
| MsgNotFound
| MsgPlaced (n : nat)
| MsgSecondCell
| MsgNothingToUndo
| MsgUndid
| MsgSolved
| MsgWrongBlocks (blocks : list nat).

(** What an event handler leaves behind: the state and the messages it set,
    in order, or the state at the point where a TypeError escaped. *)
Inductive Outcome :=
| Ok (st : State) (msgs : list Message)
| Throw (st : State).

Definition outcome_state (o : Outcome) : State :=
  match o with Ok st _ => st | Throw st => st end.

(** ** Randomness *)

Record Unit01 := {
  u_val : Q;
  u_ok : Qle_bool 0 u_val && negb (Qle_bool 1 u_val) = true
}.

(** The stream of values [Math.random()] will return. *)
Definition Rng := nat → Unit01.

Definition random (g : Rng) : Q * Rng := (u_val (g 0), λ n, g (S n)).

(** [Math.floor(Math.random()*n)], with the product taken exactly. The
    program multiplies in double precision, so for a few draws just below
    [k/n] it gets [k] where this gets [k-1]; both stay within [0, n-1] for
    the products the program forms (n = 2 for the two directions, 6 for a
    pip, 2..8 for the pool), and nothing below depends on which value of
    that range a draw yields. *)
Definition randBelow (n : Z) (g : Rng) : Z * Rng :=
  let '(x, g') := random g in (Qfloor (x * inject_Z n), g').

(** [randInt(min,max)] *)
Definition randInt (min max : Z) (g : Rng) : Z * Rng :=
  let '(k, g') := randBelow (max - min + 1) g in ((k + min)%Z, g').

(** [[a[i],a[j]] = [a[j],a[i]]]: the right-hand side is read first, then
    [a[i]] and [a[j]] are stored in that order. *)
Definition swap {A} (l : list A) (i j : nat) : list A :=
  match l !! i, l !! j with
  | Some x, Some y => <[j := x]> (<[i := y]> l)
  | _, _ => l
  end.

(** The loop [for(let i=a.length-1;i>0;i--)] of [shuffleArray], entered
    with [i = n]. *)
Fixpoint shuffleFrom {A} (n : nat) (l : list A) (g : Rng) : list A * Rng :=
  match n with
  | 0 => (l, g)
  | S n' =>
      let '(j, g') := randBelow (Z.of_nat n + 1) g in
      shuffleFrom n' (swap l n (Z.to_nat j)) g'
  end.

Definition shuffleArray {A} (l : list A) (g : Rng) : list A * Rng :=
  shuffleFrom (length l - 1) l g.

(** ** Utilities *)

Definition areAdjacent (p q : nat * nat) : bool :=
  let dr := Z.abs (Z.of_nat p.1 - Z.of_nat q.1) in
  let dc := Z.abs (Z.of_nat p.2 - Z.of_nat q.2) in
  (dr + dc =? 1)%Z.

Definition createEmptyBoard {A} : list (list (option A)) := make None.

(** ** Tiling generator *)

(** The closure state of [generateRandomTilingWithValues]: the occupancy
    array [cells], the array [tiles], and the random stream. *)
Record GenState := {
  g_cells : list (list bool);
  g_tiles : list Tile;
  g_rng : Rng
}.

(** [!cells[r][c]] *)
Definition isEmptyAt (g : list (list bool)) (p : nat * nat) : bool :=
  match get2 g p.1 p.2 with
  | Some true => false
  | _ => true
  end.

Definition findFirstEmpty (g : list (list bool)) : option (nat * nat) :=
  find (isEmptyAt g) all_cells.

(** [{dr, dc}] *)
Record Dir := { dr : nat; dc : nat }.

Definition DIRS : list Dir := [ {| dr := 0; dc := 1 |}; {| dr := 1; dc := 0 |} ].

(** The loop [for(const d of dirs)] of [tryPlace] at position [(r,c)];
    [rec] is the recursive call [tryPlace()]. *)
Fixpoint tryDirs (rec : GenState → option (bool * GenState))
    (r c : nat) (ds : list Dir) (st : GenState) : option (bool * GenState) :=
  match ds with
  | [] => Some (false, st)
  | d :: ds' =>
      let nr := r + dr d in
      let nc := c + dc d in
      if (nr <? SIZE) && (nc <? SIZE) && isEmptyAt (g_cells st) (nr, nc) then
        let cells1 := set2 (set2 (g_cells st) r c true) nr nc true in
        let '(v1, g1) := randInt 1 6 (g_rng st) in
        let '(v2, g2) := randInt 1 6 g1 in
        let t := {| cell0 := {| cr := r; cc := c; cvalue := v1 |};
                    cell1 := {| cr := nr; cc := nc; cvalue := v2 |} |} in
        match rec {| g_cells := cells1; g_tiles := g_tiles st ++ [t]; g_rng := g2 |} with
        | None => None
        | Some (true, st') => Some (true, st')
        | Some (false, st') =>
            (* backtrack *)
            tryDirs rec r c ds'
              {| g_cells := set2 (set2 (g_cells st') r c false) nr nc false;
                 g_tiles := removelast (g_tiles st');
                 g_rng := g_rng st' |}
        end
      else tryDirs rec r c ds' st
  end.

(** [tryPlace()]; [fuel] bounds the depth of the recursion, [None] is
    "fuel exhausted". *)
Fixpoint tryPlace (fuel : nat) (st : GenState) : option (bool * GenState) :=
  match fuel with
  | 0 => None
  | S fuel' =>
      match findFirstEmpty (g_cells st) with
      | None => Some (true, st)
      | Some (r, c) =>
          let '(dirs, g1) := shuffleArray DIRS (g_rng st) in
          tryDirs (tryPlace fuel') r c dirs
            {| g_cells := g_cells st; g_tiles := g_tiles st; g_rng := g1 |}
      end
  end.

(** Results of functions that may raise or, in the model, run out of fuel. *)
Inductive Res (A : Type) :=
| Ret (x : A)
| Raised
| OutOfFuel.
Arguments Ret {A} x.
Arguments Raised {A}.
Arguments OutOfFuel {A}.

(** [for r,c: cells[r][c] = false] *)
Definition resetCells (g : list (list bool)) : list (list bool) :=
  foldl (λ g p, set2 g p.1 p.2 false) g all_cells.

(** The [while(true)] loop; it runs at most 201 times, [k] counts the
    iterations still allowed to the model. *)
Fixpoint genLoop (fuel k : nat) (attempts : nat) (st : GenState)
    : Res (list Tile * Rng) :=
  match k with
  | 0 => OutOfFuel
  | S k' =>
      let st0 := {| g_cells := resetCells (g_cells st); g_tiles := [];
                    g_rng := g_rng st |} in
      let attempts := attempts + 1 in
      match tryPlace fuel st0 with
      | None => OutOfFuel
      | Some (true, st1) => Ret (g_tiles st1, g_rng st1)
      | Some (false, st1) =>
          if 200 <? attempts then Raised
          else genLoop fuel k' attempts st1
      end
  end.

Definition generateRandomTilingWithValues (fuel : nat) (g : Rng)
    : Res (list Tile * Rng) :=
  genLoop fuel fuel 0
    {| g_cells := replicate SIZE (replicate SIZE false); g_tiles := []; g_rng := g |}.

(** ** Target calculator *)

(** [b[cell.r][cell.c] = cell.value]; raises when row [cell.r] does not
    exist. *)
Definition writeCell (b : list (list (option Z))) (x : PCell)
    : option (list (list (option Z))) :=
  if cr x <? SIZE then Some (set2 b (cr x) (cc x) (Some (cvalue x))) else None.

Definition writeCells (b : list (list (option Z))) (xs : list PCell)
    : option (list (list (option Z))) :=
  foldl (λ ob x, match ob with Some b => writeCell b x | None => None end) (Some b) xs.

(** The cells visited by [for(r=bl.r;r<bl.r+2;r++) for(c=bl.c;c<bl.c+2;c++)]. *)
Definition blockCells (bl : Block) : list (nat * nat) :=
  concat (map (λ r, map (λ c, (r, c)) (seq (bl_c bl) 2)) (seq (bl_r bl) 2)).

(** [sum += b[r][c]]: [null] adds 0. *)
Definition numAt (b : list (list (option Z))) (p : nat * nat) : Z :=
  match get2 b p.1 p.2 with
  | Some (Some v) => v
  | _ => 0
  end.

Definition targetOf (b : list (list (option Z))) (bl : Block) : Z :=
  foldl (λ sum p, (sum + numAt b p)%Z) 0%Z (blockCells bl).

(** [None] is a TypeError raised while the board of numbers is built. *)
Definition computeBlockTargetsFromTiles (tiles : list Tile) : option (list Z) :=
  match writeCells createEmptyBoard (concat (map cells tiles)) with
  | Some b => Some (map (targetOf b) BLOCKS)
  | None => None
  end.

(** ** Puzzle state machine *)

(** [!selectedDominoId]: true for [null] and for the number 0. *)
Definition noSelection (s : option Z) : bool :=
  match s with
  | None => true
  | Some z => (z =? 0)%Z
  end.

(** [s += board[r][c].value]; [None] is the TypeError of reading [.value]
    of [null] or [undefined]. *)
Definition blockSum (bd : Board) (bl : Block) : option Z :=
  foldl (λ acc p,
           match acc, get2 bd p.1 p.2 with
           | Some s, Some (Some e) => Some (s + value e)%Z
           | _, _ => None
           end) (Some 0%Z) (blockCells bl).

(** The array built by [BLOCKS.map], unless one of the calls raised. *)
Fixpoint sequenceOpt {A} (l : list (option A)) : option (list A) :=
  match l with
  | [] => Some []
  | Some x :: l' => match sequenceOpt l' with Some xs => Some (x :: xs) | None => None end
  | None :: _ => None
  end.

(** The indices [i] pushed on [wrongIdx] by the loop over [sums], from
    index [i] on; [ok] ends up false exactly when one was pushed. *)
Fixpoint wrongFrom (i : nat) (sums targets : list Z) : list nat :=
  match sums, targets with
  | s :: sums', t :: targets' =>
      if (s =? t)%Z then wrongFrom (S i) sums' targets'
      else i :: wrongFrom (S i) sums' targets'
  | s :: sums', [] => i :: wrongFrom (S i) sums' []
  | [], _ => []
  end.

(** [x === null] *)
Definition isNull {A} (x : option A) : bool :=
  match x with None => true | Some _ => false end.

(** [checkCompletion()]: the messages it sets ([[]] when it returns early),
    or [None] when a TypeError escapes. *)
Definition checkCompletion (st : State) : option (list Message) :=
  if existsb isNull (concat (board st)) then Some []
  else
    match sequenceOpt (map (blockSum (board st)) BLOCKS) with
    | None => None
    | Some sums =>
        match computeBlockTargetsFromTiles (solutionTiles st) with
        | None => None
        | Some correctTargets =>
            let wrongIdx := wrongFrom 0 sums correctTargets in
            if isNull (head wrongIdx) then Some [MsgSolved]
            else Some [MsgWrongBlocks (map (λ i, i + 1) wrongIdx)]
        end
    end.

Definition onSelectDomino (i : Z) (st : State) : Outcome :=
  if existsb (λ p, (pid p =? i)%Z) (placed st) then Ok st []
  else
    Ok {| solutionTiles := solutionTiles st; pool := pool st; placed := placed st;
          selectedDominoId := Some i; selectionClicks := [];
          board := board st; history := history st |}
       [MsgSelected].

Definition withClicks (st : State) (cl : list (nat * nat)) : State :=
  {| solutionTiles := solutionTiles st; pool := pool st; placed := placed st;
     selectedDominoId := selectedDominoId st; selectionClicks := cl;
     board := board st; history := history st |}.

(** [onCellClick] for the event of the grid cell at row [r], column [c].
    The handler is attached by [renderGrid] to the [SIZE*SIZE] cell elements
    only, so [r] and [c] are below [SIZE]. *)
Definition onCellClick (r c : nat) (st : State) : Outcome :=
  if noSelection (selectedDominoId st) then Ok st [MsgSelectFirst]
  else if negb (isNull (mjoin (get2 (board st) r c))) then Ok st [MsgOccupied]
  else
    let clicks := selectionClicks st ++ [(r, c)] in
    if length clicks =? 2 then
      match clicks !! 0, clicks !! 1, selectedDominoId st with
      | Some pa, Some pb, Some sel =>
          if negb (areAdjacent pa pb) then Ok (withClicks st []) [MsgNotAdjacent]
          else
            match find (λ d, (id d =? sel)%Z) (pool st) with
            | None => Ok (withClicks st []) [MsgNotFound]
            | Some dom =>
                let placements :=
                  {| cell0 := {| cr := pa.1; cc := pa.2; cvalue := a dom |};
                     cell1 := {| cr := pb.1; cc := pb.2; cvalue := b dom |} |} in
                let board' :=
                  foldl (λ bd p, set2 bd (cr p) (cc p)
                                   (Some {| value := cvalue p; dominoId := id dom |}))
                        (board st) (cells placements) in
                let placed' := placed st ++ [{| pid := id dom; pcells := placements |}] in
                let st' :=
                  {| solutionTiles := solutionTiles st;
                     pool := filter (λ x, id x ≠ id dom) (pool st);
                     placed := placed';
                     selectedDominoId := None;
                     selectionClicks := [];
                     board := board';
                     history := history st ++
                       [{| action := APlace; hdominoId := id dom; hcells := placements |}] |} in
                match checkCompletion st' with
                | Some ms => Ok st' (MsgPlaced (length placed') :: ms)
                | None => Throw st'
                end
            end
      | _, _, _ => Ok (withClicks st clicks) []   (* not taken: length is 2 and
                                                     the selection is a number *)
      end
    else Ok (withClicks st clicks) [MsgSecondCell].

(** [solutionTiles[i]] for a number [i]: [undefined] unless [i] is an index. *)
Definition lookupZ {A} (l : list A) (i : Z) : option A :=
  if (i <? 0)%Z then None else l !! Z.to_nat i.

(** [last.cells.forEach(cell=>{ board[cell.r][cell.c] = null; })]: the board
    reached, and whether every row existed (otherwise a TypeError escapes
    at the first missing row). *)
Definition clearCells (bd : Board) (xs : list PCell) : Board * bool :=
  foldl (λ (acc : Board * bool) x,
           let '(bd, ok) := acc in
           if ok then
             match bd !! cr x with
             | Some _ => (set2 bd (cr x) (cc x) None, true)
             | None => (bd, false)
             end
           else (bd, false)) (bd, true) xs.

Definition undo (st : State) : Outcome :=
  match last (history st) with
  | None => Ok st [MsgNothingToUndo]
  | Some l =>
      let '(bd, ok) := clearCells (board st) (cells (hcells l)) in
      let popped pl pc :=
        {| solutionTiles := solutionTiles st; pool := pl; placed := pc;
           selectedDominoId := selectedDominoId st;
           selectionClicks := selectionClicks st;
           board := bd; history := removelast (history st) |} in
      if ok then
        match lookupZ (solutionTiles st) (hdominoId l) with
        | Some sol =>
            let domObj := {| id := hdominoId l; a := cvalue (cell0 sol);
                             b := cvalue (cell1 sol) |} in
            Ok (popped (pool st ++ [domObj])
                       (filter (λ p, pid p ≠ hdominoId l) (placed st)))
               [MsgUndid]
        | None => Throw (popped (pool st) (placed st))
        end
      else Throw (popped (pool st) (placed st))
  end.

(** [initPuzzle()]: the new state, the block targets handed to [renderAll],
    and the rest of the random stream. *)
Definition initPuzzle (fuel : nat) (g : Rng) : Res (State * list Z * Rng) :=
  match generateRandomTilingWithValues fuel g with
  | Ret (tiling, g1) =>
      match computeBlockTargetsFromTiles tiling with
      | None => Raised
      | Some blockTargets =>
          let '(pool0, g2) :=
            shuffleArray
              (imap (λ i t, {| id := Z.of_nat i; a := cvalue (cell0 t);
                               b := cvalue (cell1 t) |}) tiling) g1 in
          Ret ({| solutionTiles := tiling; pool := pool0; placed := [];
                  selectedDominoId := None; selectionClicks := [];
                  board := createEmptyBoard; history := [] |},
               blockTargets, g2)
      end
  | Raised => Raised
  | OutOfFuel => OutOfFuel
  end.

Definition restart (fuel : nat) (g : Rng) : Res (State * list Z * Rng) :=
  initPuzzle fuel g.

(** * Specification vocabulary *)

(** ** Tilings *)

Definition cellPos (x : PCell) : nat * nat := (cr x, cc x).

(** The coordinates covered by a list of tiles, tile by tile. *)
Definition positions (ts : list Tile) : list (nat * nat) :=
  map cellPos (concat (map cells ts)).

Definition inGrid (p : nat * nat) : Prop := p.1 < SIZE ∧ p.2 < SIZE.

(** The second cell is the right or the down neighbour of the first. *)
Definition tileAdjacent (t : Tile) : Prop :=
  (cr (cell1 t) = cr (cell0 t) ∧ cc (cell1 t) = cc (cell0 t) + 1) ∨
  (cr (cell1 t) = cr (cell0 t) + 1 ∧ cc (cell1 t) = cc (cell0 t)).

Definition pipsInRange (t : Tile) : Prop :=
  (1 ≤ cvalue (cell0 t) ≤ 6)%Z ∧ (1 ≤ cvalue (cell1 t) ≤ 6)%Z.

Definition goodTile (t : Tile) : Prop :=
  inGrid (cellPos (cell0 t)) ∧ inGrid (cellPos (cell1 t)) ∧
  tileAdjacent t ∧ pipsInRange t.

(** Eight tiles whose sixteen cells are the sixteen cells of the grid, each
    exactly once. *)
Definition validTiling (ts : list Tile) : Prop :=
  length ts = 8 ∧ positions ts ≡ₚ all_cells ∧
  Forall tileAdjacent ts ∧ Forall pipsInRange ts.

(** The invariant of the backtracking search: [cells] marks exactly the
    cells of the tiles found so far. *)
Definition genInv (g : list (list bool)) (ts : list Tile) : Prop :=
  shape g ∧ NoDup (positions ts) ∧ Forall goodTile ts ∧
  ∀ p, inGrid p → (isEmptyAt g p = false ↔ p ∈ positions ts).

Definition isDir (d : Dir) : Prop :=
  (dr d = 0 ∧ dc d = 1) ∨ (dr d = 1 ∧ dc d = 0).

Definition emptyGen (g : Rng) : GenState :=
  {| g_cells := replicate SIZE (replicate SIZE false); g_tiles := []; g_rng := g |}.

(** One direction of the search tree of [tryPlace] at position [(r,c)]. *)
Definition searchBranch (rec : list (list bool) → option bool)
    (g : list (list bool)) (r c : nat) (d : Dir) : option bool :=
  let nr := r + dr d in
  let nc := c + dc d in
  if (nr <? SIZE) && (nc <? SIZE) && isEmptyAt g (nr, nc)
  then rec (set2 (set2 g r c true) nr nc true)
  else Some false.

(** The search tree of [tryPlace] explored in full, in the fixed order
    right, down: [Some b] when the whole tree fits in [fuel] levels. *)
Fixpoint search (fuel : nat) (g : list (list bool)) : option bool :=
  match fuel with
  | 0 => None
  | S fuel' =>
      match findFirstEmpty g with
      | None => Some true
      | Some (r, c) =>
          match searchBranch (search fuel') g r c {| dr := 0; dc := 1 |},
                searchBranch (search fuel') g r c {| dr := 1; dc := 0 |} with
          | Some x, Some y => Some (x || y)
          | _, _ => None
          end
      end
  end.

(** [rec] (a call of [tryPlace]) agrees with [srec] (the full search). *)
Definition follows (rec : GenState → option (bool * GenState))
    (srec : list (list bool) → option bool) : Prop :=
  ∀ g b, shape g → srec g = Some b →
    ∀ ts rng, ∃ st',
      rec {| g_cells := g; g_tiles := ts; g_rng := rng |} = Some (b, st') ∧
      (b = false → g_cells st' = g ∧ g_tiles st' = ts).

(** What a call of [tryPlace] that returns guarantees: on [true] the array
    is full and the invariant holds, on [false] [cells] and [tiles] are as
    they were at the call. *)
Definition tryPlacePost (st : GenState) (r : bool * GenState) : Prop :=
  if r.1 then genInv (g_cells r.2) (g_tiles r.2) ∧ findFirstEmpty (g_cells r.2) = None
  else g_cells r.2 = g_cells st ∧ g_tiles r.2 = g_tiles st.

Definition recSpec (rec : GenState → option (bool * GenState)) : Prop :=
  ∀ st res, genInv (g_cells st) (g_tiles st) → rec st = Some res → tryPlacePost st res.


(** A sample random stream: [Math.random()] returns 1/2 every time. *)
Definition halfRng : Rng := λ _, {| u_val := 1 # 2; u_ok := eq_refl |}.


Definition mkTile (r0 c0 : nat) (v0 : Z) (r1 c1 : nat) (v1 : Z) : Tile :=
  {| cell0 := {| cr := r0; cc := c0; cvalue := v0 |};
     cell1 := {| cr := r1; cc := c1; cvalue := v1 |} |}.

(** The tiling found under [halfRng]: no shuffle ever swaps, every pip is 4. *)
Definition halfTiling : list Tile :=
  [ mkTile 0 0 4 0 1 4; mkTile 0 2 4 0 3 4;
    mkTile 1 0 4 1 1 4; mkTile 1 2 4 1 3 4;
    mkTile 2 0 4 2 1 4; mkTile 2 2 4 2 3 4;
    mkTile 3 0 4 3 1 4; mkTile 3 2 4 3 3 4 ].

(** [k/12] for [k < 12]. *)
Definition twelfth (k : nat) : Unit01 :=
  match k with
  | 0 => {| u_val := 0 # 12; u_ok := eq_refl |}
  | 1 => {| u_val := 1 # 12; u_ok := eq_refl |}
  | 2 => {| u_val := 2 # 12; u_ok := eq_refl |}
  | 3 => {| u_val := 3 # 12; u_ok := eq_refl |}
  | 4 => {| u_val := 4 # 12; u_ok := eq_refl |}
  | 5 => {| u_val := 5 # 12; u_ok := eq_refl |}
  | 6 => {| u_val := 6 # 12; u_ok := eq_refl |}
  | 7 => {| u_val := 7 # 12; u_ok := eq_refl |}
  | 8 => {| u_val := 8 # 12; u_ok := eq_refl |}
  | 9 => {| u_val := 9 # 12; u_ok := eq_refl |}
  | 10 => {| u_val := 10 # 12; u_ok := eq_refl |}
  | _ => {| u_val := 11 # 12; u_ok := eq_refl |}
  end.

(** A second sample stream, with varied draws. *)
Definition sampleRng : Rng :=
  λ n, twelfth (match n with
                | 0 => 7 | 1 => 2 | 2 => 10 | 4 => 5 | 5 => 9
                | _ => (7 * n + 3) mod 12
                end).


(** ** Sums *)

Definition sumZ (l : list Z) : Z := foldr Z.add 0%Z l.

(** The sum of all pip values of a tiling. *)
Definition pipSum (ts : list Tile) : Z := sumZ (map cvalue (concat (map cells ts))).

(** The sum of a board of numbers over the whole grid. *)
Definition total (b : list (list (option Z))) : Z := sumZ (map (numAt b) all_cells).


(** The tiling and the puzzle that [initPuzzle] builds under [sampleRng]. *)
Definition sampleTiling : list Tile :=
  [ mkTile 0 0 2 0 1 6; mkTile 0 2 3 1 2 5;
    mkTile 0 3 3 1 3 6; mkTile 1 0 1 1 1 5;
    mkTile 2 0 6 3 0 3; mkTile 2 1 4 3 1 2;
    mkTile 2 2 3 2 3 6; mkTile 3 2 1 3 3 5 ].

Definition mkDomino (i x y : Z) : Domino := {| id := i; a := x; b := y |}.

Definition samplePuzzle : State :=
  {| solutionTiles := sampleTiling;
     pool := [ mkDomino 3 1 5; mkDomino 1 3 5; mkDomino 4 6 3; mkDomino 6 3 6;
               mkDomino 0 2 6; mkDomino 7 1 5; mkDomino 5 4 2; mkDomino 2 3 6 ];
     placed := []; selectedDominoId := None; selectionClicks := [];
     board := createEmptyBoard; history := [] |}.

(** The tiles and the state of a result of the generator or of [initPuzzle],
    without the rest of the random stream. *)
Definition generatedTiles (fuel : nat) (g : Rng) : option (list Tile) :=
  match generateRandomTilingWithValues fuel g with
  | Ret x => Some x.1
  | _ => None
  end.

Definition initState (fuel : nat) (g : Rng) : option State :=
  match initPuzzle fuel g with
  | Ret x => Some x.1.1
  | _ => None
  end.

(** ** Completion *)

(** The pip value shown in a board cell (0 for an empty cell). *)
Definition boardValue (bd : Board) (p : nat * nat) : Z :=
  match get2 bd p.1 p.2 with
  | Some (Some e) => value e
  | _ => 0%Z
  end.

(** The sum of the four board values of a block. *)
Definition playerSum (bd : Board) (bl : Block) : Z :=
  sumZ (map (boardValue bd) (blockCells bl)).

Definition boardFull (bd : Board) : Prop :=
  ∀ r c, r < SIZE → c < SIZE → ∃ e, get2 bd r c = Some (Some e).

(** Block number [i] (counted from 0) of the player's board misses its
    target. *)
Definition blockWrong (bd : Board) (targets : list Z) (i : nat) : Prop :=
  ∃ bl t, BLOCKS !! i = Some bl ∧ targets !! i = Some t ∧ playerSum bd bl ≠ t.

Definition be (v d : Z) : option BoardEntry := Some {| value := v; dominoId := d |}.

(** [samplePuzzle] with every domino laid where the solution has it. *)
Definition solvedState : State :=
  {| solutionTiles := sampleTiling; pool := [];
     placed := imap (λ i t, {| pid := Z.of_nat i; pcells := t |}) sampleTiling;
     selectedDominoId := None; selectionClicks := [];
     board := [ [be 2 0; be 6 0; be 3 1; be 3 2];
                [be 1 3; be 5 3; be 5 1; be 6 2];
                [be 6 4; be 4 5; be 3 6; be 6 6];
                [be 3 4; be 2 5; be 1 7; be 5 7] ];
     history := imap (λ i t, {| action := APlace; hdominoId := Z.of_nat i;
                                hcells := t |}) sampleTiling |}.


(** Every block of the player's board has the sum its target asks for. *)
Definition allMatch (bd : Board) (targets : list Z) : Prop :=
  ∀ i bl t, BLOCKS !! i = Some bl → targets !! i = Some t → playerSum bd bl = t.


(** ** Puzzle states *)

Definition pos0 (t : Tile) : nat * nat := cellPos (cell0 t).
Definition pos1 (t : Tile) : nat * nat := cellPos (cell1 t).

(** What the board shows for the two cells of a placement. *)
Definition entry0 (p : Placement) : BoardEntry :=
  {| value := cvalue (cell0 (pcells p)); dominoId := pid p |}.
Definition entry1 (p : Placement) : BoardEntry :=
  {| value := cvalue (cell1 (pcells p)); dominoId := pid p |}.

(** The well-formedness every state of a running puzzle has. *)
Record wf (st : State) : Prop := {
  wf_tiles : validTiling (solutionTiles st);
  wf_shape : shape (board st);
  wf_ids : map id (pool st) ++ map pid (placed st)
           ≡ₚ map Z.of_nat (seq 0 (length (solutionTiles st)));
  wf_pool : ∀ d, d ∈ pool st →
      ∃ t, lookupZ (solutionTiles st) (id d) = Some t ∧
           a d = cvalue (cell0 t) ∧ b d = cvalue (cell1 t);
  wf_hist : map (λ h, (hdominoId h, hcells h)) (history st)
            = map (λ p, (pid p, pcells p)) (placed st);
  wf_placed : ∀ p, p ∈ placed st →
      inGrid (pos0 (pcells p)) ∧ inGrid (pos1 (pcells p)) ∧
      areAdjacent (pos0 (pcells p)) (pos1 (pcells p)) = true ∧
      get2 (board st) (pos0 (pcells p)).1 (pos0 (pcells p)).2 = Some (Some (entry0 p)) ∧
      get2 (board st) (pos1 (pcells p)).1 (pos1 (pcells p)).2 = Some (Some (entry1 p));
  wf_board : ∀ r c e, get2 (board st) r c = Some (Some e) →
      ∃ p, p ∈ placed st ∧ pid p = dominoId e ∧
           ((r, c) = pos0 (pcells p) ∨ (r, c) = pos1 (pcells p));
  wf_clicks : ∀ q, q ∈ selectionClicks st →
      selectionClicks st = [q] ∧ inGrid q ∧
      get2 (board st) q.1 q.2 = Some None ∧
      noSelection (selectedDominoId st) = false
}.

(** The states a puzzle can be in: those [initPuzzle] builds, and those the
    handlers lead to from them (clicks come from the rendered cells). *)
Inductive reachable : State → Prop :=
| reach_init fuel g st :
    initState fuel g = Some st → reachable st
| reach_select st i :
    reachable st → reachable (outcome_state (onSelectDomino i st))
| reach_click st r c :
    reachable st → r < SIZE → c < SIZE →
    reachable (outcome_state (onCellClick r c st))
| reach_undo st :
    reachable st → reachable (outcome_state (undo st))
| reach_restart st fuel g st' :
    reachable st → initState fuel g = Some st' → reachable st'.

(** The state after a successful placement of [dom] on [pa] then [pb]. *)
Definition placedTile (dom : Domino) (pa pb : nat * nat) : Tile :=
  {| cell0 := {| cr := pa.1; cc := pa.2; cvalue := a dom |};
     cell1 := {| cr := pb.1; cc := pb.2; cvalue := b dom |} |}.

Definition place (st : State) (dom : Domino) (pa pb : nat * nat) : State :=
  {| solutionTiles := solutionTiles st;
     pool := filter (λ x, id x ≠ id dom) (pool st);
     placed := placed st ++ [{| pid := id dom; pcells := placedTile dom pa pb |}];
     selectedDominoId := None;
     selectionClicks := [];
     board := set2 (set2 (board st) pa.1 pa.2
                      (Some {| value := a dom; dominoId := id dom |}))
                   pb.1 pb.2 (Some {| value := b dom; dominoId := id dom |});
     history := history st ++
       [{| action := APlace; hdominoId := id dom; hcells := placedTile dom pa pb |}] |}.


(** [samplePuzzle] after domino 1 (3|5) was selected and the cell (1,1)
    clicked. *)
Definition afterSelect : State := outcome_state (onSelectDomino 1 samplePuzzle).
Definition afterFirstClick : State := outcome_state (onCellClick 1 1 afterSelect).


(** The state after [undo] took back the placement [p] of the domino whose
    solution tile is [t], leaving placements [pl] and history [h]. *)
Definition unplace (st : State) (p : Placement) (t : Tile)
    (pl : list Placement) (h : list HistEntry) : State :=
  {| solutionTiles := solutionTiles st;
     pool := pool st ++ [{| id := pid p; a := cvalue (cell0 t); b := cvalue (cell1 t) |}];
     placed := pl;
     selectedDominoId := selectedDominoId st;
     selectionClicks := selectionClicks st;
     board := set2 (set2 (board st) (pos0 (pcells p)).1 (pos0 (pcells p)).2 None)
                   (pos1 (pcells p)).1 (pos1 (pcells p)).2 None;
     history := h |}.


(** [samplePuzzle] after domino 1 was laid on (1,1),(1,2), and after that
    placement was undone. *)
Definition afterPlacement : State := outcome_state (onCellClick 1 2 afterFirstClick).
Definition afterUndo : State := outcome_state (undo afterPlacement).

(** The two cells differ by exactly 1 in exactly one coordinate. *)
Definition gridAdjacent (x y : nat * nat) : Prop :=
  (x.1 = y.1 ∧ (x.2 = y.2 + 1 ∨ y.2 = x.2 + 1)) ∨
  (x.2 = y.2 ∧ (x.1 = y.1 + 1 ∨ y.1 = x.1 + 1)).

(** The placement [p] covers the cell [x]. *)
Definition covers (p : Placement) (x : nat * nat) : Prop :=
  x = pos0 (pcells p) ∨ x = pos1 (pcells p).


(** ** Vocabulary for further properties *)

(** [p] comes before [q] in the order of the loops of [findFirstEmpty]. *)
Definition rowMajorBefore (p q : nat * nat) : Prop :=
  p.1 < q.1 ∨ (p.1 = q.1 ∧ p.2 < q.2).


(** The cells of a tiling that lie in a block. *)
Definition cellsIn (bl : Block) (ts : list Tile) : list PCell :=
  filter (λ x, cellPos x ∈ blockCells bl) (concat (map cells ts)).

(** The pool [initPuzzle] builds from a tiling, before shuffling. *)
Definition dominoesOf (ts : list Tile) : list Domino :=
  imap (λ i t, {| id := Z.of_nat i; a := cvalue (cell0 t); b := cvalue (cell1 t) |}) ts.


(** Every placement carries the pip values of its domino's solution tile,
    first cell to first clicked cell. *)
Definition placedMatches (st : State) : Prop :=
  ∀ p, p ∈ placed st →
    ∃ t, lookupZ (solutionTiles st) (pid p) = Some t ∧
         cvalue (cell0 (pcells p)) = cvalue (cell0 t) ∧
         cvalue (cell1 (pcells p)) = cvalue (cell1 t).

(** Some board cell shows domino [i]. *)
Definition onBoard (st : State) (i : Z) : Prop :=
  ∃ r c e, get2 (board st) r c = Some (Some e) ∧ dominoId e = i.

(** [undo()] called [n] times in a row. *)
Fixpoint undoN (n : nat) (st : State) : State :=
  match n with
  | 0 => st
  | S k => undoN k (outcome_state (undo st))
  end.


(** The board of numbers [computeBlockTargetsFromTiles] builds for
    [sampleTiling]. *)
Definition sampleNumbers : list (list (option Z)) :=
  [ [Some 2; Some 6; Some 3; Some 3];
    [Some 1; Some 5; Some 5; Some 6];
    [Some 6; Some 4; Some 3; Some 6];
    [Some 3; Some 2; Some 1; Some 5] ]%Z.


(** The first cells of the tiles are in row-major order, and every grid
    cell before the first cell of a tile is occupied. *)
Definition firstsInv (g : list (list bool)) (ts : list Tile) : Prop :=
  StronglySorted rowMajorBefore (map pos0 ts) ∧
  ∀ t q, t ∈ ts → inGrid q → rowMajorBefore q (pos0 t) → isEmptyAt g q = false.

(** What a successful call of [tryPlace] keeps of [firstsInv]. *)
Definition sortedSpec (rec : GenState → option (bool * GenState)) : Prop :=
  ∀ st res, genInv (g_cells st) (g_tiles st) → firstsInv (g_cells st) (g_tiles st) →
            rec st = Some res → res.1 = true →
            StronglySorted rowMajorBefore (map pos0 (g_tiles res.2)).


(** [solvedState] with a 3 instead of the 2 in the top-left cell and a 2
    instead of the 1 in the cell (3,2). *)
Definition misfilledState : State :=
  {| solutionTiles := solutionTiles solvedState; pool := pool solvedState;
     placed := placed solvedState;
     selectedDominoId := None; selectionClicks := [];
     board := [ [be 3 0; be 6 0; be 3 1; be 3 2];
                [be 1 3; be 5 3; be 5 1; be 6 2];
                [be 6 4; be 4 5; be 3 6; be 6 6];
                [be 3 4; be 2 5; be 2 7; be 5 7] ];
     history := history solvedState |}.


(** A third sample stream: the first tile gets the pips 3 and 5. *)
Definition zeroRng : Rng :=
  λ n, twelfth (match n with
                | 0 => 7 | 1 => 5 | 2 => 9
                | _ => (7 * n + 3) mod 12
                end).


(** The puzzle [initPuzzle] builds under [zeroRng]: its domino 0 is 3|5. *)
Definition zeroPuzzle : State :=
  {| solutionTiles :=
       [ mkTile 0 0 3 0 1 5; mkTile 0 2 4 1 2 2;
         mkTile 0 3 3 1 3 6; mkTile 1 0 1 1 1 5;
         mkTile 2 0 6 3 0 3; mkTile 2 1 4 3 1 2;
         mkTile 2 2 3 2 3 6; mkTile 3 2 1 3 3 5 ];
     pool := [ mkDomino 3 1 5; mkDomino 1 4 2; mkDomino 4 6 3; mkDomino 6 3 6;
               mkDomino 0 3 5; mkDomino 7 1 5; mkDomino 5 4 2; mkDomino 2 3 6 ];
     placed := []; selectedDominoId := None; selectionClicks := [];
     board := createEmptyBoard; history := [] |}.


(** A search state that cannot be completed: six tiles are laid, the cells
    (0,0) and (0,1) are free, and so are (1,2) and (3,3), each walled in. *)
Definition stuckGen : GenState :=
  {| g_cells := [ [false; false; true; true];
                  [true; true; false; true];
                  [true; true; true; true];
                  [true; true; true; false] ];
     g_tiles := [ mkTile 0 2 1 0 3 2; mkTile 1 0 3 1 1 4; mkTile 1 3 5 2 3 6;
                  mkTile 2 0 1 3 0 2; mkTile 2 1 3 3 1 4; mkTile 2 2 5 3 2 6 ];
     g_rng := halfRng |}.

(** * Properties *)

(** ** Two-dimensional arrays *)

Section GridFacts.
Context {A : Type}.
Implicit Types (g : list (list A)) (r c : nat) (v : A).

Lemma get2_lt g r c x : shape g → get2 g r c = Some x → r < SIZE ∧ c < SIZE.
Proof.
  intros [Hl Hr]. unfold get2. destruct (g !! r) as [row|] eqn:E; [|done].
  intros Hc. split.
  - rewrite <- Hl. by eapply lookup_lt_Some.
  - rewrite Forall_forall in Hr.
    rewrite <- (Hr row); [by eapply lookup_lt_Some|].
    by eapply list_elem_of_lookup_2.
Qed.

Lemma get2_is_Some g r c : shape g → r < SIZE → c < SIZE → is_Some (get2 g r c).
Proof.
  intros [Hl Hr] Hlr Hlc. unfold get2.
  destruct (lookup_lt_is_Some_2 g r) as [row E]; [lia|]. rewrite E.
  apply lookup_lt_is_Some_2. rewrite Forall_forall in Hr.
  rewrite (Hr row); [done|]. by eapply list_elem_of_lookup_2.
Qed.

Lemma shape_set2 g r c v : shape g → shape (set2 g r c v).
Proof.
  intros [Hl Hr]. unfold set2. destruct (g !! r) as [row|] eqn:E; [|done].
  split; [by rewrite length_insert|].
  apply Forall_insert; [done|]. rewrite length_insert.
  rewrite Forall_forall in Hr. eapply Hr, list_elem_of_lookup_2; eauto.
Qed.

Lemma get2_set2_eq g r c v : is_Some (get2 g r c) → get2 (set2 g r c v) r c = Some v.
Proof.
  unfold get2, set2. destruct (g !! r) as [row|] eqn:E; [|by intros [? ?]].
  intros Hc. rewrite list_lookup_insert_eq by (by eapply lookup_lt_Some).
  apply list_lookup_insert_eq. by apply lookup_lt_is_Some_1.
Qed.

Lemma get2_set2_ne g r c v r' c' :
  (r, c) ≠ (r', c') → get2 (set2 g r c v) r' c' = get2 g r' c'.
Proof.
  intros Hne. unfold get2, set2. destruct (g !! r) as [row|] eqn:E; [|done].
  destruct (decide (r = r')) as [->|Hr].
  - rewrite list_lookup_insert_eq by (by eapply lookup_lt_Some). rewrite E.
    apply list_lookup_insert_ne. congruence.
  - by rewrite list_lookup_insert_ne.
Qed.

Lemma get2_set2 g r c v r' c' :
  is_Some (get2 g r c) →
  get2 (set2 g r c v) r' c' = if decide ((r, c) = (r', c')) then Some v else get2 g r' c'.
Proof.
  intros Hs. case_decide as E.
  - inversion E; subst. by apply get2_set2_eq.
  - by apply get2_set2_ne.
Qed.

Lemma grid_ext g1 g2 :
  shape g1 → shape g2 →
  (∀ r c, r < SIZE → c < SIZE → get2 g1 r c = get2 g2 r c) → g1 = g2.
Proof.
  intros [Hl1 Hr1] [Hl2 Hr2] Heq. apply list_eq. intros r.
  destruct (decide (r < SIZE)) as [Hr|Hr].
  - destruct (lookup_lt_is_Some_2 g1 r) as [row1 E1]; [lia|].
    destruct (lookup_lt_is_Some_2 g2 r) as [row2 E2]; [lia|].
    rewrite E1, E2. f_equal. apply list_eq. intros c.
    rewrite Forall_forall in Hr1, Hr2.
    assert (length row1 = SIZE)
      by (eapply Hr1, list_elem_of_lookup_2; eauto).
    assert (length row2 = SIZE)
      by (eapply Hr2, list_elem_of_lookup_2; eauto).
    destruct (decide (c < SIZE)) as [Hc|Hc].
    + specialize (Heq r c Hr Hc). unfold get2 in Heq. by rewrite E1, E2 in Heq.
    + rewrite !lookup_ge_None_2 by lia. done.
  - rewrite !lookup_ge_None_2 by lia. done.
Qed.

Lemma shape_make v : shape (make v).
Proof.
  split; [apply length_replicate|].
  apply Forall_replicate, length_replicate.
Qed.

Lemma get2_make v r c : r < SIZE → c < SIZE → get2 (make v) r c = Some v.
Proof.
  intros Hr Hc. unfold get2, make.
  rewrite lookup_replicate_2 by done. by apply lookup_replicate_2.
Qed.
End GridFacts.

Lemma all_cells_spec p : p ∈ all_cells ↔ p.1 < SIZE ∧ p.2 < SIZE.
Proof.
  destruct p as [r c]. simpl. split.
  - intros H. apply list_elem_of_In in H. vm_compute in H.
    repeat (destruct H as [H|H]; [inversion H; subst; vm_compute; lia|]). done.
  - intros [Hr Hc]. unfold SIZE in *.
    do 4 (destruct r as [|r]; [do 4 (destruct c as [|c]; [apply list_elem_of_In; vm_compute; tauto|]); lia|]).
    lia.
Qed.

Lemma NoDup_all_cells : NoDup all_cells.
Proof. apply (bool_decide_unpack (NoDup all_cells)). vm_compute. exact I. Qed.

(** ** Randomness *)

Lemma random_unit (g : Rng) : (0 <= (random g).1)%Q ∧ ((random g).1 < 1)%Q.
Proof.
  unfold random; simpl. pose proof (u_ok (g 0)) as H.
  apply andb_prop in H as [H0 H1]. split.
  - by apply Qle_bool_iff.
  - apply Qnot_le_lt. intros Hle. apply Qle_bool_iff in Hle.
    rewrite Hle in H1. discriminate.
Qed.

Lemma randBelow_range n g : (0 < n)%Z → (0 ≤ (randBelow n g).1 < n)%Z.
Proof.
  intros Hn. unfold randBelow. destruct (random_unit g) as [H0 H1].
  destruct (random g) as [x g']. cbn [fst] in *.
  assert (Hq : (inject_Z 0 < inject_Z n)%Q) by (by rewrite <- Zlt_Qlt).
  change (inject_Z 0) with 0%Q in Hq.
  split.
  - rewrite <- (Qfloor_Z 0).
    apply Qfloor_resp_le. change (inject_Z 0) with 0%Q.
    apply Qmult_le_0_compat; [done|]. by apply Qlt_le_weak.
  - rewrite Zlt_Qlt. eapply Qle_lt_trans; [apply Qfloor_le|].
    eapply Qlt_le_trans; [apply Qmult_lt_compat_r; eassumption|].
    rewrite Qmult_1_l. apply Qle_refl.
Qed.

Lemma randInt_range lo hi g : (lo ≤ hi)%Z → (lo ≤ (randInt lo hi g).1 ≤ hi)%Z.
Proof.
  intros Hle. unfold randInt.
  pose proof (randBelow_range (hi - lo + 1) g) as H.
  destruct (randBelow (hi - lo + 1) g) as [k g']. simpl in *. lia.
Qed.

Lemma shuffle_two {A} (x y : A) g :
  (shuffleArray [x; y] g).1 = [x; y] ∨ (shuffleArray [x; y] g).1 = [y; x].
Proof.
  unfold shuffleArray. cbn [length Nat.sub shuffleFrom].
  change (Z.of_nat 1 + 1)%Z with 2%Z.
  pose proof (randBelow_range 2 g) as H.
  destruct (randBelow 2 g) as [j g']. cbn [fst] in *.
  assert (j = 0 ∨ j = 1)%Z as [-> | ->] by lia; [right|left]; reflexivity.
Qed.

(** ** Tiling generator *)

Lemma shape_cases {A} (g : list (list A)) :
  shape g →
  ∃ a0 a1 a2 a3 b0 b1 b2 b3 c0 c1 c2 c3 d0 d1 d2 d3,
    g = [[a0; a1; a2; a3]; [b0; b1; b2; b3]; [c0; c1; c2; c3]; [d0; d1; d2; d3]].
Proof.
  intros [Hl Hr]. unfold SIZE in *.
  destruct g as [|r0 [|r1 [|r2 [|r3 [|]]]]]; try discriminate.
  rewrite !Forall_cons in Hr. destruct Hr as (H0 & H1 & H2 & H3 & _).
  destruct r0 as [|? [|? [|? [|? [|]]]]]; try discriminate.
  destruct r1 as [|? [|? [|? [|? [|]]]]]; try discriminate.
  destruct r2 as [|? [|? [|? [|? [|]]]]]; try discriminate.
  destruct r3 as [|? [|? [|? [|? [|]]]]]; try discriminate.
  by repeat eexists.
Qed.

Lemma resetCells_shape g : shape g → resetCells g = make false.
Proof.
  intros H. destruct (shape_cases g H) as (?&?&?&?&?&?&?&?&?&?&?&?&?&?&?&?&->).
  reflexivity.
Qed.

Lemma isEmptyAt_get g p :
  shape g → inGrid p → get2 g p.1 p.2 = Some (negb (isEmptyAt g p)).
Proof.
  intros Hs [Hr Hc]. unfold isEmptyAt.
  destruct (get2_is_Some g p.1 p.2 Hs Hr Hc) as [[] ->]; done.
Qed.

Lemma isEmptyAt_set2 g r c v p :
  shape g → r < SIZE → c < SIZE →
  isEmptyAt (set2 g r c v) p = if decide ((r, c) = p) then negb v else isEmptyAt g p.
Proof.
  intros Hs Hr Hc. unfold isEmptyAt. destruct p as [r' c']; simpl.
  rewrite get2_set2 by (by apply get2_is_Some).
  case_decide; [by destruct v|done].
Qed.

Lemma findFirstEmpty_Some g p :
  findFirstEmpty g = Some p → inGrid p ∧ isEmptyAt g p = true.
Proof.
  unfold findFirstEmpty. intros H. apply find_some in H as [Hin He].
  split; [|done]. by apply all_cells_spec, list_elem_of_In.
Qed.

Lemma findFirstEmpty_None g p :
  findFirstEmpty g = None → inGrid p → isEmptyAt g p = false.
Proof.
  unfold findFirstEmpty. intros H Hp.
  eapply find_none in H; [done|]. by apply list_elem_of_In, all_cells_spec.
Qed.

(** Placing and withdrawing a domino on two empty cells restores [cells]. *)
Lemma backtrack_restore g p q :
  shape g → inGrid p → inGrid q →
  isEmptyAt g p = true → isEmptyAt g q = true →
  set2 (set2 (set2 (set2 g p.1 p.2 true) q.1 q.2 true) p.1 p.2 false) q.1 q.2 false = g.
Proof.
  intros Hs [Hp1 Hp2] [Hq1 Hq2] Ep Eq.
  apply grid_ext; [by repeat apply shape_set2|done|].
  intros r c Hr Hc.
  change (get2 ?x r c) with (get2 x (r, c).1 (r, c).2).
  rewrite (isEmptyAt_get g (r, c)) by done.
  rewrite (isEmptyAt_get _ (r, c)) by (by repeat apply shape_set2).
  do 2 f_equal.
  rewrite !isEmptyAt_set2 by (by repeat apply shape_set2).
  destruct p, q; simpl in *. repeat case_decide; simplify_eq; done.
Qed.

Lemma positions_snoc ts t :
  positions (ts ++ [t]) = positions ts ++ [cellPos (cell0 t); cellPos (cell1 t)].
Proof.
  unfold positions. rewrite map_app, concat_app, map_app. simpl. done.
Qed.

Lemma genInv_place g ts r c d v1 v2 :
  genInv g ts → inGrid (r, c) → isDir d →
  isEmptyAt g (r, c) = true →
  (r + dr d <? SIZE) && (c + dc d <? SIZE) && isEmptyAt g (r + dr d, c + dc d) = true →
  (1 ≤ v1 ≤ 6)%Z → (1 ≤ v2 ≤ 6)%Z →
  genInv (set2 (set2 g r c true) (r + dr d) (c + dc d) true)
         (ts ++ [{| cell0 := {| cr := r; cc := c; cvalue := v1 |};
                    cell1 := {| cr := r + dr d; cc := c + dc d; cvalue := v2 |} |}]).
Proof.
  intros (Hs & Hnd & Hgood & Hcov) [Hr Hc] Hd He Hfeas Hv1 Hv2. simpl in Hr, Hc.
  apply andb_prop in Hfeas as [Hb He'].
  apply andb_prop in Hb as [Hnr Hnc].
  apply Nat.ltb_lt in Hnr, Hnc.
  assert (Hne : (r, c) ≠ (r + dr d, c + dc d)).
  { intros E. inversion E. destruct Hd as [[? ?]|[? ?]]; lia. }
  assert (Hp : (r, c) ∉ positions ts).
  { intros Hin. apply Hcov in Hin; [congruence|done]. }
  assert (Hq : (r + dr d, c + dc d) ∉ positions ts).
  { intros Hin. apply Hcov in Hin; [congruence|done]. }
  split; [by repeat apply shape_set2|].
  rewrite positions_snoc. unfold cellPos; simpl.
  split; [|split].
  - apply NoDup_app. split; [done|]. split.
    + intros x Hx Hx'. apply list_elem_of_In in Hx'. simpl in Hx'.
      destruct Hx' as [<-|[<-|[]]]; done.
    + apply NoDup_cons. split; [|apply NoDup_singleton].
      rewrite list_elem_of_singleton. done.
  - apply Forall_app. split; [done|]. apply Forall_singleton.
    repeat split; simpl; try lia; try done.
    unfold tileAdjacent; simpl. destruct Hd as [[-> ->]|[-> ->]]; lia.
  - intros p Hp'. rewrite !isEmptyAt_set2 by (by repeat apply shape_set2).
    rewrite elem_of_app, !elem_of_cons, elem_of_nil.
    repeat case_decide; simplify_eq; simpl.
    + intuition congruence.
    + intuition congruence.
    + rewrite Hcov by done. intuition congruence.
Qed.

Lemma tryDirs_spec rec r c :
  recSpec rec → inGrid (r, c) →
  ∀ ds st res,
    Forall isDir ds →
    genInv (g_cells st) (g_tiles st) →
    isEmptyAt (g_cells st) (r, c) = true →
    tryDirs rec r c ds st = Some res →
    tryPlacePost st res.
Proof.
  intros Hrec Hrc ds. induction ds as [|d ds IH]; intros st res Hds Hinv He Hrun.
  - simpl in Hrun. inversion Hrun; subst. by split.
  - apply Forall_cons in Hds as [Hd Hds]. cbn [tryDirs] in Hrun.
    destruct ((r + dr d <? SIZE) && (c + dc d <? SIZE)
              && isEmptyAt (g_cells st) (r + dr d, c + dc d)) eqn:Hfeas.
    + pose proof (randInt_range 1 6 (g_rng st) ltac:(lia)) as Hv1.
      destruct (randInt 1 6 (g_rng st)) as [v1 g1].
      pose proof (randInt_range 1 6 g1 ltac:(lia)) as Hv2.
      destruct (randInt 1 6 g1) as [v2 g2]. cbn [fst] in Hv1, Hv2.
      pose proof (genInv_place _ _ r c d v1 v2 Hinv Hrc Hd He Hfeas Hv1 Hv2) as Hinv1.
      match type of Hrun with
      | context [rec ?s] => destruct (rec s) as [[[] st1]|] eqn:Hcall; [| |done]
      end.
      * inversion Hrun; subst. apply Hrec in Hcall; done.
      * apply Hrec in Hcall; [|done]. destruct Hcall as [Hc1 Ht1]; simpl in Hc1, Ht1.
        apply andb_prop in Hfeas as [Hb He'].
        apply andb_prop in Hb as [Hnr Hnc]. apply Nat.ltb_lt in Hnr, Hnc.
        assert (Hback :
          set2 (set2 (g_cells st1) r c false) (r + dr d) (c + dc d) false = g_cells st).
        { rewrite Hc1.
          apply (backtrack_restore (g_cells st) (r, c) (r + dr d, c + dc d));
            try done. apply Hinv. }
        apply IH in Hrun; try done; simpl.
        -- destruct res as [[] st']; simpl in *; [done|].
           rewrite Hback, Ht1, removelast_last in Hrun. done.
        -- rewrite Hback, Ht1, removelast_last. done.
        -- by rewrite Hback.
    + by apply IH in Hrun.
Qed.

Lemma tryPlace_spec fuel : recSpec (tryPlace fuel).
Proof.
  induction fuel as [|fuel IH]; intros st res Hinv Hrun; [done|].
  cbn [tryPlace] in Hrun.
  destruct (findFirstEmpty (g_cells st)) as [[r c]|] eqn:Hfind.
  - apply findFirstEmpty_Some in Hfind as [Hrc He].
    pose proof (shuffle_two {| dr := 0; dc := 1 |} {| dr := 1; dc := 0 |} (g_rng st)) as Hsh.
    fold DIRS in Hsh.
    destruct (shuffleArray DIRS (g_rng st)) as [dirs g1]. cbn [fst] in Hsh.
    eapply (tryDirs_spec _ r c IH Hrc) in Hrun; try done.
    destruct Hsh as [-> | ->]; repeat constructor; unfold isDir; simpl; lia.
  - inversion Hrun; subst. by split.
Qed.

Lemma genInv_empty : genInv (make false) [].
Proof.
  split; [apply shape_make|]. split; [apply NoDup_nil_2|]. split; [done|].
  intros p [Hr Hc]. unfold isEmptyAt. rewrite get2_make by done.
  split; [done|]. intros H. by apply elem_of_nil in H.
Qed.

Lemma length_positions ts : length (positions ts) = 2 * length ts.
Proof.
  unfold positions. rewrite length_map.
  induction ts as [|t ts IH]; simpl; [done|]. rewrite IH. lia.
Qed.

Lemma positions_inGrid ts p : Forall goodTile ts → p ∈ positions ts → inGrid p.
Proof.
  unfold positions. intros Hgood Hin.
  apply list_elem_of_In, in_map_iff in Hin as (x & <- & Hx).
  apply in_concat in Hx as (l & Hl & Hx).
  apply in_map_iff in Hl as (t & <- & Ht).
  rewrite Forall_forall in Hgood.
  destruct (Hgood t) as (H0 & H1 & _); [by apply list_elem_of_In|].
  destruct Hx as [<-|[<-|[]]]; done.
Qed.

Lemma full_valid g ts : genInv g ts → findFirstEmpty g = None → validTiling ts.
Proof.
  intros (Hs & Hnd & Hgood & Hcov) Hfull.
  assert (Hperm : positions ts ≡ₚ all_cells).
  { apply NoDup_Permutation; [done|apply NoDup_all_cells|].
    intros p. rewrite all_cells_spec. split.
    - by apply positions_inGrid.
    - intros Hp. apply Hcov; [done|]. by apply findFirstEmpty_None. }
  split; [|split; [done|]].
  - apply Permutation_length in Hperm. rewrite length_positions in Hperm.
    change (length all_cells) with 16 in Hperm. lia.
  - split; eapply Forall_impl; try exact Hgood; intros t (_ & _ & Ha & Hp); done.
Qed.

Lemma genLoop_valid fuel k :
  ∀ attempts st tiles g',
    genLoop fuel k attempts st = Ret (tiles, g') → shape (g_cells st) →
    validTiling tiles.
Proof.
  induction k as [|k IH]; intros attempts st tiles g' Hrun Hs; [done|].
  cbn [genLoop] in Hrun. rewrite resetCells_shape in Hrun by done.
  match type of Hrun with
  | context [tryPlace fuel ?s] =>
      destruct (tryPlace fuel s) as [[[] st1]|] eqn:Hcall; [| |done];
      apply tryPlace_spec in Hcall; try apply genInv_empty
  end.
  - destruct Hcall as [Hinv Hfull]. inversion Hrun; subst.
    by eapply full_valid.
  - destruct Hcall as [Hc _]; simpl in Hc.
    destruct (200 <? attempts + 1); [done|].
    eapply IH; [done|]. rewrite Hc. apply shape_make.
Qed.

Lemma tryDirs_follows rec srec g r c :
  follows rec srec → shape g → inGrid (r, c) → isEmptyAt g (r, c) = true →
  ∀ ds bs ts rng,
    Forall2 (λ d b, searchBranch srec g r c d = Some b) ds bs →
    ∃ st',
      tryDirs rec r c ds {| g_cells := g; g_tiles := ts; g_rng := rng |}
        = Some (foldr orb false bs, st') ∧
      (foldr orb false bs = false → g_cells st' = g ∧ g_tiles st' = ts).
Proof.
  intros Hrec Hs Hrc He ds.
  induction ds as [|d ds IH]; intros bs ts rng Hbs.
  - apply Forall2_nil_inv_l in Hbs as ->. simpl. eauto.
  - apply Forall2_cons_inv_l in Hbs as (b0 & bs' & Hb & Hbs & ->).
    unfold searchBranch in Hb. cbn [tryDirs g_cells g_tiles g_rng foldr].
    destruct ((r + dr d <? SIZE) && (c + dc d <? SIZE)
              && isEmptyAt g (r + dr d, c + dc d)) eqn:Hfeas.
    + destruct (randInt 1 6 rng) as [v1 g1]. destruct (randInt 1 6 g1) as [v2 g2].
      edestruct (Hrec _ b0 (shape_set2 _ (r + dr d) (c + dc d) true
                              (shape_set2 g r c true Hs)) Hb) as (st1 & -> & Hst1).
      destruct b0; simpl.
      * eexists; split; [done|done].
      * destruct (Hst1 eq_refl) as [-> ->].
        apply andb_prop in Hfeas as [Hb' He'].
        apply andb_prop in Hb' as [Hnr Hnc]. apply Nat.ltb_lt in Hnr, Hnc.
        rewrite removelast_last.
        pose proof (backtrack_restore g (r, c) (r + dr d, c + dc d)
                      Hs Hrc (conj Hnr Hnc) He He') as Hback.
        cbn [fst snd] in Hback. rewrite Hback.
        by apply IH.
    + inversion Hb; subst; simpl. by apply IH.
Qed.

Lemma tryPlace_follows fuel : follows (tryPlace fuel) (search fuel).
Proof.
  induction fuel as [|fuel IH]; intros g b Hs Hrun ts rng; [done|].
  cbn [search] in Hrun. cbn [tryPlace g_cells g_tiles g_rng].
  destruct (findFirstEmpty g) as [[r c]|] eqn:Hfind.
  - apply findFirstEmpty_Some in Hfind as [Hrc He].
    destruct (searchBranch (search fuel) g r c {| dr := 0; dc := 1 |}) as [x|] eqn:Hx;
      [|done].
    destruct (searchBranch (search fuel) g r c {| dr := 1; dc := 0 |}) as [y|] eqn:Hy;
      [|done].
    inversion Hrun; subst.
    pose proof (shuffle_two {| dr := 0; dc := 1 |} {| dr := 1; dc := 0 |} rng) as Hsh.
    fold DIRS in Hsh.
    destruct (shuffleArray DIRS rng) as [dirs g1]. cbn [fst] in Hsh.
    destruct Hsh as [-> | ->].
    + destruct (tryDirs_follows _ _ g r c IH Hs Hrc He
                  [{| dr := 0; dc := 1 |}; {| dr := 1; dc := 0 |}] [x; y] ts g1)
        as (st' & E & Hf).
      { repeat constructor; done. }
      exists st'. simpl in E, Hf. rewrite orb_false_r in E, Hf. done.
    + destruct (tryDirs_follows _ _ g r c IH Hs Hrc He
                  [{| dr := 1; dc := 0 |}; {| dr := 0; dc := 1 |}] [y; x] ts g1)
        as (st' & E & Hf).
      { repeat constructor; done. }
      exists st'. simpl in E, Hf. rewrite orb_false_r in E, Hf.
      rewrite (orb_comm x y). done.
  - inversion Hrun; subst. eexists; split; [done|done].
Qed.

Lemma search_mono fuel : ∀ g b, search fuel g = Some b → search (S fuel) g = Some b.
Proof.
  induction fuel as [|fuel IH]; intros g b H; [done|].
  change (search (S (S fuel)) g) with
    (match findFirstEmpty g with
     | None => Some true
     | Some (r, c) =>
         match searchBranch (search (S fuel)) g r c {| dr := 0; dc := 1 |},
               searchBranch (search (S fuel)) g r c {| dr := 1; dc := 0 |} with
         | Some x, Some y => Some (x || y)
         | _, _ => None
         end
     end).
  cbn [search] in H. destruct (findFirstEmpty g) as [[r c]|]; [|done].
  unfold searchBranch in *.
  repeat match goal with
         | H : context [if ?b then _ else _] |- _ => destruct b
         end;
    repeat match goal with
           | H : context [match search fuel ?x with _ => _ end] |- _ =>
               let E := fresh "E" in
               destruct (search fuel x) eqn:E; [apply IH in E; rewrite E|]; try done
           end;
    done.
Qed.

Lemma search_empty fuel : 9 ≤ fuel → search fuel (make false) = Some true.
Proof.
  intros H. induction H as [|fuel H IH].
  - vm_compute. reflexivity.
  - by apply search_mono.
Qed.

Lemma tryDirs_mono rec rec' r c :
  (∀ st x, rec st = Some x → rec' st = Some x) →
  ∀ ds st x, tryDirs rec r c ds st = Some x → tryDirs rec' r c ds st = Some x.
Proof.
  intros Hle ds. induction ds as [|d ds IH]; intros st x H; [done|].
  cbn [tryDirs] in *.
  destruct ((r + dr d <? SIZE) && (c + dc d <? SIZE)
            && isEmptyAt (g_cells st) (r + dr d, c + dc d)); [|by apply IH].
  destruct (randInt 1 6 (g_rng st)) as [v1 g1]. destruct (randInt 1 6 g1) as [v2 g2].
  match type of H with
  | context [rec ?s] => destruct (rec s) as [[[] st1]|] eqn:Hcall; [| |done]
  end; rewrite (Hle _ _ Hcall); [done|by apply IH].
Qed.

Lemma tryPlace_mono fuel :
  ∀ st x, tryPlace fuel st = Some x → tryPlace (S fuel) st = Some x.
Proof.
  induction fuel as [|fuel IH]; intros st x H; [done|].
  change (tryPlace (S (S fuel)) st) with
    (match findFirstEmpty (g_cells st) with
     | None => Some (true, st)
     | Some (r, c) =>
         let '(dirs, g1) := shuffleArray DIRS (g_rng st) in
         tryDirs (tryPlace (S fuel)) r c dirs
           {| g_cells := g_cells st; g_tiles := g_tiles st; g_rng := g1 |}
     end).
  cbn [tryPlace] in H.
  destruct (findFirstEmpty (g_cells st)) as [[r c]|]; [|done].
  destruct (shuffleArray DIRS (g_rng st)) as [dirs g1].
  by eapply tryDirs_mono.
Qed.

Lemma tryPlace_mono_le fuel fuel' st x :
  fuel ≤ fuel' → tryPlace fuel st = Some x → tryPlace fuel' st = Some x.
Proof.
  intros Hle H. induction Hle as [|fuel' Hle IH]; [done|]. by apply tryPlace_mono.
Qed.

(** From the empty array the search succeeds, whatever the random stream. *)
Lemma tryPlace_empty fuel ts rng :
  9 ≤ fuel →
  ∃ st', tryPlace fuel {| g_cells := make false; g_tiles := ts; g_rng := rng |}
         = Some (true, st').
Proof.
  intros Hf.
  destruct (tryPlace_follows fuel (make false) true (shape_make false)
              (search_empty fuel Hf) ts rng) as (st' & E & _).
  by exists st'.
Qed.

Lemma tryPlace_empty_not_false fuel ts rng st' :
  tryPlace fuel {| g_cells := make false; g_tiles := ts; g_rng := rng |}
    ≠ Some (false, st').
Proof.
  intros H.
  apply (tryPlace_mono_le fuel (fuel + 9)) in H; [|lia].
  destruct (tryPlace_empty (fuel + 9) ts rng) as (st'' & E); [lia|]. congruence.
Qed.

Lemma genLoop_not_raised fuel k :
  ∀ attempts st, shape (g_cells st) → genLoop fuel k attempts st ≠ Raised.
Proof.
  destruct k as [|k]; intros attempts st Hs; [done|].
  cbn [genLoop]. rewrite resetCells_shape by done.
  match goal with
  | |- context [tryPlace fuel ?s] =>
      destruct (tryPlace fuel s) as [[[] st1]|] eqn:Hcall; [done| |done]
  end.
  by apply tryPlace_empty_not_false in Hcall.
Qed.

Lemma generate_returns fuel g :
  9 ≤ fuel → ∃ res, generateRandomTilingWithValues fuel g = Ret res.
Proof.
  intros Hf. unfold generateRandomTilingWithValues.
  destruct fuel as [|k]; [lia|]. cbn [genLoop g_cells g_tiles g_rng].
  rewrite resetCells_shape by apply (shape_make false).
  destruct (tryPlace_empty (S k) [] g Hf) as (st' & ->). eauto.
Qed.

Lemma generate_valid fuel g res :
  generateRandomTilingWithValues fuel g = Ret res → validTiling res.1.
Proof.
  destruct res as [tiles g']. intros H.
  eapply genLoop_valid; [exact H|]. apply (shape_make false).
Qed.

(** C2. Every tiling returned by [generateRandomTilingWithValues] has
    exactly 8 tiles, its 16 cells are the 16 cells of the 4x4 grid, each
    exactly once, the second cell of every tile is the right or the down
    neighbour of the first, and every pip value lies in [1,6]. *)
Theorem generated_tiling_valid fuel g tiles g' :
  generateRandomTilingWithValues fuel g = Ret (tiles, g') →
  length tiles = 8 ∧
  positions tiles ≡ₚ all_cells ∧
  Forall tileAdjacent tiles ∧
  Forall pipsInRange tiles.
Proof. intros H. apply (generate_valid fuel g (tiles, g') H). Qed.

Lemma generated_tiling_valid_witness :
  generateRandomTilingWithValues 9 halfRng = Ret (halfTiling, halfRng) ∧
  length halfTiling = 8 ∧
  positions halfTiling ≡ₚ all_cells ∧
  Forall tileAdjacent halfTiling ∧
  Forall pipsInRange halfTiling.
Proof.
  split; [vm_compute; reflexivity|].
  apply (generated_tiling_valid 9 halfRng halfTiling halfRng).
  vm_compute; reflexivity.
Defined.

(** C8. For every random stream, one call of [tryPlace] on the all-empty
    array returns [true], with every grid cell marked and [tiles] a valid
    tiling; [generateRandomTilingWithValues] returns that tiling in its
    first attempt, and the branch that throws after more than 200 failed
    attempts is never taken (at any fuel of the model). *)
Theorem generator_never_fails fuel g :
  9 ≤ fuel →
  (∃ st',
     tryPlace fuel (emptyGen g) = Some (true, st') ∧
     (∀ p, inGrid p → isEmptyAt (g_cells st') p = false) ∧
     validTiling (g_tiles st') ∧
     generateRandomTilingWithValues fuel g = Ret (g_tiles st', g_rng st')) ∧
  (∃ tiles g',
     generateRandomTilingWithValues fuel g = Ret (tiles, g') ∧
     validTiling tiles) ∧
  (∀ fuel', generateRandomTilingWithValues fuel' g ≠ Raised).
Proof.
  intros Hf.
  destruct (tryPlace_empty fuel [] g Hf) as (st' & Hrun).
  assert (Hgen : generateRandomTilingWithValues fuel g = Ret (g_tiles st', g_rng st')).
  { unfold generateRandomTilingWithValues.
    destruct fuel as [|k]; [lia|]. cbn [genLoop g_cells g_tiles g_rng].
    rewrite resetCells_shape by apply (shape_make false). by rewrite Hrun. }
  pose proof (tryPlace_spec fuel
                {| g_cells := make false; g_tiles := []; g_rng := g |}
                (true, st') genInv_empty Hrun) as [Hinv Hfull].
  simpl in Hinv, Hfull.
  assert (Hvalid : validTiling (g_tiles st')) by (by eapply full_valid).
  split; [|split].
  - exists st'. split; [exact Hrun|]. split; [|done].
    intros p Hp. by apply findFirstEmpty_None.
  - eauto.
  - intros fuel'. apply genLoop_not_raised. apply (shape_make false).
Qed.

Lemma generator_never_fails_witness :
  (∃ st',
     tryPlace 9 (emptyGen sampleRng) = Some (true, st') ∧
     (∀ p, inGrid p → isEmptyAt (g_cells st') p = false) ∧
     validTiling (g_tiles st') ∧
     generateRandomTilingWithValues 9 sampleRng = Ret (g_tiles st', g_rng st')) ∧
  (∃ tiles g',
     generateRandomTilingWithValues 9 sampleRng = Ret (tiles, g') ∧
     validTiling tiles) ∧
  (∀ fuel', generateRandomTilingWithValues fuel' sampleRng ≠ Raised).
Proof. apply (generator_never_fails 9 sampleRng). lia. Defined.

(** ** Target calculator *)

Lemma total_set2 b r c v :
  shape b → r < SIZE → c < SIZE →
  total (set2 b r c (Some v)) = (total b - numAt b (r, c) + v)%Z.
Proof.
  intros Hs Hr Hc.
  destruct (shape_cases b Hs) as (?&?&?&?&?&?&?&?&?&?&?&?&?&?&?&?&->).
  unfold SIZE in *.
  do 4 (destruct r as [|r]; [do 4 (destruct c as [|c];
    [unfold total, numAt; simpl; lia|]); lia|]).
  lia.
Qed.

Lemma targets_total b :
  shape b → sumZ (map (targetOf b) BLOCKS) = total b.
Proof.
  intros Hs.
  destruct (shape_cases b Hs) as (?&?&?&?&?&?&?&?&?&?&?&?&?&?&?&?&->).
  unfold total, targetOf, numAt. simpl. lia.
Qed.

Lemma writeCells_cons b x xs :
  writeCells b (x :: xs) =
  match writeCell b x with Some b' => writeCells b' xs | None => None end.
Proof.
  unfold writeCells. simpl. destruct (writeCell b x); [done|].
  induction xs; simpl; done.
Qed.

Lemma writeCells_total xs :
  ∀ b, shape b →
    Forall (λ x, inGrid (cellPos x)) xs →
    NoDup (map cellPos xs) →
    (∀ x, x ∈ xs → numAt b (cellPos x) = 0%Z) →
    ∃ b', writeCells b xs = Some b' ∧ shape b' ∧
          total b' = (total b + sumZ (map cvalue xs))%Z.
Proof.
  induction xs as [|x xs IH]; intros b Hs Hin Hnd Hz.
  - exists b. simpl. split; [done|]. split; [done|]. unfold sumZ; simpl; lia.
  - apply Forall_cons in Hin as [[Hr Hc] Hin]. simpl in Hr, Hc.
    simpl in Hnd. apply NoDup_cons in Hnd as [Hx Hnd].
    rewrite writeCells_cons. unfold writeCell.
    destruct (Nat.ltb_spec (cr x) SIZE) as [_|?]; [|lia].
    destruct (IH (set2 b (cr x) (cc x) (Some (cvalue x)))) as (b' & E & Hs' & Ht);
      try done.
    + by apply shape_set2.
    + intros y Hy. unfold numAt.
      rewrite get2_set2_ne; [apply Hz; by right|].
      intros Heq. apply Hx. rewrite list_elem_of_fmap. exists y. done.
    + exists b'. split; [done|]. split; [done|]. rewrite Ht.
      rewrite total_set2 by done.
      change (cr x, cc x) with (cellPos x).
      rewrite (Hz x) by apply list_elem_of_here.
      unfold sumZ; simpl; lia.
Qed.

Lemma total_empty : total createEmptyBoard = 0%Z.
Proof. reflexivity. Qed.

Lemma targets_sum tiles :
  positions tiles ≡ₚ all_cells →
  ∃ targets,
    computeBlockTargetsFromTiles tiles = Some targets ∧
    length targets = 4 ∧ sumZ targets = pipSum tiles.
Proof.
  intros Hperm. unfold computeBlockTargetsFromTiles.
  destruct (writeCells_total (concat (map cells tiles)) createEmptyBoard)
    as (b & -> & Hs & Ht).
  - apply shape_make.
  - apply Forall_forall. intros x Hx. apply all_cells_spec. rewrite <- Hperm.
    unfold positions. apply list_elem_of_fmap. eauto.
  - fold (positions tiles). rewrite Hperm. apply NoDup_all_cells.
  - intros x Hx. unfold numAt, createEmptyBoard.
    assert (Hg : inGrid (cellPos x)).
    { apply all_cells_spec. rewrite <- Hperm. unfold positions.
      apply list_elem_of_fmap. eauto. }
    destruct Hg as [Hr Hc]. by rewrite get2_make.
  - eexists. split; [done|]. split; [done|].
    rewrite targets_total by done. rewrite Ht, total_empty. unfold pipSum. lia.
Qed.

(** C5. [computeBlockTargetsFromTiles] reads nothing but its argument (no
    puzzle state, no random stream), so the same tiles give the same four
    targets; and for a valid tiling the four targets add up to the sum of
    its sixteen pip values. *)
Theorem targets_deterministic_and_total tiles :
  validTiling tiles →
  (∀ tiles', tiles' = tiles →
     computeBlockTargetsFromTiles tiles' = computeBlockTargetsFromTiles tiles) ∧
  ∃ targets,
    computeBlockTargetsFromTiles tiles = Some targets ∧
    length targets = 4 ∧
    sumZ targets = pipSum tiles.
Proof.
  intros (_ & Hperm & _). split; [by intros ? ->|]. by apply targets_sum.
Qed.

Lemma generatedTiles_valid fuel g tiles :
  generatedTiles fuel g = Some tiles → validTiling tiles.
Proof.
  unfold generatedTiles.
  destruct (generateRandomTilingWithValues fuel g) as [res| |] eqn:E; [|done..].
  intros [= <-]. by eapply generate_valid.
Qed.

Lemma sampleTiling_valid : validTiling sampleTiling.
Proof. apply (generatedTiles_valid 9 sampleRng). vm_compute. reflexivity. Qed.

Lemma targets_deterministic_and_total_witness :
  validTiling sampleTiling ∧
  (∀ tiles', tiles' = sampleTiling →
     computeBlockTargetsFromTiles tiles' = computeBlockTargetsFromTiles sampleTiling) ∧
  ∃ targets,
    computeBlockTargetsFromTiles sampleTiling = Some targets ∧
    length targets = 4 ∧
    sumZ targets = pipSum sampleTiling.
Proof.
  split; [apply sampleTiling_valid|].
  apply (targets_deterministic_and_total sampleTiling). apply sampleTiling_valid.
Defined.

(** ** Completion check *)

Lemma wrongFrom_spec sums :
  ∀ targets i k,
    length sums = length targets →
    k ∈ wrongFrom i sums targets ↔
    ∃ j s t, k = i + j ∧ sums !! j = Some s ∧ targets !! j = Some t ∧ s ≠ t.
Proof.
  induction sums as [|s sums IH]; intros [|t targets] i k Hlen; try done.
  - simpl. split; [by intros ?%elem_of_nil|]. by intros (j & ? & ? & _ & ? & _).
  - simpl in Hlen. cbn [wrongFrom].
    assert (Htail : k ∈ wrongFrom (S i) sums targets ↔
                    ∃ j s0 t0, k = i + S j ∧ sums !! j = Some s0 ∧
                               targets !! j = Some t0 ∧ s0 ≠ t0).
    { rewrite IH by lia. split; intros (j & s0 & t0 & -> & ?); exists j, s0, t0;
        (split; [lia|done]). }
    destruct (Z.eqb_spec s t) as [->|Hne].
    + rewrite Htail. split.
      * intros (j & s0 & t0 & -> & ? & ? & ?). exists (S j), s0, t0. done.
      * intros ([|j] & s0 & t0 & -> & Hs & Ht & Hne); simpl in Hs, Ht.
        -- congruence.
        -- exists j, s0, t0. done.
    + rewrite elem_of_cons, Htail. split.
      * intros [-> | (j & s0 & t0 & -> & ? & ? & ?)].
        -- exists 0, s, t. split; [lia|done].
        -- exists (S j), s0, t0. done.
      * intros ([|j] & s0 & t0 & -> & Hs & Ht & Hne'); simpl in Hs, Ht.
        -- left. lia.
        -- right. exists j, s0, t0. done.
Qed.

Lemma boardFull_cases bd :
  shape bd → boardFull bd →
  ∃ a0 a1 a2 a3 b0 b1 b2 b3 c0 c1 c2 c3 d0 d1 d2 d3,
    bd = [[Some a0; Some a1; Some a2; Some a3]; [Some b0; Some b1; Some b2; Some b3];
          [Some c0; Some c1; Some c2; Some c3]; [Some d0; Some d1; Some d2; Some d3]].
Proof.
  intros Hs Hfull.
  destruct (shape_cases bd Hs) as (?&?&?&?&?&?&?&?&?&?&?&?&?&?&?&?&->).
  unfold boardFull, SIZE in Hfull.
  destruct (Hfull 0 0) as [? [= ->]]; [lia..|].
  destruct (Hfull 0 1) as [? [= ->]]; [lia..|].
  destruct (Hfull 0 2) as [? [= ->]]; [lia..|].
  destruct (Hfull 0 3) as [? [= ->]]; [lia..|].
  destruct (Hfull 1 0) as [? [= ->]]; [lia..|].
  destruct (Hfull 1 1) as [? [= ->]]; [lia..|].
  destruct (Hfull 1 2) as [? [= ->]]; [lia..|].
  destruct (Hfull 1 3) as [? [= ->]]; [lia..|].
  destruct (Hfull 2 0) as [? [= ->]]; [lia..|].
  destruct (Hfull 2 1) as [? [= ->]]; [lia..|].
  destruct (Hfull 2 2) as [? [= ->]]; [lia..|].
  destruct (Hfull 2 3) as [? [= ->]]; [lia..|].
  destruct (Hfull 3 0) as [? [= ->]]; [lia..|].
  destruct (Hfull 3 1) as [? [= ->]]; [lia..|].
  destruct (Hfull 3 2) as [? [= ->]]; [lia..|].
  destruct (Hfull 3 3) as [? [= ->]]; [lia..|].
  by repeat eexists.
Qed.

Lemma not_full_has_null (bd : Board) r c :
  shape bd → r < SIZE → c < SIZE → get2 bd r c = Some None →
  existsb isNull (concat bd) = true.
Proof.
  intros Hs Hr Hc Hget.
  destruct (shape_cases bd Hs) as (?&?&?&?&?&?&?&?&?&?&?&?&?&?&?&?&->).
  unfold SIZE in *.
  do 4 (destruct r as [|r]; [do 4 (destruct c as [|c];
    [simpl in Hget; injection Hget as ->; simpl; rewrite ?orb_true_r; done|]); lia|]).
  lia.
Qed.

(** On a full board [checkCompletion] gets past its early return, sums the
    four blocks and finds the wrong ones. *)
Lemma checkCompletion_full st targets :
  shape (board st) → boardFull (board st) →
  computeBlockTargetsFromTiles (solutionTiles st) = Some targets →
  ∃ wrongIdx,
    (∀ i, i ∈ wrongIdx ↔ blockWrong (board st) targets i) ∧
    checkCompletion st =
      Some [if isNull (head wrongIdx) then MsgSolved
            else MsgWrongBlocks (map (λ i, i + 1) wrongIdx)].
Proof.
  intros Hs Hfull Htg.
  destruct (boardFull_cases _ Hs Hfull) as (?&?&?&?&?&?&?&?&?&?&?&?&?&?&?&?&Hbd).
  assert (Hlen : length targets = 4).
  { unfold computeBlockTargetsFromTiles in Htg.
    destruct (writeCells _ _); [|done]. by injection Htg as <-. }
  unfold checkCompletion. rewrite Htg, Hbd.
  cbn [concat app existsb isNull orb].
  match goal with
  | |- context [sequenceOpt ?l] =>
      let v := eval cbv [map BLOCKS blockSum blockCells seq concat app foldl get2
                         lookup list_lookup bl_r bl_c fst snd sequenceOpt] in
               (sequenceOpt l) in
      change (sequenceOpt l) with v
  end.
  cbv beta iota.
  match goal with
  | |- context [wrongFrom 0 ?sums targets] =>
      exists (wrongFrom 0 sums targets); split;
        [|destruct (head (wrongFrom 0 sums targets)); reflexivity];
      intros i; rewrite wrongFrom_spec by done
  end.
  unfold blockWrong. split.
  - intros (j & s & t & -> & Hsj & Htj & Hne). simpl.
    do 4 (destruct j as [|j];
          [injection Hsj as <-; eexists _, t; split; [reflexivity|];
           split; [done|]; unfold playerSum, sumZ, boardValue; simpl; simpl in Hne;
           lia|]).
    done.
  - intros (bl & t & Hbl & Ht & Hne).
    do 4 (destruct i as [|i];
          [injection Hbl as <-; eexists _, _, t; split; [reflexivity|]; split; [reflexivity|];
           split; [done|]; unfold playerSum, sumZ, boardValue in Hne; simpl in Hne;
           simpl; lia|]).
    done.
Qed.

Lemma allMatch_not_wrong bd targets :
  allMatch bd targets ↔ ∀ i, ¬ blockWrong bd targets i.
Proof.
  unfold allMatch, blockWrong. split.
  - intros H i (bl & t & Hbl & Ht & Hne). by apply Hne, (H i).
  - intros H i bl t Hbl Ht.
    destruct (decide (playerSum bd bl = t)) as [|Hne]; [done|].
    exfalso. apply (H i). eauto.
Qed.

(** C3. [checkCompletion] does nothing while a board cell is [null]. On a
    full board it reports "solved" exactly when the four block sums of the
    player's board equal the four targets computed from the solution tiling,
    and otherwise it reports the 1-indexed positions of exactly the blocks
    whose sums differ. *)
Theorem checkCompletion_correct st targets :
  shape (board st) →
  computeBlockTargetsFromTiles (solutionTiles st) = Some targets →
  (∀ r c, r < SIZE → c < SIZE → get2 (board st) r c = Some None →
     checkCompletion st = Some []) ∧
  (boardFull (board st) →
     (checkCompletion st = Some [MsgSolved] ↔ allMatch (board st) targets) ∧
     (¬ allMatch (board st) targets →
        ∃ wrong,
          checkCompletion st = Some [MsgWrongBlocks wrong] ∧
          ∀ k, k ∈ wrong ↔ 1 ≤ k ∧ blockWrong (board st) targets (k - 1))).
Proof.
  intros Hs Htg. split.
  - intros r c Hr Hc Hnull. unfold checkCompletion.
    by rewrite (not_full_has_null _ r c Hs Hr Hc Hnull).
  - intros Hfull.
    destruct (checkCompletion_full st targets Hs Hfull Htg) as (wrongIdx & Hw & ->).
    rewrite allMatch_not_wrong.
    destruct wrongIdx as [|i0 rest]; simpl.
    + split.
      * split; [|done]. intros _ i Hi. apply Hw in Hi. by apply elem_of_nil in Hi.
      * intros Hn. exfalso. apply Hn. intros i Hi. apply Hw in Hi.
        by apply elem_of_nil in Hi.
    + split.
      * split; [done|]. intros Hn. exfalso. apply (Hn i0), Hw. by left.
      * intros _. eexists. split; [reflexivity|]. intros k.
        change (i0 + 1 :: map (λ i, i + 1) rest) with (map (λ i, i + 1) (i0 :: rest)).
        rewrite <- Hw. split.
        -- intros Hk. apply list_elem_of_In, in_map_iff in Hk as (i & <- & Hi).
           split; [lia|]. replace (i + 1 - 1) with i by lia. by apply list_elem_of_In.
        -- intros [Hk Hi]. apply list_elem_of_In, in_map_iff. exists (k - 1).
           split; [lia|]. by apply list_elem_of_In.
Qed.

Lemma checkCompletion_correct_witness :
  (∀ r c, r < SIZE → c < SIZE → get2 (board solvedState) r c = Some None →
     checkCompletion solvedState = Some []) ∧
  (boardFull (board solvedState) →
     (checkCompletion solvedState = Some [MsgSolved]
      ↔ allMatch (board solvedState) [14; 17; 15; 15]%Z) ∧
     (¬ allMatch (board solvedState) [14; 17; 15; 15]%Z →
        ∃ wrong,
          checkCompletion solvedState = Some [MsgWrongBlocks wrong] ∧
          ∀ k, k ∈ wrong
               ↔ 1 ≤ k ∧ blockWrong (board solvedState) [14; 17; 15; 15]%Z (k - 1))).
Proof.
  apply (checkCompletion_correct solvedState [14; 17; 15; 15]%Z).
  - split; [reflexivity|]. repeat constructor.
  - vm_compute. reflexivity.
Defined.

(** ** Event handlers *)

Lemma existsb_isNull_false (bd : Board) :
  shape bd → existsb isNull (concat bd) = false → boardFull bd.
Proof.
  intros Hs He.
  destruct (shape_cases bd Hs) as (?&?&?&?&?&?&?&?&?&?&?&?&?&?&?&?&->).
  cbn [concat app existsb] in He.
  repeat match type of He with
         | (_ || _) = false => apply orb_false_elim in He as [? He]
         end.
  repeat match goal with
         | H : isNull ?o = false |- _ => destruct o; [clear H|discriminate H]
         end.
  intros r c Hr Hc. unfold SIZE in *.
  do 4 (destruct r as [|r]; [do 4 (destruct c as [|c]; [by eexists|]); lia|]).
  lia.
Qed.

(** With a well-shaped board and a solution whose targets can be computed,
    [checkCompletion] raises nothing. *)
Lemma checkCompletion_total st :
  shape (board st) →
  is_Some (computeBlockTargetsFromTiles (solutionTiles st)) →
  is_Some (checkCompletion st).
Proof.
  intros Hs [targets Htg].
  destruct (existsb isNull (concat (board st))) eqn:He.
  - unfold checkCompletion. rewrite He. eauto.
  - destruct (checkCompletion_full st targets Hs (existsb_isNull_false _ Hs He) Htg)
      as (w & _ & ->). eauto.
Qed.

(** The second click of a placement, step by step as [onCellClick] takes it. *)
Lemma onCellClick_second st sel pa r c :
  selectedDominoId st = Some sel → sel ≠ 0%Z →
  selectionClicks st = [pa] →
  mjoin (get2 (board st) r c) = None →
  onCellClick r c st =
    if negb (areAdjacent pa (r, c)) then Ok (withClicks st []) [MsgNotAdjacent]
    else match find (λ d, (id d =? sel)%Z) (pool st) with
         | None => Ok (withClicks st []) [MsgNotFound]
         | Some dom =>
             match checkCompletion (place st dom pa (r, c)) with
             | Some ms => Ok (place st dom pa (r, c))
                             (MsgPlaced (S (length (placed st))) :: ms)
             | None => Throw (place st dom pa (r, c))
             end
         end.
Proof.
  intros Hsel Hnz Hcl Hfree. unfold onCellClick.
  rewrite Hsel, Hcl, Hfree. simpl noSelection.
  destruct (Z.eqb_spec sel 0) as [|_]; [done|].
  cbn [isNull negb app length Nat.eqb lookup list_lookup].
  destruct (areAdjacent pa (r, c)); [|done]. cbn [negb].
  destruct (find _ (pool st)) as [dom|]; [|done].
  unfold place, placedTile. cbn [cells foldl cr cc cvalue cell0 cell1 fst snd].
  rewrite length_app. simpl length. rewrite Nat.add_1_r. done.
Qed.

Lemma areAdjacent_spec p q :
  areAdjacent p q = true ↔
  (Z.abs (Z.of_nat p.1 - Z.of_nat q.1) + Z.abs (Z.of_nat p.2 - Z.of_nat q.2) = 1)%Z.
Proof. unfold areAdjacent. apply Z.eqb_eq. Qed.

Lemma areAdjacent_irrefl p : areAdjacent p p = false.
Proof. unfold areAdjacent. apply Z.eqb_neq. lia. Qed.

Lemma get2_free (bd : Board) r c :
  shape bd → r < SIZE → c < SIZE →
  mjoin (get2 bd r c) = None ↔ get2 bd r c = Some None.
Proof.
  intros Hs Hr Hc. destruct (get2_is_Some bd r c Hs Hr Hc) as [[e|] ->]; done.
Qed.

(** C1 (where the code departs from it). After [onSelectDomino(0)] on a
    state where domino 0 is not placed the selection is the number 0, which
    [onCellClick] tests as "no selection": every click is turned down with
    the select-a-domino notice and the state stays as it is. A selected
    domino with any other id gets its click on an empty cell recorded. *)
Theorem select_zero_click_rejected st r c :
  existsb (λ p, (pid p =? 0)%Z) (placed st) = false →
  selectedDominoId (outcome_state (onSelectDomino 0 st)) = Some 0%Z ∧
  onCellClick r c (outcome_state (onSelectDomino 0 st))
    = Ok (outcome_state (onSelectDomino 0 st)) [MsgSelectFirst] ∧
  (∀ i, i ≠ 0%Z → existsb (λ p, (pid p =? i)%Z) (placed st) = false →
        mjoin (get2 (board st) r c) = None →
        onCellClick r c (outcome_state (onSelectDomino i st))
          = Ok (withClicks (outcome_state (onSelectDomino i st)) [(r, c)])
               [MsgSecondCell]).
Proof.
  intros H0. unfold onSelectDomino at 1 2 3. rewrite H0. simpl.
  split; [done|]. split; [done|].
  intros i Hi Hp Hfree. unfold onSelectDomino. rewrite Hp. simpl.
  unfold onCellClick; simpl. destruct (Z.eqb_spec i 0) as [|_]; [done|].
  rewrite Hfree. done.
Qed.

Lemma select_zero_click_rejected_witness :
  selectedDominoId (outcome_state (onSelectDomino 0 samplePuzzle)) = Some 0%Z ∧
  onCellClick 0 0 (outcome_state (onSelectDomino 0 samplePuzzle))
    = Ok (outcome_state (onSelectDomino 0 samplePuzzle)) [MsgSelectFirst] ∧
  (∀ i, i ≠ 0%Z → existsb (λ p, (pid p =? i)%Z) (placed samplePuzzle) = false →
        mjoin (get2 (board samplePuzzle) 0 0) = None →
        onCellClick 0 0 (outcome_state (onSelectDomino i samplePuzzle))
          = Ok (withClicks (outcome_state (onSelectDomino i samplePuzzle)) [(0, 0)])
               [MsgSecondCell]).
Proof. apply (select_zero_click_rejected samplePuzzle 0 0). reflexivity. Defined.

(** ** Shuffling *)

Lemma swap_Permutation {A} (l : list A) i j : swap l i j ≡ₚ l.
Proof.
  unfold swap. destruct (l !! i) as [x|] eqn:Ei; [|done].
  destruct (l !! j) as [y|] eqn:Ej; [|done].
  by apply Permutation_insert_swap.
Qed.

Lemma shuffleFrom_Permutation {A} n :
  ∀ (l : list A) g, (shuffleFrom n l g).1 ≡ₚ l.
Proof.
  induction n as [|n IH]; intros l g; [done|].
  cbn [shuffleFrom]. destruct (randBelow _ g) as [j g'].
  rewrite IH. apply swap_Permutation.
Qed.

Lemma shuffleArray_Permutation {A} (l : list A) g : (shuffleArray l g).1 ≡ₚ l.
Proof. apply shuffleFrom_Permutation. Qed.

(** ** The state invariant *)

Lemma lookupZ_of_nat {A} (l : list A) n : lookupZ l (Z.of_nat n) = l !! n.
Proof.
  unfold lookupZ. destruct (Z.ltb_spec (Z.of_nat n) 0) as [?|_]; [lia|].
  by rewrite Nat2Z.id.
Qed.

Lemma pool_ids_init (tiling : list Tile) :
  map id (imap (λ i t, {| id := Z.of_nat i; a := cvalue (cell0 t);
                          b := cvalue (cell1 t) |}) tiling)
  = map Z.of_nat (seq 0 (length tiling)).
Proof.
  change (map id ?l) with (id <$> l). rewrite fmap_imap.
  rewrite (imap_ext _ (λ i _, Z.of_nat i)) by done.
  apply imap_seq_0.
Qed.

Lemma get2_make_inv {A} (v x : A) r c : get2 (make v) r c = Some x → x = v.
Proof.
  intros H. destruct (get2_lt _ _ _ _ (shape_make v) H) as [Hr Hc].
  rewrite get2_make in H by done. congruence.
Qed.

Lemma wf_init fuel g st : initState fuel g = Some st → wf st.
Proof.
  unfold initState, initPuzzle.
  destruct (generateRandomTilingWithValues fuel g) as [[tiling g1]| |] eqn:Hgen;
    [|done..].
  destruct (computeBlockTargetsFromTiles tiling) as [targets|]; [|done].
  pose proof (shuffleArray_Permutation
                (imap (λ i t, {| id := Z.of_nat i; a := cvalue (cell0 t);
                                 b := cvalue (cell1 t) |}) tiling) g1) as Hperm.
  destruct (shuffleArray _ g1) as [pool0 g2]. cbn [fst] in Hperm.
  intros [= <-]. split; simpl.
  - apply (generate_valid _ _ _ Hgen).
  - apply shape_make.
  - rewrite app_nil_r, <- pool_ids_init. by apply Permutation_map.
  - intros d Hd. rewrite Hperm in Hd.
    apply elem_of_lookup_imap in Hd as (i & t & -> & Ht). simpl.
    exists t. by rewrite lookupZ_of_nat.
  - done.
  - intros p Hp. by apply elem_of_nil in Hp.
  - intros r c e He. by apply get2_make_inv in He.
  - intros q Hq. by apply elem_of_nil in Hq.
Qed.

Lemma wf_select st i : wf st → wf (outcome_state (onSelectDomino i st)).
Proof.
  intros Hwf. unfold onSelectDomino.
  destruct (existsb _ (placed st)); [done|].
  destruct Hwf. split; simpl; try done.
  intros q Hq. by apply elem_of_nil in Hq.
Qed.

Lemma wf_withClicks_nil st : wf st → wf (withClicks st []).
Proof.
  intros []. split; simpl; try done.
  intros q Hq. by apply elem_of_nil in Hq.
Qed.

Lemma wf_targets st : wf st → is_Some (computeBlockTargetsFromTiles (solutionTiles st)).
Proof.
  intros Hwf. destruct (wf_tiles st Hwf) as (_ & Hperm & _).
  destruct (targets_sum _ Hperm) as (t & -> & _). eauto.
Qed.

Lemma wf_ids_NoDup st :
  wf st → NoDup (map id (pool st) ++ map pid (placed st)).
Proof.
  intros Hwf. rewrite (wf_ids st Hwf).
  apply (NoDup_fmap_2 Z.of_nat), NoDup_seq.
Qed.

(** Removing the only domino with a given id from a list. *)
Lemma filter_id_Permutation (l : list Domino) dom :
  NoDup (map id l) → dom ∈ l →
  l ≡ₚ dom :: filter (λ x, id x ≠ id dom) l.
Proof.
  induction l as [|x l IH]; intros Hnd Hin; [by apply elem_of_nil in Hin|].
  simpl in Hnd. apply NoDup_cons in Hnd as [Hx Hnd].
  apply elem_of_cons in Hin as [<-|Hin].
  - rewrite filter_cons_False by (intros H; by apply H).
    f_equiv. clear IH. induction l as [|y l IHl]; [done|].
    simpl in Hx. apply not_elem_of_cons in Hx as [Hy Hx].
    apply NoDup_cons in Hnd as [_ Hnd].
    rewrite filter_cons_True by congruence. f_equiv. by apply IHl.
  - assert (id x ≠ id dom).
    { intros E. apply Hx. rewrite E. apply list_elem_of_fmap. eauto. }
    rewrite filter_cons_True by done.
    rewrite (IH Hnd Hin) at 1. apply Permutation_swap.
Qed.

Lemma filter_pid_fresh (l : list Placement) i :
  i ∉ map pid l → filter (λ p, pid p ≠ i) l = l.
Proof.
  induction l as [|p l IH]; intros Hi; [done|].
  simpl in Hi. apply not_elem_of_cons in Hi as [Hp Hi].
  rewrite filter_cons_True by congruence. f_equal. by apply IH.
Qed.

Lemma wf_place st dom pa pb :
  wf st → dom ∈ pool st →
  inGrid pa → get2 (board st) pa.1 pa.2 = Some None →
  inGrid pb → get2 (board st) pb.1 pb.2 = Some None →
  areAdjacent pa pb = true →
  wf (place st dom pa pb).
Proof.
  intros Hwf Hdom Hpa Hfa Hpb Hfb Hadj.
  assert (Hne : pa ≠ pb).
  { intros ->. by rewrite areAdjacent_irrefl in Hadj. }
  pose proof (wf_ids_NoDup st Hwf) as Hnd.
  apply NoDup_app in Hnd as (Hndp & Hdisj & _).
  pose proof (wf_shape st Hwf) as Hs.
  destruct pa as [ra ca], pb as [rb cb]. simpl in Hfa, Hfb.
  split; simpl.
  - apply Hwf.
  - by repeat apply shape_set2.
  - rewrite <- (wf_ids st Hwf).
    rewrite (filter_id_Permutation (pool st) dom Hndp Hdom) at 2.
    rewrite map_app. simpl.
    rewrite (Permutation_app_comm (map pid (placed st)) [id dom]). simpl.
    by rewrite Permutation_middle.
  - intros d Hd. apply list_elem_of_filter in Hd as [_ Hd]. by apply Hwf.
  - rewrite !map_app. simpl. by rewrite (wf_hist st Hwf).
  - intros p Hp. apply elem_of_app in Hp as [Hp|Hp].
    + destruct (wf_placed st Hwf p Hp) as (H0 & H1 & Ha & Hg0 & Hg1).
      do 3 (split; [done|]). unfold pos0, pos1, cellPos in *. simpl in Hg0, Hg1.
      split.
      * rewrite !get2_set2_ne; [done|intros E|intros E];
          inversion E; subst; congruence.
      * rewrite !get2_set2_ne; [done|intros E|intros E];
          inversion E; subst; congruence.
    + apply list_elem_of_singleton in Hp as ->. unfold pos0, pos1, cellPos; simpl.
      do 3 (split; [done|]). split.
      * rewrite get2_set2_ne by done. apply get2_set2_eq. by rewrite Hfa.
      * apply get2_set2_eq. rewrite get2_set2_ne by done. by rewrite Hfb.
  - intros r c e He.
    destruct (decide ((rb, cb) = (r, c))) as [E|Hn1].
    { inversion E; subst. rewrite get2_set2_eq in He.
      - injection He as <-. eexists. split; [apply elem_of_app; right; by left|].
        split; [done|]. by right.
      - rewrite get2_set2_ne by done. by rewrite Hfb. }
    rewrite get2_set2_ne in He by done.
    destruct (decide ((ra, ca) = (r, c))) as [E|Hn2].
    { inversion E; subst. rewrite get2_set2_eq in He by (by rewrite Hfa).
      injection He as <-. eexists. split; [apply elem_of_app; right; by left|].
      split; [done|]. by left. }
    rewrite get2_set2_ne in He by done.
    destruct (wf_board st Hwf r c e He) as (p & Hp & Hid & Hpos).
    exists p. split; [apply elem_of_app; by left|done].
  - intros q Hq. by apply elem_of_nil in Hq.
Qed.

(** In a well-formed state a click raises nothing and leads to a
    well-formed state. *)
Lemma wf_click st r c :
  wf st → r < SIZE → c < SIZE →
  wf (outcome_state (onCellClick r c st)) ∧
  ∃ st' msgs, onCellClick r c st = Ok st' msgs.
Proof.
  intros Hwf Hr Hc. pose proof (wf_shape st Hwf) as Hs.
  destruct (noSelection (selectedDominoId st)) eqn:Hsel.
  { unfold onCellClick. rewrite Hsel. eauto. }
  destruct (mjoin (get2 (board st) r c)) as [e|] eqn:Hfree.
  { unfold onCellClick. rewrite Hsel, Hfree. eauto. }
  destruct (selectedDominoId st) as [sel|] eqn:Hsome; [|done].
  simpl in Hsel. apply Z.eqb_neq in Hsel.
  pose proof (proj1 (get2_free _ r c Hs Hr Hc) Hfree) as Hnull.
  destruct (selectionClicks st) as [|pa rest] eqn:Hcl.
  - unfold onCellClick. rewrite Hsome, Hfree, Hcl. simpl.
    destruct (Z.eqb_spec sel 0) as [|_]; [done|]. simpl.
    split; [|eauto]. destruct Hwf. split; simpl; try done.
    intros q Hq. apply list_elem_of_singleton in Hq as ->.
    do 3 (split; [done|]). rewrite Hsome. simpl. by apply Z.eqb_neq.
  - destruct (wf_clicks st Hwf pa) as (Heq & Hpa & Hfa & _); [rewrite Hcl; by left|].
    rewrite Hcl in Heq. injection Heq as ->.
    rewrite (onCellClick_second st sel pa r c Hsome Hsel Hcl Hfree).
    destruct (areAdjacent pa (r, c)) eqn:Hadj; cbn [negb].
    + destruct (find _ (pool st)) as [dom|] eqn:Hfind.
      * apply find_some in Hfind as [Hin _]. apply list_elem_of_In in Hin.
        assert (Hwf' : wf (place st dom pa (r, c))) by (by apply wf_place).
        destruct (checkCompletion_total (place st dom pa (r, c))) as [ms ->].
        { apply Hwf'. }
        { by apply wf_targets in Hwf. }
        eauto.
      * split; [by apply wf_withClicks_nil|eauto].
    + split; [by apply wf_withClicks_nil|eauto].
Qed.

Lemma get2_row {A} (g : list (list A)) r c :
  is_Some (get2 g r c) → is_Some (g !! r).
Proof. unfold get2. destruct (g !! r); [eauto|by intros [? ?]]. Qed.

Lemma set2_row {A} (g : list (list A)) r c v r' :
  is_Some (g !! r') → is_Some (set2 g r c v !! r').
Proof.
  intros H. apply lookup_lt_is_Some. apply lookup_lt_is_Some in H.
  unfold set2. destruct (g !! r); [by rewrite length_insert|done].
Qed.

(** [undo] on a well-formed state with a non-empty history. *)
Lemma undo_last st h l :
  wf st → history st = h ++ [l] →
  ∃ pl p t,
    placed st = pl ++ [p] ∧ pid p = hdominoId l ∧ pcells p = hcells l ∧
    (pid p ∉ map pid pl) ∧
    lookupZ (solutionTiles st) (pid p) = Some t ∧
    undo st = Ok (unplace st p t pl h) [MsgUndid].
Proof.
  intros Hwf Hh. pose proof (wf_hist st Hwf) as Hhist.
  rewrite Hh in Hhist. change (map ?f ?x) with (f <$> x) in Hhist.
  rewrite fmap_app in Hhist. symmetry in Hhist.
  apply fmap_app_inv in Hhist as (pl & pl2 & Hpl & Hp & Hplaced).
  destruct pl2 as [|p [|? ?]]; try done. simpl in Hp. injection Hp as Hid Hcells.
  exists pl, p.
  destruct (wf_placed st Hwf p) as (H0 & H1 & _ & Hg0 & Hg1).
  { rewrite Hplaced. apply elem_of_app. right. by left. }
  pose proof (wf_ids_NoDup st Hwf) as Hnd. rewrite Hplaced in Hnd.
  apply NoDup_app in Hnd as (_ & _ & Hnd). rewrite map_app in Hnd.
  apply NoDup_app in Hnd as (_ & Hfresh & _).
  assert (Hnew : pid p ∉ map pid pl).
  { intros Hin. apply (Hfresh _ Hin). by left. }
  assert (Hidx : ∃ t, lookupZ (solutionTiles st) (pid p) = Some t).
  { assert (Hin : pid p ∈ map id (pool st) ++ map pid (placed st)).
    { apply elem_of_app. right. rewrite Hplaced, map_app. apply elem_of_app.
      right. by left. }
    rewrite (wf_ids st Hwf) in Hin.
    apply list_elem_of_fmap in Hin as (n & -> & Hn). apply elem_of_seq in Hn.
    rewrite lookupZ_of_nat. apply lookup_lt_is_Some. lia. }
  destruct Hidx as [t Ht]. exists t.
  do 4 (split; [done|]). split; [done|].
  unfold undo. rewrite Hh, last_snoc, removelast_last.
  rewrite Hid, Hcells, Ht.
  unfold clearCells, cells. cbn [foldl].
  unfold pos0, pos1, cellPos in Hg0, Hg1. simpl in Hg0, Hg1.
  destruct (get2_row (board st) _ _ (mk_is_Some _ _ Hg0)) as [row0 ->].
  destruct (set2_row (board st) (cr (cell0 (pcells p))) (cc (cell0 (pcells p))) None
              (cr (cell1 (pcells p))) (get2_row _ _ _ (mk_is_Some _ _ Hg1)))
    as [row1 ->].
  unfold unplace, pos0, pos1, cellPos. simpl. rewrite Hplaced, filter_app, filter_pid_fresh by done.
  rewrite filter_cons_False by (intros H; by apply H).
  rewrite filter_nil, app_nil_r. done.
Qed.

Lemma wf_unplace st pl p t h :
  wf st → placed st = pl ++ [p] → pid p ∉ map pid pl →
  lookupZ (solutionTiles st) (pid p) = Some t →
  map (λ h, (hdominoId h, hcells h)) h = map (λ p, (pid p, pcells p)) pl →
  wf (unplace st p t pl h).
Proof.
  intros Hwf Hplaced Hnew Ht Hhist.
  pose proof (wf_shape st Hwf) as Hs.
  assert (Hp : p ∈ placed st).
  { rewrite Hplaced. apply elem_of_app. right. by left. }
  destruct (wf_placed st Hwf p Hp) as ([H0r H0c] & [H1r H1c] & _ & Hg0 & Hg1).
  set (p0 := pos0 (pcells p)) in *. set (p1 := pos1 (pcells p)) in *.
  assert (Hcleared : ∀ r c x,
    get2 (set2 (set2 (board st) p0.1 p0.2 None) p1.1 p1.2 None) r c = Some x →
    ( (r, c) ≠ p0 ∧ (r, c) ≠ p1 ∧ get2 (board st) r c = Some x ) ∨ x = None).
  { intros r c x Hx.
    destruct (decide ((p1.1, p1.2) = (r, c))) as [E|Hn1].
    { inversion E; subst. rewrite get2_set2_eq in Hx; [right; congruence|].
      apply get2_is_Some; [by apply shape_set2|done..]. }
    rewrite get2_set2_ne in Hx by done.
    destruct (decide ((p0.1, p0.2) = (r, c))) as [E|Hn0].
    { inversion E; subst. rewrite get2_set2_eq in Hx; [right; congruence|].
      by apply get2_is_Some. }
    rewrite get2_set2_ne in Hx by done.
    left. destruct p0, p1. done. }
  assert (Hkept : ∀ x,
    x ≠ p0 → x ≠ p1 →
    get2 (set2 (set2 (board st) p0.1 p0.2 None) p1.1 p1.2 None) x.1 x.2
    = get2 (board st) x.1 x.2).
  { intros [r c] Hn0 Hn1.
    rewrite !get2_set2_ne; [done|by destruct p0|by destruct p1]. }
  split; simpl.
  - apply Hwf.
  - by repeat apply shape_set2.
  - rewrite <- (wf_ids st Hwf), Hplaced, !map_app. simpl.
    rewrite <- !app_assoc. f_equiv. apply Permutation_app_comm.
  - intros d Hd. apply elem_of_app in Hd as [Hd|Hd]; [by apply Hwf|].
    apply list_elem_of_singleton in Hd as ->. simpl. eauto.
  - done.
  - intros q Hq.
    assert (Hq' : q ∈ placed st) by (rewrite Hplaced; apply elem_of_app; by left).
    destruct (wf_placed st Hwf q Hq') as (G0 & G1 & Ga & Gg0 & Gg1).
    assert (Hne : pid q ≠ pid p).
    { intros E. apply Hnew. rewrite <- E. apply list_elem_of_fmap. eauto. }
    do 3 (split; [done|]).
    split.
    + rewrite <- Gg0. apply (Hkept (pos0 (pcells q))); intros E; rewrite E in Gg0.
      * rewrite Hg0 in Gg0. injection Gg0 as _ E'. done.
      * rewrite Hg1 in Gg0. injection Gg0 as _ E'. done.
    + rewrite <- Gg1. apply (Hkept (pos1 (pcells q))); intros E; rewrite E in Gg1.
      * rewrite Hg0 in Gg1. injection Gg1 as _ E'. done.
      * rewrite Hg1 in Gg1. injection Gg1 as _ E'. done.
  - intros r c e He.
    destruct (Hcleared r c _ He) as [(Hn0 & Hn1 & Hold)|?]; [|done].
    destruct (wf_board st Hwf r c e Hold) as (q & Hq & Hid & Hpos).
    exists q. split; [|done].
    rewrite Hplaced in Hq. apply elem_of_app in Hq as [Hq|Hq]; [done|].
    apply list_elem_of_singleton in Hq as ->. by destruct Hpos.
  - intros q Hq. destruct (wf_clicks st Hwf q Hq) as (Hcl & Hin & Hfree & Hsel).
    do 2 (split; [done|]). split; [|done].
    destruct (get2_is_Some
                (set2 (set2 (board st) p0.1 p0.2 None) p1.1 p1.2 None) q.1 q.2)
      as [x Hx]; [by repeat apply shape_set2|apply Hin..|].
    destruct (Hcleared _ _ _ Hx) as [(_ & _ & Hold)|E].
    + rewrite Hold in Hfree. injection Hfree as ->. exact Hx.
    + rewrite E in Hx. exact Hx.
Qed.

(** In a well-formed state [undo] raises nothing and leads to a well-formed
    state. *)
Lemma wf_undo st :
  wf st →
  wf (outcome_state (undo st)) ∧ ∃ st' msgs, undo st = Ok st' msgs.
Proof.
  intros Hwf. destruct (last (history st)) as [l|] eqn:Hlast.
  - apply last_Some in Hlast as [h Hh].
    destruct (undo_last st h l Hwf Hh) as (pl & p & t & Hpl & Hid & Hc & Hnew & Ht & ->).
    split; [|eauto]. simpl. apply wf_unplace; try done.
    pose proof (wf_hist st Hwf) as Hhist. rewrite Hh, Hpl, !map_app in Hhist.
    by apply app_inj_tail in Hhist as [? _].
  - unfold undo. rewrite Hlast. eauto.
Qed.

Lemma reachable_wf st : reachable st → wf st.
Proof.
  induction 1 as [fuel g st Hinit|st i _ IH|st r c _ IH Hr Hc|st _ IH
                 |st fuel g st' _ _ Hinit].
  - by eapply wf_init.
  - by apply wf_select.
  - by apply wf_click.
  - by apply wf_undo.
  - by eapply wf_init.
Qed.

Lemma samplePuzzle_reachable : reachable samplePuzzle.
Proof. apply (reach_init 9 sampleRng). vm_compute. reflexivity. Qed.

Lemma afterFirstClick_reachable : reachable afterFirstClick.
Proof.
  apply reach_click; [|vm_compute; lia..].
  apply reach_select, samplePuzzle_reachable.
Qed.

Lemma areAdjacent_grid x y : areAdjacent x y = true ↔ gridAdjacent x y.
Proof. rewrite areAdjacent_spec. unfold gridAdjacent. lia. Qed.

Lemma gridAdjacent_sym x y : gridAdjacent x y → gridAdjacent y x.
Proof. unfold gridAdjacent. lia. Qed.

Lemma pid_inj (l : list Placement) p q :
  NoDup (map pid l) → p ∈ l → q ∈ l → pid p = pid q → p = q.
Proof.
  induction l as [|x l IH]; intros Hnd Hp Hq E; [by apply elem_of_nil in Hp|].
  simpl in Hnd. apply NoDup_cons in Hnd as [Hx Hnd].
  apply elem_of_cons in Hp as [->|Hp]; apply elem_of_cons in Hq as [->|Hq].
  - done.
  - exfalso. apply Hx. rewrite E. apply list_elem_of_fmap. eauto.
  - exfalso. apply Hx. rewrite <- E. apply list_elem_of_fmap. eauto.
  - by apply IH.
Qed.

Lemma wf_covers st p x :
  wf st → p ∈ placed st → covers p x →
  ∃ e, get2 (board st) x.1 x.2 = Some (Some e) ∧ dominoId e = pid p.
Proof.
  intros Hwf Hp Hc. destruct (wf_placed st Hwf p Hp) as (_ & _ & _ & Hg0 & Hg1).
  destruct Hc as [-> | ->]; eauto.
Qed.

(** C9. In every state reachable from a fresh puzzle by selections, clicks
    on grid cells, undos and restarts: no cell is covered by two placements
    (and the board holds at most one entry per cell), two different cells
    whose entries carry the same domino id differ by exactly 1 in exactly
    one coordinate, and no id occurs twice in the ids of [pool] followed by
    the ids of [placed]. *)
Theorem reachable_state_invariant st :
  reachable st →
  (∀ x p q, p ∈ placed st → q ∈ placed st → covers p x → covers q x → p = q) ∧
  (∀ x y e1 e2,
     x ≠ y →
     get2 (board st) x.1 x.2 = Some (Some e1) →
     get2 (board st) y.1 y.2 = Some (Some e2) →
     dominoId e1 = dominoId e2 →
     gridAdjacent x y) ∧
  NoDup (map id (pool st) ++ map pid (placed st)).
Proof.
  intros Hreach. pose proof (reachable_wf st Hreach) as Hwf.
  pose proof (wf_ids_NoDup st Hwf) as Hnd.
  assert (Hndp : NoDup (map pid (placed st))) by (by apply NoDup_app in Hnd as (_ & _ & ?)).
  split; [|split; [|done]].
  - intros x p q Hp Hq Hcp Hcq.
    destruct (wf_covers st p x Hwf Hp Hcp) as (e & He & Hid).
    destruct (wf_covers st q x Hwf Hq Hcq) as (e' & He' & Hid').
    apply (pid_inj (placed st)); try done. congruence.
  - intros [r1 c1] [r2 c2] e1 e2 Hne H1 H2 Hid. simpl in H1, H2.
    destruct (wf_board st Hwf _ _ _ H1) as (p & Hp & Hidp & Hposp).
    destruct (wf_board st Hwf _ _ _ H2) as (q & Hq & Hidq & Hposq).
    assert (p = q) as <- by (apply (pid_inj (placed st)); try done; congruence).
    destruct (wf_placed st Hwf p Hp) as (_ & _ & Hadj & _).
    apply areAdjacent_grid in Hadj.
    destruct Hposp as [E1|E1], Hposq as [E2|E2]; rewrite E1, E2 in *;
      try done; by try apply gridAdjacent_sym.
Qed.

Lemma afterPlacement_reachable : reachable afterPlacement.
Proof. apply reach_click; [apply afterFirstClick_reachable|vm_compute; lia..]. Qed.

Lemma reachable_state_invariant_witness :
  (∀ x p q, p ∈ placed afterPlacement → q ∈ placed afterPlacement →
            covers p x → covers q x → p = q) ∧
  (∀ x y e1 e2,
     x ≠ y →
     get2 (board afterPlacement) x.1 x.2 = Some (Some e1) →
     get2 (board afterPlacement) y.1 y.2 = Some (Some e2) →
     dominoId e1 = dominoId e2 →
     gridAdjacent x y) ∧
  NoDup (map id (pool afterPlacement) ++ map pid (placed afterPlacement)).
Proof.
  apply (reachable_state_invariant afterPlacement).
  apply reach_click; [|vm_compute; lia..].
  apply reach_click; [|vm_compute; lia..].
  apply reach_select. apply (reach_init 9 sampleRng). vm_compute. reflexivity.
Defined.

(** A click that sets the "Placed." message took the placement branch. *)
Lemma onCellClick_placed_inv st r c st' n msgs :
  wf st → r < SIZE → c < SIZE →
  onCellClick r c st = Ok st' (MsgPlaced n :: msgs) →
  ∃ sel pa dom,
    selectedDominoId st = Some sel ∧ sel ≠ 0%Z ∧
    selectionClicks st = [pa] ∧ inGrid pa ∧
    get2 (board st) pa.1 pa.2 = Some None ∧
    get2 (board st) r c = Some None ∧
    areAdjacent pa (r, c) = true ∧
    dom ∈ pool st ∧ id dom = sel ∧
    st' = place st dom pa (r, c) ∧
    n = S (length (placed st)).
Proof.
  intros Hwf Hr Hc Hrun. pose proof (wf_shape st Hwf) as Hs.
  destruct (noSelection (selectedDominoId st)) eqn:Hsel.
  { unfold onCellClick in Hrun. by rewrite Hsel in Hrun. }
  destruct (mjoin (get2 (board st) r c)) as [e|] eqn:Hfree.
  { unfold onCellClick in Hrun. by rewrite Hsel, Hfree in Hrun. }
  destruct (selectedDominoId st) as [sel|] eqn:Hsome; [|done].
  simpl in Hsel. apply Z.eqb_neq in Hsel.
  pose proof (proj1 (get2_free _ r c Hs Hr Hc) Hfree) as Hnull.
  destruct (selectionClicks st) as [|pa rest] eqn:Hcl.
  { unfold onCellClick in Hrun. rewrite Hsome, Hfree, Hcl in Hrun. simpl in Hrun.
    by destruct (Z.eqb_spec sel 0). }
  destruct (wf_clicks st Hwf pa) as (Heq & Hpa & Hfa & _); [rewrite Hcl; by left|].
  rewrite Hcl in Heq. injection Heq as ->.
  rewrite (onCellClick_second st sel pa r c Hsome Hsel Hcl Hfree) in Hrun.
  destruct (areAdjacent pa (r, c)) eqn:Hadj; cbn [negb] in Hrun; [|done].
  destruct (find _ (pool st)) as [dom|] eqn:Hfind; [|done].
  apply find_some in Hfind as [Hin Hid]. apply list_elem_of_In in Hin.
  apply Z.eqb_eq in Hid.
  destruct (checkCompletion _) as [ms|]; [|done].
  injection Hrun as <- <- <-.
  exists sel, pa, dom. done.
Qed.

Lemma unplace_place_board (bd : Board) pa pb ea eb :
  shape bd → inGrid pa → inGrid pb →
  get2 bd pa.1 pa.2 = Some None → get2 bd pb.1 pb.2 = Some None →
  set2 (set2 (set2 (set2 bd pa.1 pa.2 ea) pb.1 pb.2 eb) pa.1 pa.2 None) pb.1 pb.2 None
  = bd.
Proof.
  intros Hs [Ha1 Ha2] [Hb1 Hb2] Hfa Hfb.
  apply grid_ext; [by repeat apply shape_set2|done|].
  intros r c Hr Hc.
  rewrite !get2_set2 by (apply get2_is_Some; [by repeat apply shape_set2|done..]).
  destruct pa, pb; simpl in *. repeat case_decide; simplify_eq; done.
Qed.

(** C4, as the code has it. After a click that placed a domino from a
    reachable state [st], one [undo] gives back the board, the placements,
    the history and the solution of [st]; the domino returns to the pool
    with the pip values of its solution tile, which are the ones it had, but
    at the end of the pool, so the pool is that of [st] up to order; the
    placed count goes down by one; the selection and the pending clicks
    stay cleared. *)
Theorem undo_after_placement st r c st' n msgs :
  reachable st → r < SIZE → c < SIZE →
  onCellClick r c st = Ok st' (MsgPlaced n :: msgs) →
  ∃ st'' dom t,
    undo st' = Ok st'' [MsgUndid] ∧
    board st'' = board st ∧
    placed st'' = placed st ∧
    history st'' = history st ∧
    solutionTiles st'' = solutionTiles st ∧
    dom ∈ pool st ∧ selectedDominoId st = Some (id dom) ∧
    lookupZ (solutionTiles st) (id dom) = Some t ∧
    a dom = cvalue (cell0 t) ∧ b dom = cvalue (cell1 t) ∧
    pool st'' = filter (λ x, id x ≠ id dom) (pool st) ++ [dom] ∧
    pool st'' ≡ₚ pool st ∧
    length (placed st') = S (length (placed st)) ∧
    length (placed st'') = length (placed st') - 1 ∧
    selectedDominoId st'' = None ∧
    selectionClicks st'' = [].
Proof.
  intros Hreach Hr Hc Hrun. pose proof (reachable_wf st Hreach) as Hwf.
  destruct (onCellClick_placed_inv st r c st' n msgs Hwf Hr Hc Hrun)
    as (sel & pa & dom & Hsel & Hnz & Hcl & Hpa & Hfa & Hfb & Hadj & Hdom & Hid & -> & ->).
  assert (Hwf' : wf (place st dom pa (r, c))) by (by apply wf_place).
  destruct (undo_last (place st dom pa (r, c)) (history st)
              {| action := APlace; hdominoId := id dom;
                 hcells := placedTile dom pa (r, c) |} Hwf' eq_refl)
    as (pl & p & t & Hpl & Hpid & Hpc & _ & Ht & Hundo).
  simpl in Hpl. apply app_inj_tail in Hpl as [<- <-]. simpl in Ht.
  destruct (wf_pool st Hwf dom Hdom) as (t' & Ht' & Ha & Hb).
  assert (t' = t) as -> by congruence.
  pose proof (wf_ids_NoDup st Hwf) as Hnd. apply NoDup_app in Hnd as (Hndp & _ & _).
  assert (Hpool : filter (λ x, id x ≠ id dom) (pool st) ++
                  [{| id := id dom; a := cvalue (cell0 t); b := cvalue (cell1 t) |}]
                  = filter (λ x, id x ≠ id dom) (pool st) ++ [dom]).
  { destruct dom; simpl in *; by subst. }
  eexists _, dom, t. split; [exact Hundo|]. simpl.
  split; [apply (unplace_place_board (board st) pa (r, c)); try done; apply Hwf|].
  do 3 (split; [done|]). split; [done|]. split; [by rewrite Hid|].
  do 3 (split; [done|]). split; [done|]. split.
  { rewrite Hpool. rewrite (filter_id_Permutation (pool st) dom Hndp Hdom) at 2.
    apply Permutation_app_comm. }
  rewrite length_app. simpl. repeat split; lia.
Qed.

Lemma undo_after_placement_witness :
  ∃ st'' dom t,
    undo afterPlacement = Ok st'' [MsgUndid] ∧
    board st'' = board afterFirstClick ∧
    placed st'' = placed afterFirstClick ∧
    history st'' = history afterFirstClick ∧
    solutionTiles st'' = solutionTiles afterFirstClick ∧
    dom ∈ pool afterFirstClick ∧ selectedDominoId afterFirstClick = Some (id dom) ∧
    lookupZ (solutionTiles afterFirstClick) (id dom) = Some t ∧
    a dom = cvalue (cell0 t) ∧ b dom = cvalue (cell1 t) ∧
    pool st'' = filter (λ x, id x ≠ id dom) (pool afterFirstClick) ++ [dom] ∧
    pool st'' ≡ₚ pool afterFirstClick ∧
    length (placed afterPlacement) = S (length (placed afterFirstClick)) ∧
    length (placed st'') = length (placed afterPlacement) - 1 ∧
    selectedDominoId st'' = None ∧
    selectionClicks st'' = [].
Proof.
  apply (undo_after_placement afterFirstClick 1 2 afterPlacement 1 []).
  - apply reach_click; [|vm_compute; lia..].
    apply reach_select. apply (reach_init 9 sampleRng). vm_compute. reflexivity.
  - vm_compute; lia.
  - vm_compute; lia.
  - vm_compute. reflexivity.
Defined.

(** C4, as stated, fails: laying domino 1 of [samplePuzzle] on (1,1),(1,2)
    and undoing leads to a state that is neither the state before the
    placing click (the selection and the pending click are gone) nor the
    state before the domino was selected (domino 1 moved from the second
    place of the pool to the last). *)
Lemma undo_not_identity :
  reachable afterFirstClick ∧
  onCellClick 1 2 afterFirstClick = Ok afterPlacement [MsgPlaced 1] ∧
  undo afterPlacement = Ok afterUndo [MsgUndid] ∧
  afterUndo ≠ afterFirstClick ∧
  afterUndo ≠ samplePuzzle ∧
  map id (pool samplePuzzle) = [3; 1; 4; 6; 0; 7; 5; 2]%Z ∧
  map id (pool afterUndo) = [3; 4; 6; 0; 7; 5; 2; 1]%Z.
Proof.
  split; [apply afterFirstClick_reachable|].
  split; [vm_compute; reflexivity|].
  split; [vm_compute; reflexivity|].
  split; [|split; [|split; vm_compute; reflexivity]].
  - intros E. apply (f_equal selectedDominoId) in E. vm_compute in E. discriminate.
  - intros E. apply (f_equal (λ s, map id (pool s))) in E. vm_compute in E.
    discriminate.
Qed.

(** C10. In a reachable state, an id that is neither in the pool nor among
    the placements is accepted by [onSelectDomino]; the first click on an
    empty cell is recorded as usual; the second click, on an empty adjacent
    cell, finds no such domino in the pool, sets the not-found notice and
    empties the pending clicks, leaving the selection in place and the
    board, pool, placements and history as they were. No handler raises. *)
Theorem unknown_domino_not_found st i pa r c :
  reachable st →
  i ∉ map id (pool st) → i ∉ map pid (placed st) →
  inGrid pa → r < SIZE → c < SIZE →
  get2 (board st) pa.1 pa.2 = Some None →
  get2 (board st) r c = Some None →
  areAdjacent pa (r, c) = true →
  ∃ st1,
    onSelectDomino i st = Ok st1 [MsgSelected] ∧
    selectedDominoId st1 = Some i ∧
    onCellClick pa.1 pa.2 st1 = Ok (withClicks st1 [pa]) [MsgSecondCell] ∧
    onCellClick r c (withClicks st1 [pa]) = Ok st1 [MsgNotFound] ∧
    selectionClicks st1 = [] ∧
    board st1 = board st ∧ pool st1 = pool st ∧
    placed st1 = placed st ∧ history st1 = history st.
Proof.
  intros Hreach Hpool Hplaced Hpa Hr Hc Hfa Hfb Hadj.
  pose proof (reachable_wf st Hreach) as Hwf.
  assert (Hnz : i ≠ 0%Z).
  { intros ->. destruct (wf_tiles st Hwf) as (Hlen & _).
    assert (H0 : 0%Z ∈ map id (pool st) ++ map pid (placed st)).
    { rewrite (wf_ids st Hwf), Hlen. by left. }
    apply elem_of_app in H0 as [?|?]; done. }
  assert (Hex : existsb (λ p, (pid p =? i)%Z) (placed st) = false).
  { apply not_true_iff_false. intros H. apply existsb_exists in H as (p & Hp & E).
    apply Z.eqb_eq in E. apply Hplaced. rewrite <- E.
    apply list_elem_of_fmap. exists p. split; [done|by apply list_elem_of_In]. }
  assert (Hfind : find (λ d, (id d =? i)%Z) (pool st) = None).
  { destruct (find _ (pool st)) as [d|] eqn:E; [|done].
    apply find_some in E as [Hd E]. apply Z.eqb_eq in E. exfalso. apply Hpool.
    rewrite <- E. apply list_elem_of_fmap. exists d.
    split; [done|by apply list_elem_of_In]. }
  eexists. unfold onSelectDomino. rewrite Hex.
  split; [reflexivity|]. split; [reflexivity|]. split.
  { unfold onCellClick. simpl. destruct (Z.eqb_spec i 0) as [|_]; [done|].
    rewrite Hfa. destruct pa. done. }
  split.
  { rewrite (onCellClick_second _ i pa r c); simpl; try done; [|by rewrite Hfb].
    by rewrite Hadj, Hfind. }
  done.
Qed.

Lemma unknown_domino_not_found_witness :
  ∃ st1,
    onSelectDomino (-3) samplePuzzle = Ok st1 [MsgSelected] ∧
    selectedDominoId st1 = Some (-3)%Z ∧
    onCellClick 0 0 st1 = Ok (withClicks st1 [(0, 0)]) [MsgSecondCell] ∧
    onCellClick 0 1 (withClicks st1 [(0, 0)]) = Ok st1 [MsgNotFound] ∧
    selectionClicks st1 = [] ∧
    board st1 = board samplePuzzle ∧ pool st1 = pool samplePuzzle ∧
    placed st1 = placed samplePuzzle ∧ history st1 = history samplePuzzle.
Proof.
  apply (unknown_domino_not_found samplePuzzle (-3) (0, 0) 0 1).
  - apply (reach_init 9 sampleRng). vm_compute. reflexivity.
  - apply (bool_decide_unpack _). vm_compute. exact I.
  - apply (bool_decide_unpack _). vm_compute. exact I.
  - split; vm_compute; lia.
  - vm_compute; lia.
  - vm_compute; lia.
  - reflexivity.
  - reflexivity.
  - reflexivity.
Defined.

(** The second click of a placement. In a reachable state with a domino of
    the pool selected and one cell pending, a click on an empty cell
    adjacent to the pending one places the domino: its [a] goes on the first-clicked cell and its [b] on
    the second-clicked cell, both tagged with the domino's id, every other
    cell is left alone, the placement is appended to [placed] and a
    place-action to [history], the domino is filtered out of [pool], and the
    selection and the pending clicks are cleared. *)
Theorem placement_effect st sel dom pa r c :
  reachable st →
  selectedDominoId st = Some sel →
  selectionClicks st = [pa] →
  r < SIZE → c < SIZE →
  get2 (board st) r c = Some None →
  areAdjacent pa (r, c) = true →
  find (λ d, (id d =? sel)%Z) (pool st) = Some dom →
  ∃ st' msgs,
    onCellClick r c st = Ok st' (MsgPlaced (S (length (placed st))) :: msgs) ∧
    id dom = sel ∧
    get2 (board st') pa.1 pa.2 = Some (Some {| value := a dom; dominoId := id dom |}) ∧
    get2 (board st') r c = Some (Some {| value := b dom; dominoId := id dom |}) ∧
    (∀ r' c', (r', c') ≠ pa → (r', c') ≠ (r, c) →
              get2 (board st') r' c' = get2 (board st) r' c') ∧
    placed st' = placed st ++ [{| pid := id dom; pcells := placedTile dom pa (r, c) |}] ∧
    pool st' = filter (λ x, id x ≠ id dom) (pool st) ∧
    (∀ x, x ∈ pool st' → id x ≠ id dom) ∧
    history st' = history st ++
      [{| action := APlace; hdominoId := id dom; hcells := placedTile dom pa (r, c) |}] ∧
    selectedDominoId st' = None ∧
    selectionClicks st' = [] ∧
    solutionTiles st' = solutionTiles st.
Proof.
  intros Hreach Hsel Hcl Hr Hc Hfree Hadj Hfind.
  pose proof (reachable_wf st Hreach) as Hwf.
  pose proof (wf_shape st Hwf) as Hs.
  destruct (wf_clicks st Hwf pa) as (_ & [Hpa1 Hpa2] & _ & Hnz); [rewrite Hcl; by left|].
  rewrite Hsel in Hnz. simpl in Hnz. apply Z.eqb_neq in Hnz.
  assert (Hne : pa ≠ (r, c)).
  { intros ->. by rewrite areAdjacent_irrefl in Hadj. }
  rewrite (onCellClick_second st sel pa r c Hsel Hnz Hcl) by (by rewrite Hfree).
  rewrite Hadj, Hfind. cbn [negb].
  destruct (checkCompletion_total (place st dom pa (r, c))) as [ms ->].
  { simpl. by repeat apply shape_set2. }
  { simpl. by apply wf_targets. }
  exists (place st dom pa (r, c)), ms. split; [done|].
  apply find_some in Hfind as [_ Hid]. apply Z.eqb_eq in Hid.
  split; [done|]. simpl.
  split; [|split; [|split]].
  - rewrite get2_set2_ne by (by destruct pa).
    apply get2_set2_eq. by apply get2_is_Some.
  - apply get2_set2_eq. apply get2_is_Some; [by apply shape_set2|done..].
  - intros r' c' H1 H2. rewrite !get2_set2_ne; [done|by destruct pa|done].
  - repeat split; try done.
    intros x Hx. by apply list_elem_of_filter in Hx as [Hx _].
Qed.

Lemma placement_effect_witness :
  ∃ st' msgs,
    onCellClick 1 2 afterFirstClick = Ok st' (MsgPlaced 1 :: msgs) ∧
    id (mkDomino 1 3 5) = 1%Z ∧
    get2 (board st') 1 1 = Some (be 3 1) ∧
    get2 (board st') 1 2 = Some (be 5 1) ∧
    (∀ r' c', (r', c') ≠ (1, 1) → (r', c') ≠ (1, 2) →
              get2 (board st') r' c' = get2 (board afterFirstClick) r' c') ∧
    placed st' = placed afterFirstClick ++
      [{| pid := 1; pcells := placedTile (mkDomino 1 3 5) (1, 1) (1, 2) |}] ∧
    pool st' = filter (λ x, id x ≠ 1%Z) (pool afterFirstClick) ∧
    (∀ x, x ∈ pool st' → id x ≠ 1%Z) ∧
    history st' = history afterFirstClick ++
      [{| action := APlace; hdominoId := 1;
          hcells := placedTile (mkDomino 1 3 5) (1, 1) (1, 2) |}] ∧
    selectedDominoId st' = None ∧
    selectionClicks st' = [] ∧
    solutionTiles st' = solutionTiles afterFirstClick.
Proof.
  apply (placement_effect afterFirstClick 1 (mkDomino 1 3 5) (1, 1) 1 2).
  - apply reach_click; [|vm_compute; lia..].
    apply reach_select. apply (reach_init 9 sampleRng). vm_compute. reflexivity.
  - reflexivity.
  - reflexivity.
  - vm_compute; lia.
  - vm_compute; lia.
  - reflexivity.
  - reflexivity.
  - reflexivity.
Defined.

Lemma find_by_id (l : list Domino) dom :
  NoDup (map id l) → dom ∈ l → find (λ d, (id d =? id dom)%Z) l = Some dom.
Proof.
  induction l as [|x l IH]; intros Hnd Hin; [by apply elem_of_nil in Hin|].
  simpl in Hnd. apply NoDup_cons in Hnd as [Hx Hnd]. simpl.
  apply elem_of_cons in Hin as [<-|Hin].
  - by rewrite Z.eqb_refl.
  - destruct (Z.eqb_spec (id x) (id dom)) as [E|_]; [|by apply IH].
    exfalso. apply Hx. rewrite E. apply list_elem_of_fmap. eauto.
Qed.

(** C6 (where the code departs from it). From a reachable state, selecting
    a domino of the pool and clicking two empty adjacent grid cells places
    it as the claim says (first pip on the first-clicked cell, second pip on
    the second-clicked one, both tagged with its id, appended to [placed]
    and [history], filtered out of [pool], selection and pending clicks
    cleared) when its id is not 0. When its id is 0 both clicks are turned
    down with the select-a-domino notice and nothing is placed: the board,
    the pool, the placements and the history stay as they were. *)
Theorem placement_by_selected_domino st dom pa pb :
  reachable st → dom ∈ pool st →
  inGrid pa → inGrid pb →
  get2 (board st) pa.1 pa.2 = Some None →
  get2 (board st) pb.1 pb.2 = Some None →
  areAdjacent pa pb = true →
  ∃ st1 st2 st3 m1 m2,
    onSelectDomino (id dom) st = Ok st1 [MsgSelected] ∧
    onCellClick pa.1 pa.2 st1 = Ok st2 m1 ∧
    onCellClick pb.1 pb.2 st2 = Ok st3 m2 ∧
    (id dom = 0%Z →
       m1 = [MsgSelectFirst] ∧ m2 = [MsgSelectFirst] ∧
       board st3 = board st ∧ pool st3 = pool st ∧
       placed st3 = placed st ∧ history st3 = history st ∧
       selectedDominoId st3 = Some 0%Z ∧ selectionClicks st3 = []) ∧
    (id dom ≠ 0%Z →
       m1 = [MsgSecondCell] ∧
       (∃ ms, m2 = MsgPlaced (S (length (placed st))) :: ms) ∧
       get2 (board st3) pa.1 pa.2
         = Some (Some {| value := a dom; dominoId := id dom |}) ∧
       get2 (board st3) pb.1 pb.2
         = Some (Some {| value := b dom; dominoId := id dom |}) ∧
       (∀ x, x ≠ pa → x ≠ pb → get2 (board st3) x.1 x.2 = get2 (board st) x.1 x.2) ∧
       placed st3 = placed st ++ [{| pid := id dom; pcells := placedTile dom pa pb |}] ∧
       pool st3 = filter (λ x, id x ≠ id dom) (pool st) ∧
       history st3 = history st ++
         [{| action := APlace; hdominoId := id dom; hcells := placedTile dom pa pb |}] ∧
       selectedDominoId st3 = None ∧ selectionClicks st3 = []).
Proof.
  intros Hreach Hdom Hpa Hpb Hfa Hfb Hadj.
  pose proof (reachable_wf st Hreach) as Hwf.
  pose proof (wf_ids_NoDup st Hwf) as Hnd.
  apply NoDup_app in Hnd as (Hndp & Hdisj & _).
  assert (Hex : existsb (λ p, (pid p =? id dom)%Z) (placed st) = false).
  { apply not_true_iff_false. intros H. apply existsb_exists in H as (p & Hp & E).
    apply Z.eqb_eq in E. apply (Hdisj (id dom)).
    - apply list_elem_of_fmap. eauto.
    - rewrite <- E. apply list_elem_of_fmap. exists p.
      split; [done|by apply list_elem_of_In]. }
  pose proof (reach_select st (id dom) Hreach) as Hreach1.
  unfold onSelectDomino in *. rewrite Hex in *. simpl in Hreach1.
  eexists. destruct (decide (id dom = 0%Z)) as [Hz|Hnz].
  - eexists _, _, _, _. split; [reflexivity|].
    split; [unfold onCellClick; simpl; rewrite ?Hz; reflexivity|].
    split; [unfold onCellClick; simpl; rewrite ?Hz; reflexivity|].
    split; [|done]. intros _. simpl. by rewrite ?Hz.
  - destruct pa as [ra ca], pb as [rb cb]. simpl in Hfa, Hfb.
    destruct Hpa as [Hra Hca], Hpb as [Hrb Hcb]. simpl in Hra, Hca, Hrb, Hcb.
    match type of Hreach1 with reachable ?s => set (st1 := s) in * end.
    assert (Hclick1 : onCellClick ra ca st1 = Ok (withClicks st1 [(ra, ca)]) [MsgSecondCell]).
    { unfold onCellClick, st1. simpl. destruct (Z.eqb_spec (id dom) 0) as [|_]; [done|].
      by rewrite Hfa. }
    pose proof (reach_click st1 ra ca Hreach1 Hra Hca) as Hreach2.
    rewrite Hclick1 in Hreach2. simpl in Hreach2.
    destruct (placement_effect (withClicks st1 [(ra, ca)]) (id dom) dom (ra, ca) rb cb)
      as (st3 & ms & Hclick2 & _ & Hga & Hgb & Hother & Hpl & Hpool & _ & Hhist & Hs & Hc & _);
      try done.
    { simpl. by apply find_by_id. }
    exists (withClicks st1 [(ra, ca)]), st3, [MsgSecondCell],
           (MsgPlaced (S (length (placed st))) :: ms).
    split; [reflexivity|]. split; [exact Hclick1|]. split; [exact Hclick2|].
    split; [done|]. intros _. simpl in *.
    split; [done|]. split; [eauto|]. do 2 (split; [done|]).
    split; [intros [r c] H1 H2; by apply Hother|]. done.
Qed.

Lemma placement_by_selected_domino_witness :
  ∃ st1 st2 st3 m1 m2,
    onSelectDomino 0 zeroPuzzle = Ok st1 [MsgSelected] ∧
    onCellClick 1 1 st1 = Ok st2 m1 ∧
    onCellClick 1 2 st2 = Ok st3 m2 ∧
    (0%Z = 0%Z →
       m1 = [MsgSelectFirst] ∧ m2 = [MsgSelectFirst] ∧
       board st3 = board zeroPuzzle ∧ pool st3 = pool zeroPuzzle ∧
       placed st3 = placed zeroPuzzle ∧ history st3 = history zeroPuzzle ∧
       selectedDominoId st3 = Some 0%Z ∧ selectionClicks st3 = []) ∧
    (0%Z ≠ 0%Z →
       m1 = [MsgSecondCell] ∧
       (∃ ms, m2 = MsgPlaced (S (length (placed zeroPuzzle))) :: ms) ∧
       get2 (board st3) 1 1 = Some (be 3 0) ∧
       get2 (board st3) 1 2 = Some (be 5 0) ∧
       (∀ x : nat * nat, x ≠ (1, 1) → x ≠ (1, 2) →
             get2 (board st3) x.1 x.2 = get2 (board zeroPuzzle) x.1 x.2) ∧
       placed st3 = placed zeroPuzzle ++
         [{| pid := 0; pcells := placedTile (mkDomino 0 3 5) (1, 1) (1, 2) |}] ∧
       pool st3 = filter (λ x, id x ≠ 0%Z) (pool zeroPuzzle) ∧
       history st3 = history zeroPuzzle ++
         [{| action := APlace; hdominoId := 0;
             hcells := placedTile (mkDomino 0 3 5) (1, 1) (1, 2) |}] ∧
       selectedDominoId st3 = None ∧ selectionClicks st3 = []).
Proof.
  apply (placement_by_selected_domino zeroPuzzle (mkDomino 0 3 5) (1, 1) (1, 2)).
  - apply (reach_init 9 zeroRng). vm_compute. reflexivity.
  - apply list_elem_of_In. simpl. do 4 right. left. reflexivity.
  - split; vm_compute; lia.
  - split; vm_compute; lia.
  - reflexivity.
  - reflexivity.
  - reflexivity.
Defined.

(** C7. In a reachable state with a domino selected and one cell pending,
    a click on an empty cell that is not at Manhattan distance 1 from the
    pending one sets the not-adjacent notice and empties the pending clicks;
    the selected domino, the board, the pool, the placements and the history
    stay as they were. *)
Theorem nonadjacent_click_rejected st sel pa r c :
  reachable st →
  selectedDominoId st = Some sel →
  selectionClicks st = [pa] →
  get2 (board st) r c = Some None →
  (Z.abs (Z.of_nat pa.1 - Z.of_nat r) + Z.abs (Z.of_nat pa.2 - Z.of_nat c) ≠ 1)%Z →
  ∃ st',
    onCellClick r c st = Ok st' [MsgNotAdjacent] ∧
    selectionClicks st' = [] ∧
    selectedDominoId st' = Some sel ∧
    board st' = board st ∧ pool st' = pool st ∧
    placed st' = placed st ∧ history st' = history st ∧
    solutionTiles st' = solutionTiles st.
Proof.
  intros Hreach Hsel Hcl Hfree Hdist.
  pose proof (reachable_wf st Hreach) as Hwf.
  destruct (wf_clicks st Hwf pa) as (_ & _ & _ & Hnz); [rewrite Hcl; by left|].
  rewrite Hsel in Hnz. simpl in Hnz. apply Z.eqb_neq in Hnz.
  rewrite (onCellClick_second st sel pa r c Hsel Hnz Hcl) by (by rewrite Hfree).
  destruct (areAdjacent pa (r, c)) eqn:Hadj.
  - apply areAdjacent_spec in Hadj. done.
  - eexists. split; [reflexivity|]. simpl. by rewrite Hsel.
Qed.

Lemma nonadjacent_click_rejected_witness :
  ∃ st',
    onCellClick 1 3 afterFirstClick = Ok st' [MsgNotAdjacent] ∧
    selectionClicks st' = [] ∧
    selectedDominoId st' = Some 1%Z ∧
    board st' = board afterFirstClick ∧ pool st' = pool afterFirstClick ∧
    placed st' = placed afterFirstClick ∧ history st' = history afterFirstClick ∧
    solutionTiles st' = solutionTiles afterFirstClick.
Proof.
  apply (nonadjacent_click_rejected afterFirstClick 1 (1, 1) 1 3).
  - apply reach_click; [|vm_compute; lia..].
    apply reach_select. apply (reach_init 9 sampleRng). vm_compute. reflexivity.
  - reflexivity.
  - reflexivity.
  - reflexivity.
  - vm_compute. discriminate.
Defined.

(** * Further properties *)

(** ** Utilities *)

Lemma shuffleFrom_rng {A} n :
  ∀ (l : list A) g k, (shuffleFrom n l g).2 k = g (k + n).
Proof.
  induction n as [|n IH]; intros l g k.
  - simpl. by rewrite Nat.add_0_r.
  - cbn [shuffleFrom]. unfold randBelow, random.
    rewrite IH. f_equal. lia.
Qed.

(** X1. [shuffleArray] rearranges: its result has the elements of its
    argument, each as often as before (so also the same length), and it
    takes exactly [length - 1] values from [Math.random()] (none for an
    empty or one-element array). *)
Theorem shuffleArray_rearranges {A} (l : list A) g :
  (shuffleArray l g).1 ≡ₚ l ∧
  length (shuffleArray l g).1 = length l ∧
  ∀ k, (shuffleArray l g).2 k = g (k + (length l - 1)).
Proof.
  split; [apply shuffleFrom_Permutation|]. split.
  - apply Permutation_length, shuffleFrom_Permutation.
  - intros k. apply shuffleFrom_rng.
Qed.


(** X3. [areAdjacent] does not depend on the order of its two cells, is
    false for a cell and itself, and holds exactly for two cells that differ
    by 1 in one coordinate and agree in the other. *)
Theorem areAdjacent_symmetric_irreflexive p q :
  areAdjacent p q = areAdjacent q p ∧
  areAdjacent p p = false ∧
  (areAdjacent p q = true ↔ gridAdjacent p q).
Proof.
  split; [|split; [apply areAdjacent_irrefl|apply areAdjacent_grid]].
  unfold areAdjacent. f_equal. lia.
Qed.

(** ** Tiling generator *)

Lemma find_first {A} (f : A → bool) (l : list A) x :
  find f l = Some x →
  ∃ l1 l2, l = l1 ++ x :: l2 ∧ f x = true ∧ Forall (λ y, f y = false) l1.
Proof.
  induction l as [|y l IH]; [done|]. simpl.
  destruct (f y) eqn:Hy.
  - intros [= ->]. exists [], l. done.
  - intros H. destruct (IH H) as (l1 & l2 & -> & Hx & Hl1).
    exists (y :: l1), l2. split; [done|]. split; [done|]. by constructor.
Qed.

#[local] Instance rowMajorBefore_dec : RelDecision rowMajorBefore.
Proof. intros p q. unfold rowMajorBefore. apply _. Defined.

Lemma all_cells_sorted : StronglySorted rowMajorBefore all_cells.
Proof.
  apply (bool_decide_unpack (StronglySorted rowMajorBefore all_cells)).
  vm_compute. exact I.
Qed.

Lemma findFirstEmpty_before g p q :
  findFirstEmpty g = Some p → inGrid q → rowMajorBefore q p → isEmptyAt g q = false.
Proof.
  intros Hp Hq Hlt.
  apply find_first in Hp as (l1 & l2 & Hl & _ & Hl1).
  pose proof all_cells_sorted as Hs. rewrite Hl in Hs.
  apply all_cells_spec in Hq. rewrite Hl in Hq.
  apply elem_of_app in Hq as [Hq|Hq].
  - rewrite Forall_forall in Hl1. by apply Hl1.
  - apply StronglySorted_app_1_r, StronglySorted_cons in Hs as [Hs _].
    rewrite Forall_forall in Hs.
    apply elem_of_cons in Hq as [->|Hq]; unfold rowMajorBefore in *; [lia|].
    specialize (Hs q Hq). lia.
Qed.

(** X4. [findFirstEmpty] returns the first empty cell in row-major order:
    the cell it returns is in the grid and empty and every grid cell before
    it is occupied; it returns [null] exactly when no grid cell is empty. *)
Theorem findFirstEmpty_row_major g :
  (∀ p, findFirstEmpty g = Some p →
        inGrid p ∧ isEmptyAt g p = true ∧
        ∀ q, inGrid q → rowMajorBefore q p → isEmptyAt g q = false) ∧
  (findFirstEmpty g = None ↔ ∀ q, inGrid q → isEmptyAt g q = false).
Proof.
  split.
  - intros p Hp. destruct (findFirstEmpty_Some g p Hp) as [Hin He].
    do 2 (split; [done|]). intros q Hq Hlt. by eapply findFirstEmpty_before.
  - split; [intros H q Hq; by apply findFirstEmpty_None|].
    intros H. destruct (findFirstEmpty g) as [p|] eqn:E; [|done].
    apply findFirstEmpty_Some in E as [Hp He]. rewrite (H p Hp) in He. done.
Qed.

Lemma tryDirs_prefix rec r c :
  recSpec rec →
  (∀ st res, genInv (g_cells st) (g_tiles st) → rec st = Some res → res.1 = true →
             ∃ new, g_tiles res.2 = g_tiles st ++ new) →
  inGrid (r, c) →
  ∀ ds st res,
    Forall isDir ds →
    genInv (g_cells st) (g_tiles st) →
    isEmptyAt (g_cells st) (r, c) = true →
    tryDirs rec r c ds st = Some res → res.1 = true →
    ∃ new, g_tiles res.2 = g_tiles st ++ new.
Proof.
  intros Hrec Hpre Hrc ds.
  induction ds as [|d ds IH]; intros st res Hds Hinv He Hrun Hok.
  - simpl in Hrun. by inversion Hrun; subst.
  - apply Forall_cons in Hds as [Hd Hds]. cbn [tryDirs] in Hrun.
    destruct ((r + dr d <? SIZE) && (c + dc d <? SIZE)
              && isEmptyAt (g_cells st) (r + dr d, c + dc d)) eqn:Hfeas.
    + pose proof (randInt_range 1 6 (g_rng st) ltac:(lia)) as Hv1.
      destruct (randInt 1 6 (g_rng st)) as [v1 g1].
      pose proof (randInt_range 1 6 g1 ltac:(lia)) as Hv2.
      destruct (randInt 1 6 g1) as [v2 g2]. cbn [fst] in Hv1, Hv2.
      pose proof (genInv_place _ _ r c d v1 v2 Hinv Hrc Hd He Hfeas Hv1 Hv2) as Hinv1.
      match type of Hrun with
      | context [rec ?s] => destruct (rec s) as [[[] st1]|] eqn:Hcall; [| |done]
      end.
      * inversion Hrun; subst.
        pose proof (λ H, Hpre _ (true, st1) H Hcall eq_refl) as Hn.
        destruct (Hn Hinv1) as [new Hnew]. simpl in Hnew.
        rewrite <- app_assoc in Hnew. eauto.
      * apply Hrec in Hcall; [|done]. destruct Hcall as [Hc1 Ht1]; simpl in Hc1, Ht1.
        apply andb_prop in Hfeas as [Hb He'].
        apply andb_prop in Hb as [Hnr Hnc]. apply Nat.ltb_lt in Hnr, Hnc.
        assert (Hback :
          set2 (set2 (g_cells st1) r c false) (r + dr d) (c + dc d) false = g_cells st).
        { rewrite Hc1.
          apply (backtrack_restore (g_cells st) (r, c) (r + dr d, c + dc d));
            try done. apply Hinv. }
        apply IH in Hrun; try done; simpl.
        -- rewrite Ht1, removelast_last in Hrun. done.
        -- rewrite Hback, Ht1, removelast_last. done.
        -- by rewrite Hback.
    + by apply IH in Hrun.
Qed.

Lemma tryPlace_prefix fuel :
  ∀ st res, genInv (g_cells st) (g_tiles st) → tryPlace fuel st = Some res →
            res.1 = true → ∃ new, g_tiles res.2 = g_tiles st ++ new.
Proof.
  induction fuel as [|fuel IH]; intros st res Hinv Hrun Hok; [done|].
  cbn [tryPlace] in Hrun.
  destruct (findFirstEmpty (g_cells st)) as [[r c]|] eqn:Hfind.
  - apply findFirstEmpty_Some in Hfind as [Hrc He].
    pose proof (shuffle_two {| dr := 0; dc := 1 |} {| dr := 1; dc := 0 |} (g_rng st)) as Hsh.
    fold DIRS in Hsh.
    destruct (shuffleArray DIRS (g_rng st)) as [dirs g1]. cbn [fst] in Hsh.
    eapply (tryDirs_prefix _ r c (tryPlace_spec fuel) IH Hrc) in Hrun; try done.
    destruct Hsh as [-> | ->]; repeat constructor; unfold isDir; simpl; lia.
  - inversion Hrun; subst. exists []. by rewrite app_nil_r.
Qed.

Lemma genInv_length g ts : genInv g ts → length ts ≤ 8.
Proof.
  intros (_ & Hnd & Hgood & _).
  assert (Hsub : positions ts ⊆+ all_cells).
  { apply NoDup_submseteq; [done|]. intros p Hp.
    apply all_cells_spec. by eapply positions_inGrid. }
  apply submseteq_length in Hsub. rewrite length_positions in Hsub.
  change (length all_cells) with 16 in Hsub. lia.
Qed.

Lemma tryDirs_total rec r c k :
  recSpec rec →
  (∀ st, genInv (g_cells st) (g_tiles st) → k ≤ length (g_tiles st) →
         ∃ res, rec st = Some res) →
  inGrid (r, c) →
  ∀ ds st,
    Forall isDir ds →
    genInv (g_cells st) (g_tiles st) →
    isEmptyAt (g_cells st) (r, c) = true →
    k ≤ length (g_tiles st) + 1 →
    ∃ res, tryDirs rec r c ds st = Some res.
Proof.
  intros Hrec Htot Hrc ds.
  induction ds as [|d ds IH]; intros st Hds Hinv He Hk.
  - simpl. eauto.
  - apply Forall_cons in Hds as [Hd Hds]. cbn [tryDirs].
    destruct ((r + dr d <? SIZE) && (c + dc d <? SIZE)
              && isEmptyAt (g_cells st) (r + dr d, c + dc d)) eqn:Hfeas;
      [|by apply IH].
    pose proof (randInt_range 1 6 (g_rng st) ltac:(lia)) as Hv1.
    destruct (randInt 1 6 (g_rng st)) as [v1 g1].
    pose proof (randInt_range 1 6 g1 ltac:(lia)) as Hv2.
    destruct (randInt 1 6 g1) as [v2 g2]. cbn [fst] in Hv1, Hv2.
    pose proof (genInv_place _ _ r c d v1 v2 Hinv Hrc Hd He Hfeas Hv1 Hv2) as Hinv1.
    match goal with
    | |- context [rec ?s] =>
        destruct (Htot s) as [[[] st1] Hcall];
          [exact Hinv1|simpl; rewrite length_app; simpl; lia| |]; rewrite Hcall
    end; [eauto|].
    apply Hrec in Hcall; [|done]. destruct Hcall as [Hc1 Ht1]; simpl in Hc1, Ht1.
    apply andb_prop in Hfeas as [Hb He'].
    apply andb_prop in Hb as [Hnr Hnc]. apply Nat.ltb_lt in Hnr, Hnc.
    assert (Hback :
      set2 (set2 (g_cells st1) r c false) (r + dr d) (c + dc d) false = g_cells st).
    { rewrite Hc1.
      apply (backtrack_restore (g_cells st) (r, c) (r + dr d, c + dc d));
        try done. apply Hinv. }
    apply IH; try done; simpl; rewrite ?Hback, ?Ht1, ?removelast_last; done.
Qed.

(** With fuel for the tiles still to come, [tryPlace] returns. *)
Lemma tryPlace_total fuel :
  ∀ st, genInv (g_cells st) (g_tiles st) → 9 ≤ fuel + length (g_tiles st) →
        ∃ res, tryPlace fuel st = Some res.
Proof.
  induction fuel as [|fuel IH]; intros st Hinv Hk.
  - apply genInv_length in Hinv. simpl in Hk. lia.
  - cbn [tryPlace].
    destruct (findFirstEmpty (g_cells st)) as [[r c]|] eqn:Hfind; [|eauto].
    apply findFirstEmpty_Some in Hfind as [Hrc He].
    pose proof (shuffle_two {| dr := 0; dc := 1 |} {| dr := 1; dc := 0 |} (g_rng st)) as Hsh.
    fold DIRS in Hsh.
    destruct (shuffleArray DIRS (g_rng st)) as [dirs g1]. cbn [fst] in Hsh.
    apply (tryDirs_total _ r c (9 - fuel) (tryPlace_spec fuel)); try done.
    + intros st' Hinv' Hk'. apply IH; [done|lia].
    + destruct Hsh as [-> | ->]; repeat constructor; unfold isDir; simpl; lia.
    + simpl. lia.
Qed.

Lemma stuckGen_inv : genInv (g_cells stuckGen) (g_tiles stuckGen).
Proof.
  split; [split; [reflexivity|repeat constructor]|].
  split; [apply (bool_decide_unpack _); vm_compute; exact I|].
  split.
  - repeat constructor; simpl; unfold SIZE; lia.
  - intros [r c] [Hr Hc]. simpl in Hr, Hc. unfold SIZE in *.
    do 4 (destruct r as [|r]; [do 4 (destruct c as [|c];
      [split; [intros H; try discriminate H; apply list_elem_of_In; vm_compute; tauto
              |intros H; apply list_elem_of_In in H; vm_compute in H;
               try reflexivity;
               repeat (destruct H as [H|H]; [discriminate H|]); destruct H]|]); lia|]).
    lia.
Qed.

(** X5. A call of [tryPlace] on an occupancy array that marks exactly the
    cells of the tiles found so far returns (one level of recursion per
    tile still to come is enough), and it either returns [false] and leaves
    [cells] and [tiles] exactly as they were (the backtracking undoes every
    tentative placement), or returns [true] with every grid cell marked and
    [tiles] a complete valid tiling that keeps the earlier tiles, in order,
    as its first ones. *)
Theorem tryPlace_backtracks fuel st :
  genInv (g_cells st) (g_tiles st) →
  9 ≤ fuel + length (g_tiles st) →
  ∃ res,
    tryPlace fuel st = Some res ∧
    if res.1 then
      (∀ p, inGrid p → isEmptyAt (g_cells res.2) p = false) ∧
      validTiling (g_tiles res.2) ∧
      ∃ new, g_tiles res.2 = g_tiles st ++ new
    else g_cells res.2 = g_cells st ∧ g_tiles res.2 = g_tiles st.
Proof.
  intros Hinv Hk. destruct (tryPlace_total fuel st Hinv Hk) as [res Hrun].
  exists res. split; [done|].
  pose proof (tryPlace_spec fuel st res Hinv Hrun) as Hpost.
  unfold tryPlacePost in Hpost. destruct res as [[] st']; simpl in *; [|done].
  destruct Hpost as [Hinv' Hfull]. split; [|split].
  - intros p Hp. by apply findFirstEmpty_None.
  - by eapply full_valid.
  - by apply (tryPlace_prefix fuel st (true, st')).
Qed.

Lemma tryPlace_backtracks_witness :
  tryPlace 9 stuckGen = Some (false, stuckGen) ∧
  ∃ res,
    tryPlace 9 stuckGen = Some res ∧
    if res.1 then
      (∀ p, inGrid p → isEmptyAt (g_cells res.2) p = false) ∧
      validTiling (g_tiles res.2) ∧
      ∃ new, g_tiles res.2 = g_tiles stuckGen ++ new
    else g_cells res.2 = g_cells stuckGen ∧ g_tiles res.2 = g_tiles stuckGen.
Proof.
  split; [vm_compute; reflexivity|].
  apply (tryPlace_backtracks 9 stuckGen).
  - apply stuckGen_inv.
  - simpl. lia.
Defined.

(** ** Target calculator *)

Lemma writeCells_content xs :
  ∀ b b', shape b →
    Forall (λ x, inGrid (cellPos x)) xs →
    NoDup (map cellPos xs) →
    writeCells b xs = Some b' →
    (∀ x, x ∈ xs → numAt b' (cellPos x) = cvalue x) ∧
    (∀ p, p ∉ map cellPos xs → numAt b' p = numAt b p).
Proof.
  induction xs as [|x xs IH]; intros b b' Hs Hin Hnd Hrun.
  - simpl in Hrun. injection Hrun as <-. split; [|done].
    intros x Hx. by apply elem_of_nil in Hx.
  - apply Forall_cons in Hin as [[Hr Hc] Hin]. simpl in Hr, Hc.
    simpl in Hnd. apply NoDup_cons in Hnd as [Hx Hnd].
    rewrite writeCells_cons in Hrun. unfold writeCell in Hrun.
    destruct (Nat.ltb_spec (cr x) SIZE) as [_|?]; [|lia].
    destruct (IH _ _ (shape_set2 b (cr x) (cc x) (Some (cvalue x)) Hs) Hin Hnd Hrun)
      as [Hval Hother].
    split.
    + intros y Hy. apply elem_of_cons in Hy as [->|Hy]; [|by apply Hval].
      rewrite Hother by done. unfold numAt, cellPos. simpl.
      rewrite get2_set2_eq by (by apply get2_is_Some). done.
    + intros p Hp. simpl in Hp. apply not_elem_of_cons in Hp as [Hne Hp].
      rewrite Hother by done. unfold numAt.
      rewrite get2_set2_ne; [done|]. destruct p. done.
Qed.

Lemma foldl_add {A} (f : A → Z) (l : list A) :
  ∀ z, foldl (λ s p, (s + f p)%Z) z l = (z + sumZ (map f l))%Z.
Proof.
  induction l as [|x l IH]; intros z; simpl; [unfold sumZ; simpl; lia|].
  rewrite IH. unfold sumZ. simpl. lia.
Qed.

Lemma sumZ_Permutation l k : l ≡ₚ k → sumZ l = sumZ k.
Proof.
  unfold sumZ. induction 1; simpl; lia.
Qed.

Lemma blockCells_facts i bl :
  BLOCKS !! i = Some bl →
  NoDup (blockCells bl) ∧ length (blockCells bl) = 4 ∧
  ∀ p, p ∈ blockCells bl → inGrid p.
Proof.
  intros Hbl.
  assert (Hcase : bl ∈ BLOCKS) by (by eapply list_elem_of_lookup_2).
  unfold BLOCKS in Hcase. rewrite !elem_of_cons, elem_of_nil in Hcase.
  destruct Hcase as [->|[->|[->|[->|[]]]]];
    (split; [apply (bool_decide_unpack _); vm_compute; exact I|]);
    (split; [reflexivity|]);
    intros p Hp; apply list_elem_of_In in Hp; simpl in Hp;
    repeat (destruct Hp as [<-|Hp]; [split; simpl; unfold SIZE; lia|]); done.
Qed.

(** X6. For a valid tiling, each of the four targets is the sum of the pip
    values of the four tile cells that lie in its block, whatever the order
    of the tiles; so every target is between 4 and 24. *)
Theorem targets_are_block_pip_sums tiles :
  validTiling tiles →
  ∃ targets,
    computeBlockTargetsFromTiles tiles = Some targets ∧
    ∀ i bl, BLOCKS !! i = Some bl →
      length (cellsIn bl tiles) = 4 ∧
      targets !! i = Some (sumZ (map cvalue (cellsIn bl tiles))) ∧
      (4 ≤ sumZ (map cvalue (cellsIn bl tiles)) ≤ 24)%Z.
Proof.
  intros (_ & Hperm & _ & Hpips). unfold computeBlockTargetsFromTiles.
  set (L := concat (map cells tiles)).
  assert (HL : map cellPos L ≡ₚ all_cells) by exact Hperm.
  assert (Hnd : NoDup (map cellPos L)) by (rewrite HL; apply NoDup_all_cells).
  assert (Hin : Forall (λ x, inGrid (cellPos x)) L).
  { apply Forall_forall. intros x Hx. apply all_cells_spec. rewrite <- HL.
    apply list_elem_of_fmap. eauto. }
  assert (HpipsL : Forall (λ x, (1 ≤ cvalue x ≤ 6)%Z) L).
  { apply Forall_forall. intros x Hx. unfold L in Hx.
    apply list_elem_of_In, in_concat in Hx as (l & Hl & Hx).
    apply in_map_iff in Hl as (t & <- & Ht).
    rewrite Forall_forall in Hpips.
    destruct (Hpips t) as [H0 H1]; [by apply list_elem_of_In|].
    destruct Hx as [<-|[<-|[]]]; done. }
  destruct (writeCells_total L createEmptyBoard (shape_make None) Hin Hnd)
    as (b & Hb & Hs & _).
  { intros x Hx. destruct (proj1 (Forall_forall _ _) Hin x Hx) as [Hr Hc].
    unfold numAt, createEmptyBoard. by rewrite get2_make. }
  rewrite Hb. eexists. split; [reflexivity|]. intros i bl Hbl.
  destruct (writeCells_content L _ _ (shape_make None) Hin Hnd Hb) as [Hval _].
  destruct (blockCells_facts i bl Hbl) as (Hndb & Hlenb & Hgrid).
  assert (Hpb : map cellPos (cellsIn bl tiles) ≡ₚ blockCells bl).
  { apply NoDup_Permutation; [|done|].
    - eapply sublist_NoDup; [exact Hnd|].
      apply fmap_sublist, sublist_filter.
    - intros p. unfold cellsIn. fold L. rewrite list_elem_of_fmap. split.
      + intros (x & -> & Hx). by apply list_elem_of_filter in Hx as [? _].
      + intros Hp. assert (Hp' : p ∈ map cellPos L).
        { rewrite HL. by apply all_cells_spec, Hgrid. }
        apply list_elem_of_fmap in Hp' as (x & -> & Hx).
        exists x. split; [done|]. by apply list_elem_of_filter. }
  assert (Hlen : length (cellsIn bl tiles) = 4).
  { rewrite <- Hlenb, <- (Permutation_length Hpb). by rewrite length_map. }
  assert (Hsum : targetOf b bl = sumZ (map cvalue (cellsIn bl tiles))).
  { unfold targetOf. rewrite foldl_add, Z.add_0_l.
    rewrite <- (sumZ_Permutation _ _ (Permutation_map (numAt b) Hpb)).
    rewrite map_map. f_equal. apply map_ext_in. intros x Hx.
    apply Hval. apply list_elem_of_In in Hx.
    unfold cellsIn in Hx. fold L in Hx. by apply list_elem_of_filter in Hx as [_ ?]. }
  split; [done|]. split.
  - change (map ?f ?l !! i) with ((f <$> l) !! i).
    rewrite list_lookup_fmap, Hbl. simpl. by rewrite Hsum.
  - assert (Hr : Forall (λ x, (1 ≤ cvalue x ≤ 6)%Z) (cellsIn bl tiles)).
    { apply Forall_forall. intros x Hx. unfold cellsIn in Hx. fold L in Hx.
      apply list_elem_of_filter in Hx as [_ Hx].
      by apply (proj1 (Forall_forall _ _) HpipsL). }
    destruct (cellsIn bl tiles) as [|x0 [|x1 [|x2 [|x3 [|]]]]]; try done.
    rewrite !Forall_cons in Hr. unfold sumZ. simpl. lia.
Qed.

Lemma targets_are_block_pip_sums_witness :
  ∃ targets,
    computeBlockTargetsFromTiles sampleTiling = Some targets ∧
    ∀ i bl, BLOCKS !! i = Some bl →
      length (cellsIn bl sampleTiling) = 4 ∧
      targets !! i = Some (sumZ (map cvalue (cellsIn bl sampleTiling))) ∧
      (4 ≤ sumZ (map cvalue (cellsIn bl sampleTiling)) ≤ 24)%Z.
Proof.
  apply (targets_are_block_pip_sums sampleTiling).
  apply (generatedTiles_valid 9 sampleRng). vm_compute. reflexivity.
Defined.

(** ** New puzzle *)

(** X7. Whatever the random stream, [initPuzzle] (and so [restart]) returns:
    the solution is a valid tiling, the targets handed to the display are
    the four targets of that solution, the pool holds the eight dominoes of
    the solution (domino [i] with the two pip values of tile [i]) in some
    order, and nothing is placed, selected, pending or recorded, on an
    all-empty board. *)
Theorem initPuzzle_fresh fuel g :
  9 ≤ fuel →
  ∃ st targets g',
    initPuzzle fuel g = Ret (st, targets, g') ∧
    restart fuel g = Ret (st, targets, g') ∧
    validTiling (solutionTiles st) ∧
    computeBlockTargetsFromTiles (solutionTiles st) = Some targets ∧
    length targets = 4 ∧
    pool st ≡ₚ dominoesOf (solutionTiles st) ∧
    length (pool st) = 8 ∧
    placed st = [] ∧ history st = [] ∧
    selectedDominoId st = None ∧ selectionClicks st = [] ∧
    board st = createEmptyBoard.
Proof.
  intros Hf. unfold restart, initPuzzle.
  destruct (generate_returns fuel g Hf) as [[tiling g1] Hgen]. rewrite Hgen.
  pose proof (generate_valid fuel g _ Hgen) as Hvalid. simpl in Hvalid.
  destruct Hvalid as (Hlen & Hperm & Hadj & Hpips).
  destruct (targets_sum tiling Hperm) as (targets & Htg & Hl4 & _). rewrite Htg.
  pose proof (shuffleArray_Permutation (dominoesOf tiling) g1) as Hsh.
  unfold dominoesOf in Hsh.
  destruct (shuffleArray _ g1) as [pool0 g2]. cbn [fst] in Hsh.
  eexists _, targets, g2. split; [reflexivity|]. split; [reflexivity|]. simpl.
  split; [done|]. do 2 (split; [done|]). split; [done|]. split; [|done].
  rewrite (Permutation_length Hsh), length_imap. done.
Qed.

Lemma initPuzzle_fresh_witness :
  ∃ st targets g',
    initPuzzle 9 sampleRng = Ret (st, targets, g') ∧
    restart 9 sampleRng = Ret (st, targets, g') ∧
    validTiling (solutionTiles st) ∧
    computeBlockTargetsFromTiles (solutionTiles st) = Some targets ∧
    length targets = 4 ∧
    pool st ≡ₚ dominoesOf (solutionTiles st) ∧
    length (pool st) = 8 ∧
    placed st = [] ∧ history st = [] ∧
    selectedDominoId st = None ∧ selectionClicks st = [] ∧
    board st = createEmptyBoard.
Proof. apply (initPuzzle_fresh 9 sampleRng). lia. Defined.

(** ** Event handlers, case by case *)

Lemma onCellClick_cases st r c :
  wf st → r < SIZE → c < SIZE →
  (noSelection (selectedDominoId st) = true ∧
     onCellClick r c st = Ok st [MsgSelectFirst]) ∨
  (noSelection (selectedDominoId st) = false ∧
     (∃ e, get2 (board st) r c = Some (Some e)) ∧
     onCellClick r c st = Ok st [MsgOccupied]) ∨
  (noSelection (selectedDominoId st) = false ∧
     get2 (board st) r c = Some None ∧
     ∃ cl m, cl ≠ selectionClicks st ∧
             onCellClick r c st = Ok (withClicks st cl) [m] ∧
             (m = MsgSecondCell ∨ m = MsgNotAdjacent ∨ m = MsgNotFound)) ∨
  (noSelection (selectedDominoId st) = false ∧
     get2 (board st) r c = Some None ∧
     ∃ pa dom ms,
       selectedDominoId st = Some (id dom) ∧ id dom ≠ 0%Z ∧
       selectionClicks st = [pa] ∧ inGrid pa ∧
       get2 (board st) pa.1 pa.2 = Some None ∧
       areAdjacent pa (r, c) = true ∧ dom ∈ pool st ∧
       checkCompletion (place st dom pa (r, c)) = Some ms ∧
       onCellClick r c st =
         Ok (place st dom pa (r, c)) (MsgPlaced (S (length (placed st))) :: ms)).
Proof.
  intros Hwf Hr Hc. pose proof (wf_shape st Hwf) as Hs.
  destruct (noSelection (selectedDominoId st)) eqn:Hsel.
  { left. unfold onCellClick. by rewrite Hsel. }
  right.
  destruct (get2_is_Some (board st) r c Hs Hr Hc) as [[e|] Hget].
  { left. split; [done|]. split; [eauto|]. unfold onCellClick. by rewrite Hsel, Hget. }
  right.
  assert (Hfree : mjoin (get2 (board st) r c) = None) by (by rewrite Hget).
  destruct (selectedDominoId st) as [sel|] eqn:Hsome; [|done].
  simpl in Hsel. pose proof Hsel as Hsel'. apply Z.eqb_neq in Hsel.
  destruct (selectionClicks st) as [|pa rest] eqn:Hcl.
  - left. do 2 (split; [done|]). exists [(r, c)], MsgSecondCell.
    split; [done|]. split; [|by left].
    unfold onCellClick. rewrite Hsome, Hfree, Hcl. simpl. by rewrite Hsel'.
  - destruct (wf_clicks st Hwf pa) as (Heq & Hpa & Hfa & _); [rewrite Hcl; by left|].
    rewrite Hcl in Heq. injection Heq as ->.
    rewrite (onCellClick_second st sel pa r c Hsome Hsel Hcl Hfree).
    destruct (areAdjacent pa (r, c)) eqn:Hadj; cbn [negb].
    + destruct (find _ (pool st)) as [dom|] eqn:Hfind.
      * right. do 2 (split; [done|]).
        apply find_some in Hfind as [Hin Hid]. apply list_elem_of_In in Hin.
        apply Z.eqb_eq in Hid. subst sel.
        assert (Hwf' : wf (place st dom pa (r, c))) by (by apply wf_place).
        destruct (checkCompletion_total (place st dom pa (r, c))) as [ms Hms].
        { apply Hwf'. }
        { by apply wf_targets in Hwf. }
        rewrite Hms. exists pa, dom, ms. done.
      * left. do 2 (split; [done|]). exists [], MsgNotFound. eauto.
    + left. do 2 (split; [done|]). exists [], MsgNotAdjacent. eauto.
Qed.

Lemma undo_cases st :
  wf st →
  (history st = [] ∧ placed st = [] ∧ undo st = Ok st [MsgNothingToUndo]) ∨
  (∃ h l pl p t,
     history st = h ++ [l] ∧ placed st = pl ++ [p] ∧
     pid p = hdominoId l ∧ pcells p = hcells l ∧
     (pid p ∉ map pid pl) ∧
     lookupZ (solutionTiles st) (pid p) = Some t ∧
     map (λ h, (hdominoId h, hcells h)) h = map (λ p, (pid p, pcells p)) pl ∧
     undo st = Ok (unplace st p t pl h) [MsgUndid]).
Proof.
  intros Hwf. destruct (last (history st)) as [l|] eqn:Hlast.
  - right. apply last_Some in Hlast as [h Hh].
    destruct (undo_last st h l Hwf Hh) as (pl & p & t & Hpl & Hid & Hc & Hnew & Ht & Hu).
    exists h, l, pl, p, t. do 6 (split; [done|]). split; [|done].
    pose proof (wf_hist st Hwf) as Hhist. rewrite Hh, Hpl, !map_app in Hhist.
    by apply app_inj_tail in Hhist as [? _].
  - left. apply last_None in Hlast.
    pose proof (wf_hist st Hwf) as Hhist. rewrite Hlast in Hhist. simpl in Hhist.
    split; [done|]. split.
    + destruct (placed st); [done|discriminate].
    + unfold undo. by rewrite Hlast.
Qed.

Lemma initState_fresh fuel g st :
  initState fuel g = Some st →
  placed st = [] ∧ history st = [] ∧ selectedDominoId st = None ∧
  selectionClicks st = [] ∧ board st = createEmptyBoard.
Proof.
  unfold initState, initPuzzle.
  destruct (generateRandomTilingWithValues fuel g) as [[tiling g1]| |]; [|done..].
  destruct (computeBlockTargetsFromTiles tiling); [|done].
  destruct (shuffleArray _ g1) as [pool0 g2]. by intros [= <-].
Qed.

Lemma onSelectDomino_keeps i st :
  solutionTiles (outcome_state (onSelectDomino i st)) = solutionTiles st ∧
  placed (outcome_state (onSelectDomino i st)) = placed st ∧
  board (outcome_state (onSelectDomino i st)) = board st.
Proof. unfold onSelectDomino. by destruct (existsb _ (placed st)). Qed.

(** Domino 0 is never placed, and placements carry solution pips. *)
Lemma reachable_more st :
  reachable st → placedMatches st ∧ 0%Z ∉ map pid (placed st).
Proof.
  induction 1 as [fuel g st Hinit|st i Hreach IH|st r c Hreach IH Hr Hc|st Hreach IH
                 |st fuel g st' _ _ Hinit].
  - apply initState_fresh in Hinit as (Hp & _). unfold placedMatches.
    rewrite Hp. split; [intros p Hp'; by apply elem_of_nil in Hp'|].
    simpl. apply not_elem_of_nil.
  - destruct (onSelectDomino_keeps i st) as (Ht & Hp & _).
    unfold placedMatches. by rewrite Ht, Hp.
  - pose proof (reachable_wf st Hreach) as Hwf. destruct IH as [IHm IHz].
    destruct (onCellClick_cases st r c Hwf Hr Hc)
      as [(_ & ->)|[(_ & _ & ->)|[(_ & _ & cl & m & _ & -> & _)
         |(_ & _ & pa & dom & ms & Hsel & Hnz & _ & _ & _ & _ & Hdom & _ & ->)]]];
      try done.
    simpl. split.
    + intros p Hp. simpl in Hp. apply elem_of_app in Hp as [Hp|Hp]; [by apply IHm|].
      apply list_elem_of_singleton in Hp as ->. simpl.
      destruct (wf_pool st Hwf dom Hdom) as (t & Ht & Ha & Hb). eauto.
    + rewrite map_app. simpl. intros Hin. apply elem_of_app in Hin as [Hin|Hin]; [done|].
      apply list_elem_of_singleton in Hin. done.
  - pose proof (reachable_wf st Hreach) as Hwf. destruct IH as [IHm IHz].
    destruct (undo_cases st Hwf)
      as [(_ & _ & ->)|(h & l & pl & p & t & _ & Hpl & _ & _ & _ & _ & _ & ->)];
      [done|]. simpl. split.
    + intros q Hq. simpl in Hq. apply (IHm q). rewrite Hpl. apply elem_of_app. by left.
    + intros Hin. apply IHz. rewrite Hpl, map_app. apply elem_of_app. by left.
  - apply initState_fresh in Hinit as (Hp & _). unfold placedMatches.
    rewrite Hp. split; [intros p Hp'; by apply elem_of_nil in Hp'|].
    simpl. apply not_elem_of_nil.
Qed.

Lemma placed_iff_onBoard st i :
  wf st → (existsb (λ p, (pid p =? i)%Z) (placed st) = true ↔ onBoard st i).
Proof.
  intros Hwf. rewrite existsb_exists. split.
  - intros (p & Hp & E). apply Z.eqb_eq in E. apply list_elem_of_In in Hp.
    destruct (wf_placed st Hwf p Hp) as (_ & _ & _ & Hg0 & _).
    exists (pos0 (pcells p)).1, (pos0 (pcells p)).2, (entry0 p). by split.
  - intros (r & c & e & He & Hid).
    destruct (wf_board st Hwf r c e He) as (p & Hp & Hpid & _).
    exists p. split; [by apply list_elem_of_In|]. apply Z.eqb_eq. congruence.
Qed.

(** X8. In a reachable state [onSelectDomino(id)] returns at once, changing
    nothing and setting no message, exactly when domino [id] is shown on the
    board; for every other id it makes [id] the selection and drops any
    pending click, and leaves the board, the pool, the placements and the
    history alone. *)
Theorem select_ignored_iff_on_board st i :
  reachable st →
  (onBoard st i → onSelectDomino i st = Ok st []) ∧
  (¬ onBoard st i →
     ∃ st', onSelectDomino i st = Ok st' [MsgSelected] ∧
            selectedDominoId st' = Some i ∧ selectionClicks st' = [] ∧
            board st' = board st ∧ pool st' = pool st ∧
            placed st' = placed st ∧ history st' = history st ∧
            solutionTiles st' = solutionTiles st).
Proof.
  intros Hreach. pose proof (reachable_wf st Hreach) as Hwf.
  pose proof (placed_iff_onBoard st i Hwf) as Hiff. unfold onSelectDomino.
  destruct (existsb _ (placed st)).
  - split; [done|]. intros Hn. exfalso. by apply Hn, Hiff.
  - split; [|by eauto 10]. intros Hon. apply Hiff in Hon. done.
Qed.

Lemma select_ignored_iff_on_board_witness :
  (onBoard afterPlacement 1 → onSelectDomino 1 afterPlacement = Ok afterPlacement []) ∧
  (¬ onBoard afterPlacement 1 →
     ∃ st', onSelectDomino 1 afterPlacement = Ok st' [MsgSelected] ∧
            selectedDominoId st' = Some 1%Z ∧ selectionClicks st' = [] ∧
            board st' = board afterPlacement ∧ pool st' = pool afterPlacement ∧
            placed st' = placed afterPlacement ∧ history st' = history afterPlacement ∧
            solutionTiles st' = solutionTiles afterPlacement).
Proof.
  apply (select_ignored_iff_on_board afterPlacement 1).
  apply reach_click; [|vm_compute; lia..].
  apply reach_click; [|vm_compute; lia..].
  apply reach_select. apply (reach_init 9 sampleRng). vm_compute. reflexivity.
Defined.

(** X9. No handler raises in a reachable state: [onSelectDomino] for any
    id, [onCellClick] for any grid cell and [undo] all run to their end
    (none of the property reads on [undefined] or [null] that the code
    contains is ever reached with such a value). *)
Theorem handlers_never_raise st :
  reachable st →
  (∀ i, ∃ st' msgs, onSelectDomino i st = Ok st' msgs) ∧
  (∀ r c, r < SIZE → c < SIZE → ∃ st' msgs, onCellClick r c st = Ok st' msgs) ∧
  (∃ st' msgs, undo st = Ok st' msgs) ∧
  (∃ msgs, checkCompletion st = Some msgs).
Proof.
  intros Hreach. pose proof (reachable_wf st Hreach) as Hwf.
  split; [|split; [|split]].
  - intros i. unfold onSelectDomino. destruct (existsb _ (placed st)); eauto.
  - intros r c Hr Hc. by apply wf_click.
  - by apply wf_undo.
  - apply checkCompletion_total; [apply Hwf|by apply wf_targets].
Qed.

Lemma handlers_never_raise_witness :
  (∀ i, ∃ st' msgs, onSelectDomino i afterPlacement = Ok st' msgs) ∧
  (∀ r c, r < SIZE → c < SIZE →
          ∃ st' msgs, onCellClick r c afterPlacement = Ok st' msgs) ∧
  (∃ st' msgs, undo afterPlacement = Ok st' msgs) ∧
  (∃ msgs, checkCompletion afterPlacement = Some msgs).
Proof.
  apply (handlers_never_raise afterPlacement).
  apply reach_click; [|vm_compute; lia..].
  apply reach_click; [|vm_compute; lia..].
  apply reach_select. apply (reach_init 9 sampleRng). vm_compute. reflexivity.
Defined.

(** X10. In a reachable state a click on a grid cell leaves the state
    untouched exactly when the selection is [null] or the number 0, or the
    cell is occupied; it then sets the select-a-domino notice, respectively
    the cell-occupied notice. Every other click changes the pending clicks
    or places the domino. *)
Theorem click_noop_iff st r c :
  reachable st → r < SIZE → c < SIZE →
  (outcome_state (onCellClick r c st) = st ↔
     noSelection (selectedDominoId st) = true ∨
     ∃ e, get2 (board st) r c = Some (Some e)) ∧
  (noSelection (selectedDominoId st) = true →
     onCellClick r c st = Ok st [MsgSelectFirst]) ∧
  (noSelection (selectedDominoId st) = false →
     (∃ e, get2 (board st) r c = Some (Some e)) →
     onCellClick r c st = Ok st [MsgOccupied]).
Proof.
  intros Hreach Hr Hc. pose proof (reachable_wf st Hreach) as Hwf.
  destruct (onCellClick_cases st r c Hwf Hr Hc)
    as [(Hsel & Hrun)|[(Hsel & Hocc & Hrun)|[(Hsel & Hfree & cl & m & Hcl & Hrun & _)
       |(Hsel & Hfree & pa & dom & ms & _ & _ & _ & _ & _ & _ & _ & _ & Hrun)]]];
    rewrite Hrun; simpl.
  - split; [split; [by left|done]|]. split; [done|]. by rewrite Hsel.
  - split; [split; [by right|done]|]. split; [by rewrite Hsel|done].
  - split; [|split; [by rewrite Hsel|]].
    + split.
      * intros E. apply (f_equal selectionClicks) in E. done.
      * intros [E|[e He]]; [by rewrite Hsel in E|]. by rewrite Hfree in He.
    + intros _ [e He]. by rewrite Hfree in He.
  - split; [|split; [by rewrite Hsel|]].
    + split.
      * intros E. apply (f_equal (λ s, length (placed s))) in E. simpl in E.
        rewrite length_app in E. simpl in E. lia.
      * intros [E|[e He]]; [by rewrite Hsel in E|]. by rewrite Hfree in He.
    + intros _ [e He]. by rewrite Hfree in He.
Qed.

Lemma click_noop_iff_witness :
  (outcome_state (onCellClick 1 1 afterPlacement) = afterPlacement ↔
     noSelection (selectedDominoId afterPlacement) = true ∨
     ∃ e, get2 (board afterPlacement) 1 1 = Some (Some e)) ∧
  (noSelection (selectedDominoId afterPlacement) = true →
     onCellClick 1 1 afterPlacement = Ok afterPlacement [MsgSelectFirst]) ∧
  (noSelection (selectedDominoId afterPlacement) = false →
     (∃ e, get2 (board afterPlacement) 1 1 = Some (Some e)) →
     onCellClick 1 1 afterPlacement = Ok afterPlacement [MsgOccupied]).
Proof.
  apply (click_noop_iff afterPlacement 1 1).
  - apply reach_click; [|vm_compute; lia..].
    apply reach_click; [|vm_compute; lia..].
    apply reach_select. apply (reach_init 9 sampleRng). vm_compute. reflexivity.
  - vm_compute; lia.
  - vm_compute; lia.
Defined.

(** ** Domino 0 *)

Lemma existsb_isNull_true (bd : Board) :
  shape bd → existsb isNull (concat bd) = true →
  ∃ r c, r < SIZE ∧ c < SIZE ∧ get2 bd r c = Some None.
Proof.
  intros Hs He.
  destruct (shape_cases bd Hs) as (?&?&?&?&?&?&?&?&?&?&?&?&?&?&?&?&->).
  cbn [concat app existsb] in He. rewrite orb_false_r in He. unfold SIZE.
  repeat match type of He with
         | (_ || _) = true => apply orb_prop in He as [He|He]
         end;
    match type of He with
    | isNull ?o = true => destruct o; [discriminate He|]
    end;
    [ exists 0, 0 | exists 0, 1 | exists 0, 2 | exists 0, 3
    | exists 1, 0 | exists 1, 1 | exists 1, 2 | exists 1, 3
    | exists 2, 0 | exists 2, 1 | exists 2, 2 | exists 2, 3
    | exists 3, 0 | exists 3, 1 | exists 3, 2 | exists 3, 3 ];
    (split; [lia|split; [lia|reflexivity]]).
Qed.

Lemma wf_counts st :
  wf st → length (pool st) + length (placed st) = 8.
Proof.
  intros Hwf. pose proof (Permutation_length (wf_ids st Hwf)) as Hlen.
  rewrite length_app, !length_map, length_seq in Hlen.
  destruct (wf_tiles st Hwf) as (H8 & _). lia.
Qed.

Lemma covered_positions st p x :
  p ∈ placed st → covers p x → x ∈ positions (map pcells (placed st)).
Proof.
  intros Hp Hc. unfold positions.
  apply list_elem_of_In, in_map_iff.
  destruct Hc as [-> | ->].
  - exists (cell0 (pcells p)). split; [done|]. apply in_concat.
    exists (cells (pcells p)). split; [|by left].
    apply in_map_iff. exists (pcells p). split; [done|].
    apply in_map_iff. exists p. split; [done|]. by apply list_elem_of_In.
  - exists (cell1 (pcells p)). split; [done|]. apply in_concat.
    exists (cells (pcells p)). split; [|right; by left].
    apply in_map_iff. exists (pcells p). split; [done|].
    apply in_map_iff. exists p. split; [done|]. by apply list_elem_of_In.
Qed.

(** With domino 0 in the pool the board has an empty cell. *)
Lemma reachable_never_full st :
  reachable st →
  0%Z ∈ map id (pool st) ∧ length (placed st) ≤ 7 ∧
  (∃ r c, r < SIZE ∧ c < SIZE ∧ get2 (board st) r c = Some None) ∧
  checkCompletion st = Some [].
Proof.
  intros Hreach. pose proof (reachable_wf st Hreach) as Hwf.
  destruct (reachable_more st Hreach) as [_ Hz].
  assert (H0 : 0%Z ∈ map id (pool st)).
  { assert (Hin : 0%Z ∈ map id (pool st) ++ map pid (placed st)).
    { rewrite (wf_ids st Hwf). destruct (wf_tiles st Hwf) as [H8 _].
      rewrite H8. by left. }
    apply elem_of_app in Hin as [?|?]; done. }
  assert (Hlen : length (placed st) ≤ 7).
  { pose proof (wf_counts st Hwf). destruct (pool st); [by apply elem_of_nil in H0|].
    simpl in *. lia. }
  split; [done|]. split; [done|].
  destruct (existsb isNull (concat (board st))) eqn:He.
  - split; [by apply existsb_isNull_true; [apply Hwf|]|].
    unfold checkCompletion. by rewrite He.
  - exfalso. apply existsb_isNull_false in He; [|apply Hwf].
    assert (Hsub : all_cells ⊆+ positions (map pcells (placed st))).
    { apply NoDup_submseteq; [apply NoDup_all_cells|].
      intros [r c] Hx. apply all_cells_spec in Hx as [Hr Hc]. simpl in Hr, Hc.
      destruct (He r c Hr Hc) as [e Hget].
      destruct (wf_board st Hwf r c e Hget) as (p & Hp & _ & Hcov).
      by apply (covered_positions st p). }
    apply submseteq_length in Hsub.
    rewrite length_positions, length_map in Hsub.
    change (length all_cells) with 16 in Hsub. lia.
Qed.

(** X11. Domino 0 can never be placed: in every reachable state it is still
    in the pool and no board cell shows it, at most seven dominoes are
    placed, at least one grid cell is empty, [checkCompletion] returns at
    once, and a click sets neither the "solved" nor the "wrong blocks"
    message. *)
Theorem domino_zero_never_placed st :
  reachable st →
  0%Z ∈ map id (pool st) ∧
  ¬ onBoard st 0 ∧
  length (placed st) ≤ 7 ∧
  (∃ r c, r < SIZE ∧ c < SIZE ∧ get2 (board st) r c = Some None) ∧
  checkCompletion st = Some [] ∧
  ∀ r c, r < SIZE → c < SIZE →
    ∃ st' m, onCellClick r c st = Ok st' [m] ∧ m ≠ MsgSolved ∧
             ∀ w, m ≠ MsgWrongBlocks w.
Proof.
  intros Hreach. pose proof (reachable_wf st Hreach) as Hwf.
  destruct (reachable_never_full st Hreach) as (H0 & Hlen & Hempty & Hcheck).
  destruct (reachable_more st Hreach) as [_ Hz].
  split; [done|]. split.
  { intros Hon. apply (placed_iff_onBoard st 0 Hwf) in Hon.
    apply existsb_exists in Hon as (p & Hp & E). apply Z.eqb_eq in E.
    apply Hz. rewrite <- E. apply list_elem_of_fmap. exists p.
    split; [done|by apply list_elem_of_In]. }
  do 3 (split; [done|]).
  intros r c Hr Hc.
  pose proof (reach_click st r c Hreach Hr Hc) as Hreach'.
  destruct (onCellClick_cases st r c Hwf Hr Hc)
    as [(_ & Hrun)|[(_ & _ & Hrun)|[(_ & _ & cl & m & _ & Hrun & Hm)
       |(_ & _ & pa & dom & ms & _ & _ & _ & _ & _ & _ & _ & Hms & Hrun)]]];
    rewrite Hrun in *.
  - eauto.
  - eauto.
  - eexists _, m. split; [done|]. destruct Hm as [-> | [-> | ->]]; done.
  - simpl in Hreach'.
    destruct (reachable_never_full _ Hreach') as (_ & _ & _ & Hcheck').
    rewrite Hcheck' in Hms. injection Hms as <-. eauto.
Qed.

Lemma domino_zero_never_placed_witness :
  0%Z ∈ map id (pool afterPlacement) ∧
  ¬ onBoard afterPlacement 0 ∧
  length (placed afterPlacement) ≤ 7 ∧
  (∃ r c, r < SIZE ∧ c < SIZE ∧ get2 (board afterPlacement) r c = Some None) ∧
  checkCompletion afterPlacement = Some [] ∧
  ∀ r c, r < SIZE → c < SIZE →
    ∃ st' m, onCellClick r c afterPlacement = Ok st' [m] ∧ m ≠ MsgSolved ∧
             ∀ w, m ≠ MsgWrongBlocks w.
Proof.
  apply (domino_zero_never_placed afterPlacement).
  apply reach_click; [|vm_compute; lia..].
  apply reach_click; [|vm_compute; lia..].
  apply reach_select. apply (reach_init 9 sampleRng). vm_compute. reflexivity.
Defined.

(** ** Bookkeeping of reachable states *)

(** X12. In every reachable state the pool and the placements together
    hold the ids 0..7, each once (so eight dominoes in all); the history
    lists the same dominoes on the same cells as the placements, in the same
    order; a grid cell is occupied exactly when a placement covers it; and
    if a click is pending there is only one, its cell is empty and a domino
    with a non-zero id is selected. *)
Theorem reachable_bookkeeping st :
  reachable st →
  length (pool st) + length (placed st) = 8 ∧
  map id (pool st) ++ map pid (placed st) ≡ₚ [0; 1; 2; 3; 4; 5; 6; 7]%Z ∧
  map (λ h, (hdominoId h, hcells h)) (history st)
    = map (λ p, (pid p, pcells p)) (placed st) ∧
  length (history st) = length (placed st) ∧
  (∀ r c, r < SIZE → c < SIZE →
     ((∃ e, get2 (board st) r c = Some (Some e)) ↔
      ∃ p, p ∈ placed st ∧ covers p (r, c))) ∧
  (∀ q, q ∈ selectionClicks st →
     selectionClicks st = [q] ∧ get2 (board st) q.1 q.2 = Some None ∧
     ∃ sel, selectedDominoId st = Some sel ∧ sel ≠ 0%Z).
Proof.
  intros Hreach. pose proof (reachable_wf st Hreach) as Hwf.
  split; [by apply wf_counts|]. split.
  { rewrite (wf_ids st Hwf). destruct (wf_tiles st Hwf) as [H8 _]. by rewrite H8. }
  split; [apply Hwf|]. split.
  { pose proof (f_equal length (wf_hist st Hwf)) as H. by rewrite !length_map in H. }
  split.
  - intros r c Hr Hc. split.
    + intros [e He]. destruct (wf_board st Hwf r c e He) as (p & Hp & _ & Hcov).
      exists p. done.
    + intros (p & Hp & Hcov).
      destruct (wf_covers st p (r, c) Hwf Hp Hcov) as (e & He & _). eauto.
  - intros q Hq. destruct (wf_clicks st Hwf q Hq) as (Hcl & _ & Hfree & Hsel).
    do 2 (split; [done|]).
    destruct (selectedDominoId st) as [sel|]; [|done].
    exists sel. split; [done|]. by apply Z.eqb_neq.
Qed.

Lemma reachable_bookkeeping_witness :
  length (pool afterFirstClick) + length (placed afterFirstClick) = 8 ∧
  map id (pool afterFirstClick) ++ map pid (placed afterFirstClick)
    ≡ₚ [0; 1; 2; 3; 4; 5; 6; 7]%Z ∧
  map (λ h, (hdominoId h, hcells h)) (history afterFirstClick)
    = map (λ p, (pid p, pcells p)) (placed afterFirstClick) ∧
  length (history afterFirstClick) = length (placed afterFirstClick) ∧
  (∀ r c, r < SIZE → c < SIZE →
     ((∃ e, get2 (board afterFirstClick) r c = Some (Some e)) ↔
      ∃ p, p ∈ placed afterFirstClick ∧ covers p (r, c))) ∧
  (∀ q, q ∈ selectionClicks afterFirstClick →
     selectionClicks afterFirstClick = [q] ∧
     get2 (board afterFirstClick) q.1 q.2 = Some None ∧
     ∃ sel, selectedDominoId afterFirstClick = Some sel ∧ sel ≠ 0%Z).
Proof.
  apply (reachable_bookkeeping afterFirstClick).
  apply reach_click; [|vm_compute; lia..].
  apply reach_select. apply (reach_init 9 sampleRng). vm_compute. reflexivity.
Defined.

(** X13. In every reachable state each domino keeps the pip values of its
    solution tile: a pool domino has them as [a] and [b], and a placed
    domino shows the first on the cell clicked first and the second on the
    cell clicked second. So what [undo] reads from [solutionTiles] is what
    the board showed. *)
Theorem dominoes_keep_solution_pips st :
  reachable st →
  (∀ d, d ∈ pool st →
     ∃ t, lookupZ (solutionTiles st) (id d) = Some t ∧
          a d = cvalue (cell0 t) ∧ b d = cvalue (cell1 t)) ∧
  (∀ p, p ∈ placed st →
     ∃ t, lookupZ (solutionTiles st) (pid p) = Some t ∧
          get2 (board st) (pos0 (pcells p)).1 (pos0 (pcells p)).2
            = Some (Some {| value := cvalue (cell0 t); dominoId := pid p |}) ∧
          get2 (board st) (pos1 (pcells p)).1 (pos1 (pcells p)).2
            = Some (Some {| value := cvalue (cell1 t); dominoId := pid p |})).
Proof.
  intros Hreach. pose proof (reachable_wf st Hreach) as Hwf.
  destruct (reachable_more st Hreach) as [Hm _].
  split; [apply Hwf|]. intros p Hp.
  destruct (Hm p Hp) as (t & Ht & H0 & H1).
  destruct (wf_placed st Hwf p Hp) as (_ & _ & _ & Hg0 & Hg1).
  exists t. split; [done|]. rewrite <- H0, <- H1. done.
Qed.

Lemma dominoes_keep_solution_pips_witness :
  (∀ d, d ∈ pool afterPlacement →
     ∃ t, lookupZ (solutionTiles afterPlacement) (id d) = Some t ∧
          a d = cvalue (cell0 t) ∧ b d = cvalue (cell1 t)) ∧
  (∀ p, p ∈ placed afterPlacement →
     ∃ t, lookupZ (solutionTiles afterPlacement) (pid p) = Some t ∧
          get2 (board afterPlacement) (pos0 (pcells p)).1 (pos0 (pcells p)).2
            = Some (Some {| value := cvalue (cell0 t); dominoId := pid p |}) ∧
          get2 (board afterPlacement) (pos1 (pcells p)).1 (pos1 (pcells p)).2
            = Some (Some {| value := cvalue (cell1 t); dominoId := pid p |})).
Proof.
  apply (dominoes_keep_solution_pips afterPlacement).
  apply reach_click; [|vm_compute; lia..].
  apply reach_click; [|vm_compute; lia..].
  apply reach_select. apply (reach_init 9 sampleRng). vm_compute. reflexivity.
Defined.

(** ** Undo *)

(** X14. In a reachable state with at least one placement, [undo] takes
    back the most recent one, whatever was selected or clicked since: the
    last placement and the last history entry go, the two cells of that
    placement become empty and no other cell changes, the domino is appended
    to the pool with the pip values of its solution tile, and the selection
    and the pending clicks stay as they are. *)
Theorem undo_takes_back_last st pl p :
  reachable st → placed st = pl ++ [p] →
  ∃ st' t l,
    undo st = Ok st' [MsgUndid] ∧
    lookupZ (solutionTiles st) (pid p) = Some t ∧
    placed st' = pl ∧
    history st = history st' ++ [l] ∧ hdominoId l = pid p ∧ hcells l = pcells p ∧
    pool st' = pool st ++
      [{| id := pid p; a := cvalue (cell0 t); b := cvalue (cell1 t) |}] ∧
    get2 (board st') (pos0 (pcells p)).1 (pos0 (pcells p)).2 = Some None ∧
    get2 (board st') (pos1 (pcells p)).1 (pos1 (pcells p)).2 = Some None ∧
    (∀ x, x ≠ pos0 (pcells p) → x ≠ pos1 (pcells p) →
          get2 (board st') x.1 x.2 = get2 (board st) x.1 x.2) ∧
    selectedDominoId st' = selectedDominoId st ∧
    selectionClicks st' = selectionClicks st ∧
    solutionTiles st' = solutionTiles st.
Proof.
  intros Hreach Hpl. pose proof (reachable_wf st Hreach) as Hwf.
  destruct (undo_cases st Hwf)
    as [(_ & Hnil & _)|(h & l & pl' & p' & t & Hh & Hpl' & Hid & Hc & _ & Ht & _ & Hu)].
  { rewrite Hnil in Hpl. by destruct pl. }
  rewrite Hpl in Hpl'. apply app_inj_tail in Hpl' as [<- <-].
  assert (Hp : p ∈ placed st) by (rewrite Hpl; apply elem_of_app; right; by left).
  destruct (wf_placed st Hwf p Hp) as ([H0r H0c] & [H1r H1c] & Hadj & Hg0 & Hg1).
  pose proof (wf_shape st Hwf) as Hs.
  assert (Hne : pos0 (pcells p) ≠ pos1 (pcells p)).
  { intros E. rewrite E in Hadj. by rewrite areAdjacent_irrefl in Hadj. }
  exists (unplace st p t pl h), t, l. split; [done|]. split; [done|].
  unfold pos0, pos1, cellPos in *. simpl in *.
  do 4 (split; [done|]). split; [done|]. split; [|split; [|split; [|done]]].
  - rewrite get2_set2_ne by congruence.
    apply get2_set2_eq. by apply get2_is_Some.
  - apply get2_set2_eq. apply get2_is_Some; [by apply shape_set2|done..].
  - intros [r c] Hn0 Hn1. simpl. rewrite !get2_set2_ne; congruence.
Qed.

Lemma undo_takes_back_last_witness :
  ∃ st' t l,
    undo afterPlacement = Ok st' [MsgUndid] ∧
    lookupZ (solutionTiles afterPlacement) 1 = Some t ∧
    placed st' = [] ∧
    history afterPlacement = history st' ++ [l] ∧ hdominoId l = 1%Z ∧
    hcells l = placedTile (mkDomino 1 3 5) (1, 1) (1, 2) ∧
    pool st' = pool afterPlacement ++
      [{| id := 1; a := cvalue (cell0 t); b := cvalue (cell1 t) |}] ∧
    get2 (board st') 1 1 = Some None ∧
    get2 (board st') 1 2 = Some None ∧
    (∀ x, x ≠ (1, 1) → x ≠ (1, 2) →
          get2 (board st') x.1 x.2 = get2 (board afterPlacement) x.1 x.2) ∧
    selectedDominoId st' = selectedDominoId afterPlacement ∧
    selectionClicks st' = selectionClicks afterPlacement ∧
    solutionTiles st' = solutionTiles afterPlacement.
Proof.
  apply (undo_takes_back_last afterPlacement []
           {| pid := 1; pcells := placedTile (mkDomino 1 3 5) (1, 1) (1, 2) |}).
  - apply reach_click; [|vm_compute; lia..].
    apply reach_click; [|vm_compute; lia..].
    apply reach_select. apply (reach_init 9 sampleRng). vm_compute. reflexivity.
  - reflexivity.
Defined.

Lemma wf_empty_board st : wf st → placed st = [] → board st = createEmptyBoard.
Proof.
  intros Hwf Hnil. apply grid_ext; [apply Hwf|apply shape_make|].
  intros r c Hr Hc. unfold createEmptyBoard. rewrite get2_make by done.
  destruct (get2_is_Some (board st) r c (wf_shape st Hwf) Hr Hc) as [[e|] Hget];
    [|done].
  destruct (wf_board st Hwf r c e Hget) as (p & Hp & _).
  rewrite Hnil in Hp. by apply elem_of_nil in Hp.
Qed.

Lemma wf_pool_all st :
  wf st → placed st = [] → pool st ≡ₚ dominoesOf (solutionTiles st).
Proof.
  intros Hwf Hnil. pose proof (wf_ids st Hwf) as Hids.
  rewrite Hnil in Hids. simpl in Hids. rewrite app_nil_r in Hids.
  assert (Hnd : NoDup (map id (pool st))).
  { rewrite Hids. apply (NoDup_fmap_2 Z.of_nat), NoDup_seq. }
  apply NoDup_Permutation.
  - by apply (NoDup_fmap_1 id).
  - apply (NoDup_fmap_1 id). unfold dominoesOf.
    change (id <$> ?l) with (map id l). rewrite pool_ids_init.
    apply (NoDup_fmap_2 Z.of_nat), NoDup_seq.
  - intros d. unfold dominoesOf. rewrite elem_of_lookup_imap. split.
    + intros Hd. destruct (wf_pool st Hwf d Hd) as (t & Ht & Ha & Hb).
      assert (Hin : id d ∈ map id (pool st)) by (apply list_elem_of_fmap; eauto).
      rewrite Hids in Hin. apply list_elem_of_fmap in Hin as (n & Hn & _).
      rewrite Hn, lookupZ_of_nat in Ht. exists n, t. split; [|done].
      destruct d; simpl in *; by subst.
    + intros (n & t & -> & Ht).
      assert (Hin : Z.of_nat n ∈ map id (pool st)).
      { rewrite Hids. apply list_elem_of_fmap. exists n. split; [done|].
        apply elem_of_seq. apply lookup_lt_Some in Ht. lia. }
      apply list_elem_of_fmap in Hin as (d & Hid & Hd).
      destruct (wf_pool st Hwf d Hd) as (t' & Ht' & Ha & Hb).
      rewrite <- Hid, lookupZ_of_nat, Ht in Ht'. injection Ht' as <-.
      destruct d; simpl in *; by subst.
Qed.

Lemma undoN_spec n :
  ∀ st, wf st → length (history st) = n →
    wf (undoN n st) ∧ history (undoN n st) = [] ∧
    solutionTiles (undoN n st) = solutionTiles st ∧
    selectedDominoId (undoN n st) = selectedDominoId st ∧
    selectionClicks (undoN n st) = selectionClicks st.
Proof.
  induction n as [|n IH]; intros st Hwf Hlen; simpl.
  - split; [done|]. split; [|done]. by destruct (history st).
  - destruct (undo_cases st Hwf)
      as [(Hnil & _)|(h & l & pl & p & t & Hh & Hpl & _ & _ & Hnew & Ht & Hhist & Hu)].
    { by rewrite Hnil in Hlen. }
    rewrite Hu. simpl.
    destruct (IH (unplace st p t pl h)) as (Hwf' & Hh' & Ht' & Hs' & Hc').
    + by apply wf_unplace.
    + simpl. rewrite Hh, length_app in Hlen. simpl in Hlen. lia.
    + done.
Qed.

(** X15. From a reachable state, calling [undo] once per history entry
    brings the puzzle back to its start: the board is empty, nothing is
    placed or recorded, and the pool holds the eight dominoes of the
    solution again (in some order); the solution, the selection and the
    pending clicks are untouched. One more [undo] only sets the
    nothing-to-undo notice. *)
Theorem undo_all_returns_to_start st :
  reachable st →
  board (undoN (length (history st)) st) = createEmptyBoard ∧
  placed (undoN (length (history st)) st) = [] ∧
  history (undoN (length (history st)) st) = [] ∧
  pool (undoN (length (history st)) st) ≡ₚ dominoesOf (solutionTiles st) ∧
  solutionTiles (undoN (length (history st)) st) = solutionTiles st ∧
  selectedDominoId (undoN (length (history st)) st) = selectedDominoId st ∧
  selectionClicks (undoN (length (history st)) st) = selectionClicks st ∧
  undo (undoN (length (history st)) st)
    = Ok (undoN (length (history st)) st) [MsgNothingToUndo].
Proof.
  intros Hreach. pose proof (reachable_wf st Hreach) as Hwf.
  destruct (undoN_spec (length (history st)) st Hwf eq_refl)
    as (Hwf' & Hh & Ht & Hs & Hc).
  set (st' := undoN (length (history st)) st) in *.
  assert (Hp : placed st' = []).
  { pose proof (wf_hist st' Hwf') as Hhist. rewrite Hh in Hhist.
    by destruct (placed st'). }
  split; [by apply wf_empty_board|]. do 2 (split; [done|]).
  split; [rewrite <- Ht; by apply wf_pool_all|]. do 3 (split; [done|]).
  unfold undo. by rewrite Hh.
Qed.

Lemma undo_all_returns_to_start_witness :
  board (undoN (length (history afterPlacement)) afterPlacement) = createEmptyBoard ∧
  placed (undoN (length (history afterPlacement)) afterPlacement) = [] ∧
  history (undoN (length (history afterPlacement)) afterPlacement) = [] ∧
  pool (undoN (length (history afterPlacement)) afterPlacement)
    ≡ₚ dominoesOf (solutionTiles afterPlacement) ∧
  solutionTiles (undoN (length (history afterPlacement)) afterPlacement)
    = solutionTiles afterPlacement ∧
  selectedDominoId (undoN (length (history afterPlacement)) afterPlacement)
    = selectedDominoId afterPlacement ∧
  selectionClicks (undoN (length (history afterPlacement)) afterPlacement)
    = selectionClicks afterPlacement ∧
  undo (undoN (length (history afterPlacement)) afterPlacement)
    = Ok (undoN (length (history afterPlacement)) afterPlacement) [MsgNothingToUndo].
Proof.
  apply (undo_all_returns_to_start afterPlacement).
  apply reach_click; [|vm_compute; lia..].
  apply reach_click; [|vm_compute; lia..].
  apply reach_select. apply (reach_init 9 sampleRng). vm_compute. reflexivity.
Defined.

(** ** Completion with the solution's values *)

(** X16. A full board that shows in every cell the pip value the solution
    tiling has there is reported solved, whichever domino ids the cells
    carry. *)
Theorem solution_values_are_solved st b :
  shape (board st) → boardFull (board st) →
  writeCells createEmptyBoard (concat (map cells (solutionTiles st))) = Some b →
  (∀ p, inGrid p → boardValue (board st) p = numAt b p) →
  checkCompletion st = Some [MsgSolved].
Proof.
  intros Hs Hfull Hb Hsame.
  assert (Htg : computeBlockTargetsFromTiles (solutionTiles st)
                = Some (map (targetOf b) BLOCKS)).
  { unfold computeBlockTargetsFromTiles. by rewrite Hb. }
  destruct (checkCompletion_full st _ Hs Hfull Htg) as (wrongIdx & Hw & ->).
  destruct wrongIdx as [|i rest]; [done|]. exfalso.
  destruct (proj1 (Hw i) ltac:(by left)) as (bl & t & Hbl & Ht & Hne).
  apply Hne.
  change (map ?f ?l !! i) with ((f <$> l) !! i) in Ht.
  rewrite list_lookup_fmap, Hbl in Ht. injection Ht as <-.
  unfold playerSum, targetOf. rewrite foldl_add, Z.add_0_l. f_equal.
  apply map_ext_in. intros p Hp. apply Hsame.
  destruct (blockCells_facts i bl Hbl) as (_ & _ & Hgrid).
  by apply Hgrid, list_elem_of_In.
Qed.

Lemma solution_values_are_solved_witness :
  checkCompletion solvedState = Some [MsgSolved].
Proof.
  apply (solution_values_are_solved solvedState sampleNumbers).
  - split; [reflexivity|]. repeat constructor.
  - intros r c Hr Hc. unfold SIZE in *.
    do 4 (destruct r as [|r]; [do 4 (destruct c as [|c]; [by eexists|]); lia|]).
    lia.
  - vm_compute. reflexivity.
  - intros [r c] [Hr Hc]. simpl in Hr, Hc. unfold SIZE in *.
    do 4 (destruct r as [|r]; [do 4 (destruct c as [|c]; [reflexivity|]); lia|]).
    lia.
Defined.

(** ** Order of the generated tiles *)

Lemma rowMajor_total p q : p ≠ q → rowMajorBefore p q ∨ rowMajorBefore q p.
Proof.
  destruct p as [r c], q as [r' c']. unfold rowMajorBefore. simpl. intros Hne.
  destruct (decide (r = r')) as [->|]; [|lia].
  destruct (decide (c = c')) as [->|]; [done|lia].
Qed.

Lemma firstsInv_place g ts r c d v1 v2 :
  genInv g ts → firstsInv g ts → inGrid (r, c) → isDir d →
  isEmptyAt g (r, c) = true →
  (∀ q, inGrid q → rowMajorBefore q (r, c) → isEmptyAt g q = false) →
  (r + dr d <? SIZE) && (c + dc d <? SIZE) && isEmptyAt g (r + dr d, c + dc d) = true →
  firstsInv (set2 (set2 g r c true) (r + dr d) (c + dc d) true)
            (ts ++ [{| cell0 := {| cr := r; cc := c; cvalue := v1 |};
                       cell1 := {| cr := r + dr d; cc := c + dc d; cvalue := v2 |} |}]).
Proof.
  intros (Hs & Hnd & Hgood & Hcov) [Hsorted Hbefore] Hrc Hd He Hfirst Hfeas.
  apply andb_prop in Hfeas as [Hb He'].
  apply andb_prop in Hb as [Hnr Hnc]. apply Nat.ltb_lt in Hnr, Hnc.
  assert (Hmark : ∀ q, isEmptyAt g q = false →
            isEmptyAt (set2 (set2 g r c true) (r + dr d) (c + dc d) true) q = false).
  { intros q Hq. destruct Hrc as [Hr Hc]. simpl in Hr, Hc.
    rewrite !isEmptyAt_set2 by (by repeat apply shape_set2).
    repeat case_decide; done. }
  split.
  - rewrite map_app. simpl. apply StronglySorted_app_2.
    + intros x1 x2 Hx1 Hx2. apply list_elem_of_singleton in Hx2 as ->.
      unfold pos0, cellPos. simpl.
      apply list_elem_of_fmap in Hx1 as (t & -> & Ht).
      assert (Hin : inGrid (pos0 t)).
      { rewrite Forall_forall in Hgood. by destruct (Hgood t Ht) as (? & _). }
      assert (Hfilled : isEmptyAt g (pos0 t) = false).
      { apply Hcov; [done|]. unfold positions.
        apply list_elem_of_In, in_map_iff. exists (cell0 t). split; [done|].
        apply in_concat. exists (cells t). split; [|by left].
        apply in_map_iff. exists t. split; [done|by apply list_elem_of_In]. }
      destruct (rowMajor_total (pos0 t) (r, c)) as [?|Hlt]; [congruence|done|].
      rewrite (Hbefore t (r, c) Ht Hrc Hlt) in He. done.
    + done.
    + repeat constructor.
  - intros t q Ht Hq Hlt. apply Hmark.
    apply elem_of_app in Ht as [Ht|Ht]; [by eapply Hbefore|].
    apply list_elem_of_singleton in Ht as ->. by apply Hfirst.
Qed.

Lemma tryDirs_sorted rec r c :
  recSpec rec → sortedSpec rec → inGrid (r, c) →
  ∀ ds st res,
    Forall isDir ds →
    genInv (g_cells st) (g_tiles st) →
    firstsInv (g_cells st) (g_tiles st) →
    isEmptyAt (g_cells st) (r, c) = true →
    (∀ q, inGrid q → rowMajorBefore q (r, c) → isEmptyAt (g_cells st) q = false) →
    tryDirs rec r c ds st = Some res → res.1 = true →
    StronglySorted rowMajorBefore (map pos0 (g_tiles res.2)).
Proof.
  intros Hrec Hsort Hrc ds.
  induction ds as [|d ds IH]; intros st res Hds Hinv Hf He Hfirst Hrun Hok.
  - simpl in Hrun. by inversion Hrun; subst.
  - apply Forall_cons in Hds as [Hd Hds]. cbn [tryDirs] in Hrun.
    destruct ((r + dr d <? SIZE) && (c + dc d <? SIZE)
              && isEmptyAt (g_cells st) (r + dr d, c + dc d)) eqn:Hfeas.
    + pose proof (randInt_range 1 6 (g_rng st) ltac:(lia)) as Hv1.
      destruct (randInt 1 6 (g_rng st)) as [v1 g1].
      pose proof (randInt_range 1 6 g1 ltac:(lia)) as Hv2.
      destruct (randInt 1 6 g1) as [v2 g2]. cbn [fst] in Hv1, Hv2.
      pose proof (genInv_place _ _ r c d v1 v2 Hinv Hrc Hd He Hfeas Hv1 Hv2) as Hinv1.
      pose proof (firstsInv_place _ _ r c d v1 v2 Hinv Hf Hrc Hd He Hfirst Hfeas) as Hf1.
      match type of Hrun with
      | context [rec ?s] => destruct (rec s) as [[[] st1]|] eqn:Hcall; [| |done]
      end.
      * inversion Hrun; subst.
        pose proof (λ H1 H2, Hsort _ (true, st1) H1 H2 Hcall eq_refl) as Hn.
        by apply Hn.
      * apply Hrec in Hcall; [|done]. destruct Hcall as [Hc1 Ht1]; simpl in Hc1, Ht1.
        apply andb_prop in Hfeas as [Hb He'].
        apply andb_prop in Hb as [Hnr Hnc]. apply Nat.ltb_lt in Hnr, Hnc.
        assert (Hback :
          set2 (set2 (g_cells st1) r c false) (r + dr d) (c + dc d) false = g_cells st).
        { rewrite Hc1.
          apply (backtrack_restore (g_cells st) (r, c) (r + dr d, c + dc d));
            try done. apply Hinv. }
        apply IH in Hrun; try done; simpl; rewrite ?Hback, ?Ht1, ?removelast_last; done.
    + by apply IH in Hrun.
Qed.

Lemma tryPlace_sorted fuel : sortedSpec (tryPlace fuel).
Proof.
  induction fuel as [|fuel IH]; intros st res Hinv Hf Hrun Hok; [done|].
  cbn [tryPlace] in Hrun.
  destruct (findFirstEmpty (g_cells st)) as [[r c]|] eqn:Hfind.
  - pose proof (findFirstEmpty_Some _ _ Hfind) as [Hrc He].
    pose proof (shuffle_two {| dr := 0; dc := 1 |} {| dr := 1; dc := 0 |} (g_rng st)) as Hsh.
    fold DIRS in Hsh.
    destruct (shuffleArray DIRS (g_rng st)) as [dirs g1]. cbn [fst] in Hsh.
    eapply (tryDirs_sorted _ r c (tryPlace_spec fuel) IH Hrc) in Hrun; try done.
    + destruct Hsh as [-> | ->]; repeat constructor; unfold isDir; simpl; lia.
    + intros q Hq Hlt. by eapply findFirstEmpty_before.
  - inversion Hrun; subst. apply Hf.
Qed.

Lemma genLoop_sorted fuel k :
  ∀ attempts st tiles g',
    genLoop fuel k attempts st = Ret (tiles, g') → shape (g_cells st) →
    StronglySorted rowMajorBefore (map pos0 tiles).
Proof.
  induction k as [|k IH]; intros attempts st tiles g' Hrun Hs; [done|].
  cbn [genLoop] in Hrun. rewrite resetCells_shape in Hrun by done.
  match type of Hrun with
  | context [tryPlace fuel ?s] =>
      destruct (tryPlace fuel s) as [[[] st1]|] eqn:Hcall; [| |done]
  end.
  - inversion Hrun; subst.
    apply (tryPlace_sorted fuel _ (true, st1)) in Hcall; try done.
    + apply genInv_empty.
    + split; [constructor|]. intros t q Ht. by apply elem_of_nil in Ht.
  - apply tryPlace_spec in Hcall; [|apply genInv_empty].
    destruct Hcall as [Hc _]; simpl in Hc.
    destruct (200 <? attempts + 1); [done|].
    eapply IH; [done|]. rewrite Hc. apply shape_make.
Qed.

(** X17. The tiles of a generated tiling are numbered in row-major order of
    their first cells: the first cell of tile [i] comes before the first
    cell of every later tile, the first cell of each tile comes before its
    second cell, and tile 0 starts at the top-left corner. *)
Theorem generated_tiles_row_major fuel g tiles g' :
  generateRandomTilingWithValues fuel g = Ret (tiles, g') →
  StronglySorted rowMajorBefore (map pos0 tiles) ∧
  Forall (λ t, rowMajorBefore (pos0 t) (pos1 t)) tiles ∧
  ∃ t rest, tiles = t :: rest ∧ pos0 t = (0, 0).
Proof.
  intros Hgen.
  assert (Hsorted : StronglySorted rowMajorBefore (map pos0 tiles)).
  { eapply genLoop_sorted; [exact Hgen|]. apply (shape_make false). }
  destruct (generate_valid fuel g (tiles, g') Hgen) as (Hlen & Hperm & Hadj & _).
  simpl in Hlen, Hperm, Hadj.
  split; [done|]. split.
  { eapply Forall_impl; [exact Hadj|]. intros t Ht.
    unfold tileAdjacent, rowMajorBefore, pos0, pos1, cellPos in *. simpl. lia. }
  destruct tiles as [|t rest]; [done|]. exists t, rest. split; [done|].
  assert (H00 : (0, 0) ∈ positions (t :: rest)).
  { rewrite Hperm. apply all_cells_spec. split; simpl; unfold SIZE; lia. }
  unfold positions in H00.
  apply list_elem_of_In, in_map_iff in H00 as (x & Hx & Hin).
  apply in_concat in Hin as (l & Hl & Hin).
  apply in_map_iff in Hl as (t' & <- & Ht').
  assert (H0 : pos0 t' = (0, 0)).
  { rewrite Forall_forall in Hadj. specialize (Hadj t' (proj2 (list_elem_of_In _ _) Ht')).
    unfold tileAdjacent in Hadj. unfold pos0.
    destruct Hin as [<-|[<-|[]]]; [done|].
    unfold cellPos in Hx. injection Hx as Hr Hc. lia. }
  simpl in Hsorted. apply StronglySorted_cons in Hsorted as [Hall _].
  destruct Ht' as [<-|Ht']; [done|].
  rewrite Forall_forall in Hall.
  specialize (Hall (pos0 t')). rewrite H0 in Hall.
  assert (Hb : rowMajorBefore (pos0 t) (0, 0)).
  { apply Hall. rewrite <- H0. apply list_elem_of_fmap. exists t'.
    split; [done|by apply list_elem_of_In]. }
  unfold rowMajorBefore in Hb. simpl in Hb. lia.
Qed.

Lemma generated_tiles_row_major_witness :
  StronglySorted rowMajorBefore (map pos0 halfTiling) ∧
  Forall (λ t, rowMajorBefore (pos0 t) (pos1 t)) halfTiling ∧
  ∃ t rest, halfTiling = t :: rest ∧ pos0 t = (0, 0).
Proof.
  apply (generated_tiles_row_major 9 halfRng halfTiling halfRng).
  vm_compute. reflexivity.
Defined.

(** ** The list of wrong blocks *)

Lemma wrongFrom_sorted sums :
  ∀ targets i,
    StronglySorted lt (wrongFrom i sums targets) ∧
    Forall (λ k, i ≤ k < i + length sums) (wrongFrom i sums targets).
Proof.
  induction sums as [|s sums IH]; intros targets i.
  - simpl. split; constructor.
  - assert (Htail : ∀ tg, StronglySorted lt (i :: wrongFrom (S i) sums tg) ∧
                          Forall (λ k, i ≤ k < i + S (length sums))
                                 (wrongFrom (S i) sums tg)).
    { intros tg. destruct (IH tg (S i)) as [Hs Hb]. split.
      - constructor; [done|]. eapply Forall_impl; [exact Hb|]. simpl. lia.
      - eapply Forall_impl; [exact Hb|]. simpl. lia. }
    destruct targets as [|t targets]; cbn [wrongFrom length].
    + destruct (Htail []) as [Hs Hb]. split; [done|]. constructor; [lia|done].
    + destruct (Htail targets) as [Hs Hb].
      destruct (s =? t)%Z.
      * split; [by apply StronglySorted_cons in Hs as [_ ?]|done].
      * split; [done|]. constructor; [lia|done].
Qed.

Lemma sequenceOpt_length {A} (l : list (option A)) xs :
  sequenceOpt l = Some xs → length xs = length l.
Proof.
  revert xs. induction l as [|[x|] l IH]; intros xs H; simpl in *; try done.
  - by injection H as <-.
  - destruct (sequenceOpt l) as [ys|]; [|done]. injection H as <-.
    simpl. f_equal. by apply IH.
Qed.

(** X18. Whenever [checkCompletion] reports wrong blocks, the list it
    reports is not empty, strictly increasing (so without repetition), and
    made of numbers from 1 to 4: every index handed to [flashWrongBlocks] is
    an index of [BLOCKS]. *)
Theorem wrong_blocks_listed_in_order st wrong :
  checkCompletion st = Some [MsgWrongBlocks wrong] →
  wrong ≠ [] ∧ StronglySorted lt wrong ∧ Forall (λ k, 1 ≤ k ≤ 4) wrong ∧
  ∃ wrongIdx, wrong = map (λ i, i + 1) wrongIdx ∧
              Forall (λ i, is_Some (BLOCKS !! i)) wrongIdx.
Proof.
  unfold checkCompletion. destruct (existsb isNull (concat (board st))); [done|].
  destruct (sequenceOpt _) as [sums|] eqn:Hsums; [|done].
  destruct (computeBlockTargetsFromTiles (solutionTiles st)) as [targets|]; [|done].
  apply sequenceOpt_length in Hsums. rewrite length_map in Hsums.
  change (length BLOCKS) with 4 in Hsums.
  destruct (wrongFrom_sorted sums targets 0) as [Hs Hb]. rewrite Hsums in Hb.
  destruct (wrongFrom 0 sums targets) as [|i0 rest] eqn:Hw; [done|].
  simpl. intros [= <-]. split; [done|]. split; [|split].
  - change (i0 + 1 :: map (λ i, i + 1) rest) with (map (λ i, i + 1) (i0 :: rest)).
    change (map ?f ?l) with (f <$> l).
    apply (StronglySorted_fmap (λ i, i + 1) lt lt); [|done]. intros x y. lia.
  - change (i0 + 1 :: map (λ i, i + 1) rest) with (map (λ i, i + 1) (i0 :: rest)).
    apply Forall_forall. intros k Hk.
    apply list_elem_of_fmap in Hk as (i & -> & Hi).
    rewrite Forall_forall in Hb. specialize (Hb i Hi). lia.
  - exists (i0 :: rest). split; [done|].
    eapply Forall_impl; [exact Hb|]. intros i Hi. simpl in Hi.
    apply lookup_lt_is_Some. change (length BLOCKS) with 4. lia.
Qed.

Lemma wrong_blocks_listed_in_order_witness :
  [1; 4] ≠ [] ∧ StronglySorted lt [1; 4] ∧ Forall (λ k, 1 ≤ k ≤ 4) [1; 4] ∧
  ∃ wrongIdx, [1; 4] = map (λ i, i + 1) wrongIdx ∧
              Forall (λ i, is_Some (BLOCKS !! i)) wrongIdx.
Proof.
  apply (wrong_blocks_listed_in_order misfilledState [1; 4]).
  vm_compute. reflexivity.
Defined.
